(** * BugBuddy: repository ingestion and file-tree construction

    A shallow embedding of the GitHub import service
    ([services/github.ts]: [fetchGithubRepo], [GitHubService.analyzeGitHubRepo])
    and of the tree builder ([utils/fileTree.ts]: [buildFileTree]), with the
    properties of the ingestion specification stated and proved over it.
    Around them: the request layer of [GitHubService] ([request],
    [isRateLimited]), [CodebaseService.analyzeGitHubRepo]
    ([services/codebase.ts]), [getSelectedFiles], the selection functions of
    [components/FileTree.tsx] and the import handler of
    [components/tabs/AnalyzeTab.tsx], with properties read off the code.

    Conventions of the embedding.
    - JavaScript numbers that count things or measure sizes are [Z] or [nat].
    - A string is a [string], the UTF-8 encoding of the JavaScript string.
      What the two files do with paths and messages (search for, split at
      and compare with ASCII text, test equality, concatenate) commutes with
      that encoding. The two functions of the host are taken apart:
      [toLowerCase] acts on the ASCII letters only, which is what the
      extension test sees of it except on names with U+0130 or U+212A, and
      module [CodeUnits] has that test over UTF-16 code units with the
      host's lower-casing as a parameter.
    - The network is an explicit argument: the responses of the repository
      and tree requests and, for every blob, the outcome of each download
      attempt. [await] and [Promise.all] are sequenced: the results of a
      batch come back in the order of the batch, and a variable that the
      source assigns only after [Promise.all] has settled is read at its old
      value by every element of the batch.
    - A decoded blob is an abstract value of which the code only ever reads
      the length, so the development is parametric in its type [Content].
    - [throw new Error(msg)] is the left injection of a sum; every throw site
      is a constructor of [ImportError] and [message] gives its text.
    - [analyzeGitHubRepo] is [GitHubService.analyzeGitHubRepo] from its tree
      request on, with the reference it resolved before as an argument;
      [GitHubService_analyzeGitHubRepo] puts the resolution in front of it.
    - A response body is taken as parsed: [response.json()] does not throw.
    - React state is explicit: a handler is a function from the selection
      and the tree to the selection it sets.
    - [localeCompare] is the collation of the host and a parameter of the
      tree builder. ECMAScript makes it a consistent comparison function,
      so it is total and transitive, and has it return zero for canonically
      equivalent strings, so it is not antisymmetric.
      [Array.prototype.sort] is the stable sort it is specified to be.
    - Progress callbacks and console output do not influence any returned
      value and are left out. *)

From Stdlib Require Import String Ascii List ZArith Lia Bool Arith.
From Stdlib Require Import Permutation Sorted DecimalString.
From Equations Require Import Equations.
Import ListNotations.
Open Scope string_scope.

(** ** JavaScript primitives used by the two files *)

(** [String.prototype.toLowerCase] as far as the two files can tell from
    its result, which they only compare with ASCII extensions: the ASCII
    letters are lower-cased and every other byte is kept. ECMAScript
    lower-cases a character outside ASCII to characters outside ASCII, one
    code unit for one, with two exceptions: U+0130 becomes two code units,
    and U+212A becomes the letter [k]. On a name with U+0130 before its last
    ["."], or with U+212A in its extension, [isSupportedFile] and
    [detectLanguage] below are not those of the code; module [CodeUnits] has
    them over code units, with the lower-casing of the host. *)
Definition lower_ascii (c : ascii) : ascii :=
  if (Ascii.leb "A" c && Ascii.leb c "Z")%bool
  then ascii_of_nat (nat_of_ascii c + 32)
  else c.

Fixpoint toLowerCase (s : string) : string :=
  match s with
  | EmptyString => EmptyString
  | String c r => String (lower_ascii c) (toLowerCase r)
  end.

(** [s.lastIndexOf(c)] for a one-character needle: the greatest index at
    which [c] occurs, [-1] when it does not occur. *)
Fixpoint lastIndexOf (c : ascii) (s : string) : Z :=
  match s with
  | EmptyString => (-1)%Z
  | String a r =>
      let k := lastIndexOf c r in
      if (k <? 0)%Z then (if Ascii.eqb a c then 0%Z else (-1)%Z) else (k + 1)%Z
  end.

Fixpoint drop (n : nat) (s : string) : string :=
  match n, s with
  | O, _ => s
  | S _, EmptyString => EmptyString
  | S n', String _ r => drop n' r
  end.

(** [s.substring(start)]: a negative start counts as [0], a start beyond the
    end yields the empty string. *)
Definition substring_from (start : Z) (s : string) : string :=
  drop (Z.to_nat start) s.

(** [s.includes(lit)], the meaning of an unanchored literal pattern. *)
Fixpoint includes (lit s : string) : bool :=
  String.prefix lit s ||
  match s with
  | EmptyString => false
  | String _ r => includes lit r
  end.

Definition startsWith (lit s : string) : bool := String.prefix lit s.

Fixpoint endsWith (lit s : string) : bool :=
  String.eqb s lit ||
  match s with
  | EmptyString => false
  | String _ r => endsWith lit r
  end.

(** [s.replace(lit, "")] with a string pattern: the first occurrence goes. *)
Fixpoint remove_first (lit s : string) : string :=
  if String.prefix lit s then drop (String.length lit) s
  else match s with
       | EmptyString => EmptyString
       | String c r => String c (remove_first lit r)
       end.

(** [s.replace(/\/$/, "")]: one trailing slash is removed. *)
Fixpoint strip_trailing_slash (s : string) : string :=
  match s with
  | EmptyString => EmptyString
  | String c r =>
      if (Ascii.eqb c "/" && String.eqb r "")%bool then EmptyString
      else String c (strip_trailing_slash r)
  end.

(** [s.split(sep)] for a one-character separator; never the empty array. *)
Fixpoint split (sep : ascii) (s : string) : list string :=
  match s with
  | EmptyString => [EmptyString]
  | String c r =>
      if Ascii.eqb c sep then EmptyString :: split sep r
      else match split sep r with
           | h :: t => String c h :: t
           | [] => [String c EmptyString]
           end
  end.

(** [parts.join(sep)]. *)
Definition join (sep : string) (parts : list string) : string :=
  String.concat sep parts.

(** [arr.slice(i, j)] for [0 <= i <= j]. *)
Definition slice {A : Type} (i j : nat) (l : list A) : list A :=
  firstn (j - i) (skipn i l).

(** [arr.slice(0, e)] for an arbitrary integer [e]: a negative end counts
    from the end of the array. *)
Definition slice_to {A : Type} (e : Z) (l : list A) : list A :=
  if (e <? 0)%Z
  then firstn (Z.to_nat (Z.of_nat (length l) + e)) l
  else firstn (Z.to_nat e) l.

(** Template-literal rendering of a non-negative integer. *)
Definition decimal (n : nat) : string :=
  NilZero.string_of_uint (Nat.to_uint n).

Definition decimalZ (n : Z) : string :=
  NilZero.string_of_int (Z.to_int n).

(** ** services/github.ts: limits, tables and predicates *)

Definition MAX_FILES : nat := 1000.
Definition MAX_TOTAL_SIZE_MB : Z := 100.
Definition MAX_TOTAL_SIZE_BYTES : Z := MAX_TOTAL_SIZE_MB * 1024 * 1024.
Definition MAX_FILE_SIZE_BYTES : Z := 1024 * 1024.

Definition SUPPORTED_EXTENSIONS : list string :=
  [ ".java"; ".xml"; ".gradle"; ".properties"; ".sql"; ".jsp";
    ".yaml"; ".yml"; ".json"; ".ts"; ".tsx"; ".js"; ".css"; ".html"; ".md";
    ".py"; ".cpp"; ".c"; ".h"; ".php"; ".rb"; ".go"; ".rs"; ".kt"; ".scala" ].

(** The shapes of regular expression that occur in [IGNORED_PATTERNS]. *)
Inductive Pattern : Type :=
| Anywhere (lit : string)            (* /lit/ and /lit.*/          *)
| AtStart (lit : string)             (* /^lit/                     *)
| AtEnd (lits : list string).        (* /(lit1|lit2|...)$/         *)

Definition test (p : Pattern) (s : string) : bool :=
  match p with
  | Anywhere lit => includes lit s
  | AtStart lit => startsWith lit s
  | AtEnd lits => existsb (fun lit => endsWith lit s) lits
  end.

Definition IGNORED_PATTERNS : list Pattern :=
  [ Anywhere "node_modules";              (* /node_modules/         *)
    Anywhere ".env";                      (* /\.env.*/              *)
    Anywhere ".env.production";           (* /\.env\.production/    *)
    Anywhere ".env.development";          (* /\.env\.development/   *)
    AtEnd [".log"; ".tmp"; ".cache"];     (* /\.(log|tmp|cache)$/   *)
    AtStart "node_modules/";              (* /^node_modules\//      *)
    AtStart ".git/";                      (* /^\.git\//             *)
    AtStart ".vscode/";                   (* /^\.vscode\//          *)
    AtStart "target/";                    (* /^target\//            *)
    AtStart "build/";                     (* /^build\//             *)
    AtStart "dist/";                      (* /^dist\//              *)
    AtStart ".next/";                     (* /^\.next\//            *)
    AtStart ".nuxt/" ].                   (* /^\.nuxt\//            *)

Inductive ItemType : Type := blob | tree.

Definition ItemType_eqb (a b : ItemType) : bool :=
  match a, b with
  | blob, blob | tree, tree => true
  | _, _ => false
  end.

Record GitHubTreeItem : Type := mkItem {
  item_path : string;
  item_mode : string;
  item_type : ItemType;
  item_sha : string;
  item_size : option Z;
  item_url : string
}.

Definition shouldIgnoreFile (path : string) : bool :=
  existsb (fun pattern => test pattern path) IGNORED_PATTERNS.

Definition isSupportedFile (filename : string) : bool :=
  let ext := substring_from (lastIndexOf "." filename) (toLowerCase filename) in
  existsb (String.eqb ext) SUPPORTED_EXTENSIONS.

(** [item.size || 0]. *)
Definition size_or_0 (item : GitHubTreeItem) : Z :=
  match item_size item with
  | Some n => n
  | None => 0%Z
  end.

Definition languageMap : list (string * string) :=
  [ (".js", "javascript"); (".jsx", "javascript"); (".ts", "typescript");
    (".tsx", "typescript"); (".py", "python"); (".java", "java");
    (".cpp", "cpp"); (".c", "c"); (".h", "c"); (".php", "php");
    (".rb", "ruby"); (".go", "go"); (".rs", "rust"); (".kt", "kotlin");
    (".scala", "scala"); (".xml", "xml"); (".json", "json");
    (".yaml", "yaml"); (".yml", "yaml"); (".md", "markdown");
    (".html", "html"); (".css", "css"); (".sql", "sql");
    (".gradle", "gradle"); (".properties", "properties"); (".jsp", "jsp") ].

Fixpoint lookup (key : string) (m : list (string * string)) : option string :=
  match m with
  | [] => None
  | (k, v) :: r => if String.eqb k key then Some v else lookup key r
  end.

Definition detectLanguage (filename : string) : option string :=
  let ext := substring_from (lastIndexOf "." filename) (toLowerCase filename) in
  lookup ext languageMap.

(** The filter chain shared by both entry points. *)
Definition allBlobs (listing : list GitHubTreeItem) : list GitHubTreeItem :=
  filter (fun item => ItemType_eqb (item_type item) blob) listing.

Definition relevantItems (listing : list GitHubTreeItem) : list GitHubTreeItem :=
  filter (fun item => (size_or_0 item <? MAX_FILE_SIZE_BYTES)%Z)
    (filter (fun item => isSupportedFile (item_path item))
       (filter (fun item => negb (shouldIgnoreFile (item_path item)))
          (allBlobs listing))).

(** [relevantItems.slice(0, MAX_FILES)] of [fetchGithubRepo]. *)
Definition limitedItems (listing : list GitHubTreeItem) : list GitHubTreeItem :=
  firstn MAX_FILES (relevantItems listing).

(** [relevantItems.slice(0, Math.min(maxFiles, MAX_FILES))] of
    [analyzeGitHubRepo]. *)
Definition limitedItems_analyze (maxFiles : Z) (listing : list GitHubTreeItem)
  : list GitHubTreeItem :=
  slice_to (Z.min maxFiles (Z.of_nat MAX_FILES)) (relevantItems listing).

(** ** services/github.ts: responses, errors and results *)

(** What the code reads of a [fetch] response to the repository endpoint. *)
Record RepoResponse : Type := mkRepoResponse {
  repo_status : Z;
  repo_statusText : string;
  repo_ratelimit_remaining : option string;
  repo_private : bool;
  repo_default_branch : option string
}.

(** What the code reads of a [fetch] response to the recursive tree endpoint:
    [tree_entries] is [None] when the body has no [tree] member. *)
Record TreeResponse : Type := mkTreeResponse {
  tree_status : Z;
  tree_statusText : string;
  tree_ratelimit_remaining : option string;
  tree_truncated : bool;
  tree_entries : option (list GitHubTreeItem)
}.

(** [Response.ok]. *)
Definition status_ok (status : Z) : bool :=
  ((200 <=? status) && (status <=? 299))%Z.

(** Truthiness of an optional string. *)
Definition truthy (s : option string) : bool :=
  match s with
  | Some v => negb (String.eqb v "")
  | None => false
  end.

(** One constructor per [throw] of the two entry points, and one for the
    [TypeError] that [analyzeGitHubRepo] raises when it filters a tree
    response that has no [tree] member (the text is the engine's). *)
Inductive ImportError : Type :=
| InvalidRepositoryFormat
| RepositoryNotFound (owner repo : string)
| Unauthorized
| RateLimitedUnauthenticated
| AccessDeniedPrivate
| GitHubApiError (statusText : string)
| PrivateWithoutToken (owner repo : string)
| ReferenceNotFound (targetRef : string)
| RepositoryEmptyConflict
| RateLimitedTree
| AccessDeniedTree
| TreeFetchFailed (status : Z) (statusText : string)
| RepositoryEmpty (owner repo : string)
| NoMatchingFiles (targetRef : string)
| BranchNotFound (targetRef : string)
| RepositoryIsEmpty
| TreeMemberMissing.

Definition message (e : ImportError) : string :=
  match e with
  | InvalidRepositoryFormat =>
      "Invalid repository format. Use 'owner/repo' or full URL."
  | RepositoryNotFound owner repo =>
      "Repository not found: " ++ owner ++ "/" ++ repo
  | Unauthorized => "Unauthorized. Check your token."
  | RateLimitedUnauthenticated =>
      "GitHub API rate limit exceeded. Unauthenticated requests are limited to 60/hour. Add a GitHub token in Settings for 5000/hour."
  | AccessDeniedPrivate => "Access denied. Repository may be private."
  | GitHubApiError statusText => "GitHub API Error: " ++ statusText
  | PrivateWithoutToken owner repo =>
      "Repository " ++ owner ++ "/" ++ repo ++
      " is private. Please provide a GitHub token in Settings to access private repositories."
  | ReferenceNotFound targetRef =>
      "Branch or tag '" ++ targetRef ++ "' not found."
  | RepositoryEmptyConflict => "Repository is empty or uninitialized."
  | RateLimitedTree =>
      "GitHub API rate limit exceeded. Please try again later or add a GitHub token."
  | AccessDeniedTree =>
      "Access denied. Repository may be private or you may not have permission to access it."
  | TreeFetchFailed status statusText =>
      "Failed to fetch file tree: " ++ decimalZ status ++ " " ++ statusText
  | RepositoryEmpty owner repo =>
      "Repository " ++ owner ++ "/" ++ repo ++
      " appears to be empty or has no commits."
  | NoMatchingFiles targetRef =>
      "No matching source files found in '" ++ targetRef ++ "'. (Checked: " ++
      join ", " SUPPORTED_EXTENSIONS ++ ")"
  | BranchNotFound targetRef => "Branch '" ++ targetRef ++ "' not found."
  | RepositoryIsEmpty => "Repository is empty."
  | TreeMemberMissing =>
      "Cannot read properties of undefined (reading 'filter')"
  end.

(** The errors raised because an HTTP response was not [ok]. *)
Definition is_network_error (e : ImportError) : bool :=
  match e with
  | RepositoryNotFound _ _ | Unauthorized | RateLimitedUnauthenticated
  | AccessDeniedPrivate | GitHubApiError _ | ReferenceNotFound _
  | RepositoryEmptyConflict | RateLimitedTree | AccessDeniedTree
  | TreeFetchFailed _ _ | BranchNotFound _ | RepositoryIsEmpty => true
  | InvalidRepositoryFormat | PrivateWithoutToken _ _ | RepositoryEmpty _ _
  | NoMatchingFiles _ | TreeMemberMissing => false
  end.

Section Ingestion.

(** The decoded text of a blob and its [length]. *)
Variable Content : Type.
Variable content_length : Content -> Z.

Record ProjectFile : Type := mkProjectFile {
  path : string;
  content : Content;
  language : option string;
  size : Z
}.

Record RepoImportResult : Type := mkRepoImportResult {
  files : list ProjectFile;
  summary : string;
  truncated : bool
}.

(** The result of [analyzeGitHubRepo]. *)
Record CodebaseAnalysis : Type := mkCodebaseAnalysis {
  analysis_files : list ProjectFile;
  totalSize : Z;
  supportedFiles : nat;
  ignoredFiles : list string
}.

(** The network as [fetchGithubRepo] sees it: [getFileContent p k] is the
    outcome of the [k]-th call (counted from [0]) of
    [githubService.getFileContent] for path [p], [None] when it throws. *)
Record Network : Type := mkNetwork {
  repoRes : RepoResponse;
  treeRes : TreeResponse;
  getFileContent : string -> nat -> option Content
}.

(** *** fetchFileWithRetry *)

(** The loop [for (attempt = 0; attempt < retries; attempt++)], entered at
    [attempt] with [remaining = retries - attempt] iterations to go. Returns
    the file or [null] together with the delays, in milliseconds, slept
    between the attempts. *)
Fixpoint retry_loop (get : nat -> option Content) (item : GitHubTreeItem)
    (retries remaining attempt : nat) : option ProjectFile * list Z :=
  match remaining with
  | O => (None, [])
  | S remaining' =>
      match get attempt with
      | Some c =>
          (Some {| path := item_path item;
                   content := c;
                   language := detectLanguage (item_path item);
                   size := content_length c |}, [])
      | None =>
          if Nat.eqb attempt (retries - 1) then (None, [])
          else
            let '(r, delays) :=
              retry_loop get item retries remaining' (S attempt) in
            (r, (2 ^ Z.of_nat attempt * 1000)%Z :: delays)
      end
  end.

Definition fetchFileWithRetry (net : Network) (item : GitHubTreeItem)
    (retries : nat) : option ProjectFile * list Z :=
  retry_loop (getFileContent net (item_path item)) item retries retries 0.

(** *** The batch loop of fetchGithubRepo *)

Definition BATCH_SIZE : nat := 3.

(** The variables the loop updates; [backoff] collects, per item, the delays
    of its retries and [pauses] the delays inserted between batches. *)
Record LoopState : Type := mkLoopState {
  st_files : list ProjectFile;
  downloadedCount : nat;
  failedCount : nat;
  backoff : list (string * list Z);
  pauses : list Z
}.

Definition initial_state : LoopState :=
  {| st_files := []; downloadedCount := 0; failedCount := 0;
     backoff := []; pauses := [] |}.

(** The body of [results.forEach]. *)
Definition commit (st : LoopState) (r : string * (option ProjectFile * list Z))
  : LoopState :=
  let '(p, (res, delays)) := r in
  match res with
  | Some f =>
      {| st_files := st_files st ++ [f];
         downloadedCount := S (downloadedCount st);
         failedCount := failedCount st;
         backoff := backoff st ++ [(p, delays)];
         pauses := pauses st |}
  | None =>
      {| st_files := st_files st;
         downloadedCount := downloadedCount st;
         failedCount := S (failedCount st);
         backoff := backoff st ++ [(p, delays)];
         pauses := pauses st |}
  end.

Definition pause (ms : Z) (st : LoopState) : LoopState :=
  {| st_files := st_files st; downloadedCount := downloadedCount st;
     failedCount := failedCount st; backoff := backoff st;
     pauses := pauses st ++ [ms] |}.

(** [Promise.all(batch.map(item => fetchFileWithRetry(item)))]: the results
    come back in the order of the batch, whatever the completion order. *)
Definition fetch_batch (net : Network) (batch : list GitHubTreeItem)
  : list (string * (option ProjectFile * list Z)) :=
  map (fun item => (item_path item, fetchFileWithRetry net item 3)) batch.

Equations? download_batches (net : Network) (items : list GitHubTreeItem)
    (i : nat) (st : LoopState) : LoopState by wf (length items - i) lt :=
  download_batches net items i st with lt_dec i (length items) := {
    | left _ =>
        let batch := slice i (i + BATCH_SIZE) items in
        let results := fetch_batch net batch in
        let st1 := fold_left commit results st in
        let st2 := if Nat.ltb (i + BATCH_SIZE) (length items)
                   then pause 200 st1 else st1 in
        download_batches net items (i + BATCH_SIZE) st2;
    | right _ => st }.
Proof. unfold BATCH_SIZE. lia. Qed.

Definition skipped_note (isTruncated : bool) : string :=
  if isTruncated then "(Some files skipped due to size/limits)" else "".

Definition make_summary (nfiles failed : nat) (targetRef : string)
    (isTruncated : bool) : string :=
  if Nat.ltb 0 failed
  then "Imported " ++ decimal nfiles ++ " files from " ++ targetRef ++
       " (" ++ decimal failed ++ " failed). " ++ skipped_note isTruncated
  else "Imported " ++ decimal nfiles ++ " files from " ++ targetRef ++
       ". " ++ skipped_note isTruncated.

(** *** fetchGithubRepo, stage by stage *)

(** 1. Parse the repository string. *)
Definition parse_repo (repoString : string) : ImportError + (string * string) :=
  let clean := strip_trailing_slash (remove_first "https://github.com/" repoString) in
  match split "/" clean with
  | owner :: repo :: _ => inr (owner, repo)
  | _ => inl InvalidRepositoryFormat
  end.

(** 2. Determine the branch or tag. *)
Definition resolve_ref (owner repo branch : string) (token : option string)
    (res : RepoResponse) : ImportError + string :=
  if negb (String.eqb branch "") then inr branch
  else if negb (status_ok (repo_status res)) then
    if (repo_status res =? 404)%Z then inl (RepositoryNotFound owner repo)
    else if (repo_status res =? 401)%Z then inl Unauthorized
    else if (repo_status res =? 403)%Z then
      match repo_ratelimit_remaining res with
      | Some "0" => inl RateLimitedUnauthenticated
      | _ => inl AccessDeniedPrivate
      end
    else inl (GitHubApiError (repo_statusText res))
  else if (repo_private res && negb (truthy token))%bool
  then inl (PrivateWithoutToken owner repo)
  else if truthy (repo_default_branch res)
  then match repo_default_branch res with
       | Some b => inr b
       | None => inr "main"
       end
  else inr "main".

(** 3. Fetch the recursive tree. *)
Definition fetch_tree (owner repo targetRef : string) (res : TreeResponse)
  : ImportError + list GitHubTreeItem :=
  if negb (status_ok (tree_status res)) then
    if (tree_status res =? 404)%Z then inl (ReferenceNotFound targetRef)
    else if (tree_status res =? 409)%Z then inl RepositoryEmptyConflict
    else if (tree_status res =? 403)%Z then
      match tree_ratelimit_remaining res with
      | Some "0" => inl RateLimitedTree
      | _ => inl AccessDeniedTree
      end
    else inl (TreeFetchFailed (tree_status res) (tree_statusText res))
  else
    match tree_entries res with
    | None | Some [] => inl (RepositoryEmpty owner repo)
    | Some listing => inr listing
    end.

(** [isTruncated]. *)
Definition isTruncated (apiTruncated : bool) (listing : list GitHubTreeItem)
  : bool :=
  apiTruncated ||
  Nat.ltb (length (limitedItems listing)) (length (relevantItems listing)).

(** 4 and 5. Filter, download, aggregate. Returns the final loop state next
    to the value the function returns. *)
Definition import_listing (net : Network) (targetRef : string)
    (listing : list GitHubTreeItem)
  : ImportError + (LoopState * RepoImportResult) :=
  let limited := limitedItems listing in
  let trunc := isTruncated (tree_truncated (treeRes net)) listing in
  match limited with
  | [] => inl (NoMatchingFiles targetRef)
  | _ :: _ =>
      let st := download_batches net limited 0 initial_state in
      inr (st,
           {| files := st_files st;
              truncated := trunc || Nat.ltb 0 (failedCount st);
              summary := make_summary (length (st_files st)) (failedCount st)
                           targetRef trunc |})
  end.

Definition fetchGithubRepo_run (repoString branch : string)
    (token : option string) (net : Network)
  : ImportError + (LoopState * RepoImportResult) :=
  match parse_repo repoString with
  | inl e => inl e
  | inr (owner, repo) =>
      match resolve_ref owner repo branch token (repoRes net) with
      | inl e => inl e
      | inr targetRef =>
          match fetch_tree owner repo targetRef (treeRes net) with
          | inl e => inl e
          | inr listing => import_listing net targetRef listing
          end
      end
  end.

Definition fetchGithubRepo (repoString branch : string)
    (token : option string) (net : Network) : ImportError + RepoImportResult :=
  match fetchGithubRepo_run repoString branch token net with
  | inl e => inl e
  | inr (_, result) => inr result
  end.

(** *** GitHubService.analyzeGitHubRepo, from the tree request on *)

Definition ANALYZE_BATCH_SIZE : nat := 5.

Record AnalyzeState : Type := mkAnalyzeState {
  an_files : list ProjectFile;
  an_totalSize : Z;
  an_supportedFiles : nat;
  an_downloadedCount : nat
}.

(** One element of [batch.map(async item => ...)]. [blobs item] is the decoded
    content of the blob response, [None] when the request fails, the response
    is not [ok] or the body does not decode. Every element of a batch sees
    the [totalSize] the batch started with: the variable is only assigned in
    [results.forEach], after [Promise.all] has settled. *)
Definition fetch_blob (blobs : GitHubTreeItem -> option Content)
    (totalSize : Z) (item : GitHubTreeItem) : option ProjectFile :=
  if (MAX_TOTAL_SIZE_BYTES <=? totalSize)%Z then None
  else match blobs item with
       | None => None
       | Some c =>
           if (MAX_TOTAL_SIZE_BYTES <? totalSize + content_length c)%Z
           then None
           else Some {| path := item_path item;
                        content := c;
                        language := detectLanguage (item_path item);
                        size := content_length c |}
       end.

Definition commit_blob (st : AnalyzeState) (result : option ProjectFile)
  : AnalyzeState :=
  match result with
  | Some f =>
      {| an_files := an_files st ++ [f];
         an_totalSize := (an_totalSize st + content_length (content f))%Z;
         an_supportedFiles := S (an_supportedFiles st);
         an_downloadedCount := S (an_downloadedCount st) |}
  | None => st
  end.

Equations? analyze_batches (blobs : GitHubTreeItem -> option Content)
    (items : list GitHubTreeItem) (i : nat) (st : AnalyzeState)
  : AnalyzeState by wf (length items - i) lt :=
  analyze_batches blobs items i st with lt_dec i (length items) := {
    | left _ =>
        if (MAX_TOTAL_SIZE_BYTES <=? an_totalSize st)%Z then st
        else
          let batch := slice i (i + ANALYZE_BATCH_SIZE) items in
          let results := map (fetch_blob blobs (an_totalSize st)) batch in
          analyze_batches blobs items (i + ANALYZE_BATCH_SIZE)
            (fold_left commit_blob results st);
    | right _ => st }.
Proof. unfold ANALYZE_BATCH_SIZE. lia. Qed.

Definition analyze_tree (targetRef : string) (res : TreeResponse)
  : ImportError + list GitHubTreeItem :=
  if negb (status_ok (tree_status res)) then
    if (tree_status res =? 404)%Z then inl (BranchNotFound targetRef)
    else if (tree_status res =? 409)%Z then inl RepositoryIsEmpty
    else inl (TreeFetchFailed (tree_status res) (tree_statusText res))
  else
    match tree_entries res with
    | Some listing => inr listing
    | None => inl TreeMemberMissing
    end.

Definition analyzeGitHubRepo (targetRef : string) (maxFiles : Z)
    (res : TreeResponse) (blobs : GitHubTreeItem -> option Content)
  : ImportError + CodebaseAnalysis :=
  match analyze_tree targetRef res with
  | inl e => inl e
  | inr listing =>
      match limitedItems_analyze maxFiles listing with
      | [] => inl (NoMatchingFiles targetRef)
      | limited =>
          let st := analyze_batches blobs limited 0
                      {| an_files := []; an_totalSize := 0;
                         an_supportedFiles := 0; an_downloadedCount := 0 |} in
          inr {| analysis_files := an_files st;
                 totalSize := an_totalSize st;
                 supportedFiles := an_supportedFiles st;
                 ignoredFiles := [] |}
      end
  end.

End Ingestion.

Arguments path {Content}.
Arguments content {Content}.
Arguments language {Content}.
Arguments size {Content}.
Arguments files {Content}.
Arguments summary {Content}.
Arguments truncated {Content}.
Arguments analysis_files {Content}.
Arguments totalSize {Content}.
Arguments supportedFiles {Content}.
Arguments repoRes {Content}.
Arguments treeRes {Content}.
Arguments getFileContent {Content}.
Arguments st_files {Content}.
Arguments downloadedCount {Content}.
Arguments failedCount {Content}.
Arguments backoff {Content}.
Arguments pauses {Content}.
Arguments an_files {Content}.
Arguments an_totalSize {Content}.
Arguments retry_loop {Content}.
Arguments fetchFileWithRetry {Content}.
Arguments initial_state {Content}.
Arguments commit {Content}.
Arguments pause {Content}.
Arguments fetch_batch {Content}.
Arguments download_batches {Content}.
Arguments import_listing {Content}.
Arguments fetchGithubRepo_run {Content}.
Arguments fetchGithubRepo {Content}.
Arguments fetch_blob {Content}.
Arguments commit_blob {Content}.
Arguments analyze_batches {Content}.
Arguments analyzeGitHubRepo {Content}.

(** ** utils/fileTree.ts *)

(** [MutableFileTreeNode] / [FileTreeNode]: the builder makes nodes of two
    shapes, told apart by [type]. A file node carries [size], [language] and
    [isSupported]; a directory node carries [children]. *)
#[local] Set Warnings "-register-all".

Inductive FileTreeNode : Type :=
| FileNode (name path : string) (size : Z) (language : option string)
    (isSupported : bool)
| DirectoryNode (name path : string) (children : list FileTreeNode).

Definition node_name (node : FileTreeNode) : string :=
  match node with
  | FileNode name _ _ _ _ => name
  | DirectoryNode name _ _ => name
  end.

Definition is_directory (node : FileTreeNode) : bool :=
  match node with
  | FileNode _ _ _ _ _ => false
  | DirectoryNode _ _ _ => true
  end.

(** [currentLevel.find(node => node.name === part)]. *)
Definition find_node (part : string) (currentLevel : list FileTreeNode)
  : option FileTreeNode :=
  find (fun node => String.eqb (node_name node) part) currentLevel.

(** The effect, seen from [currentLevel], of running [body] on the array
    [existingNode.children] of the first node called [part]: the array is
    shared with the node, so the node's children change in place. *)
Fixpoint with_children (part : string)
    (body : list FileTreeNode -> list FileTreeNode)
    (currentLevel : list FileTreeNode) : list FileTreeNode :=
  match currentLevel with
  | [] => []
  | node :: others =>
      if String.eqb (node_name node) part then
        match node with
        | DirectoryNode name p children =>
            DirectoryNode name p (body children) :: others
        | FileNode _ _ _ _ _ => node :: others
        end
      else node :: with_children part body others
  end.

(** Stable sorting with a comparator, as [Array.prototype.sort] is specified:
    an element goes in front of the first element it does not exceed. *)
Fixpoint insert {A : Type} (cmp : A -> A -> Z) (x : A) (l : list A) : list A :=
  match l with
  | [] => [x]
  | y :: r => if (cmp x y <=? 0)%Z then x :: y :: r else y :: insert cmp x r
  end.

Fixpoint sort {A : Type} (cmp : A -> A -> Z) (l : list A) : list A :=
  match l with
  | [] => []
  | x :: r => insert cmp x (sort cmp r)
  end.

Section FileTree.

Variable Content : Type.

(** [a.localeCompare(b)]: the collation of the host, negative, zero or
    positive. *)
Variable localeCompare : string -> string -> Z.

Record CodebaseFile : Type := mkCodebaseFile {
  file_path : string;
  file_content : Content;
  file_size : Z;
  file_language : option string
}.

(** The inner loop [for (let i = 0; i < parts.length; i++)] entered at index
    [i], where [rest] is [parts.slice(i)]. The result is [currentLevel] after
    the loop has run to its end. *)
Fixpoint place (file : CodebaseFile) (parts : list string) (i : nat)
    (rest : list string) (currentLevel : list FileTreeNode)
  : list FileTreeNode :=
  match rest with
  | [] => currentLevel
  | part :: rest' =>
      let isLastPart := match rest' with [] => true | _ :: _ => false end in
      match find_node part currentLevel with
      | None =>
          if isLastPart then
            currentLevel ++
              [FileNode part (file_path file) (file_size file)
                 (file_language file) true]
          else
            currentLevel ++
              [DirectoryNode part (join "/" (firstn (i + 1) parts))
                 (place file parts (S i) rest' [])]
      | Some existingNode =>
          if isLastPart then currentLevel
          else if is_directory existingNode
          then with_children part (place file parts (S i) rest') currentLevel
          else place file parts (S i) rest' currentLevel
      end
  end.

(** One iteration of [for (const file of files)]. *)
Definition add_file (root : list FileTreeNode) (file : CodebaseFile)
  : list FileTreeNode :=
  let parts := split "/" (file_path file) in
  place file parts 0 parts root.

(** The comparator handed to [sort]. *)
Definition compare_nodes (a b : FileTreeNode) : Z :=
  if negb (Bool.eqb (is_directory a) (is_directory b))
  then (if is_directory a then (-1)%Z else 1%Z)
  else localeCompare (node_name a) (node_name b).

(** [sortNodes], by structural recursion: every node has its children sorted,
    then the level is sorted. [sortNodes_unfold] below shows that this is the
    function of the source, which sorts the level first and then maps over
    it. *)
Fixpoint sortNode (node : FileTreeNode) : FileTreeNode :=
  match node with
  | DirectoryNode name p children =>
      DirectoryNode name p (sort compare_nodes (map sortNode children))
  | FileNode _ _ _ _ _ => node
  end.

Definition sortNodes (nodes : list FileTreeNode) : list FileTreeNode :=
  sort compare_nodes (map sortNode nodes).

Definition buildFileTree (files : list CodebaseFile) : list FileTreeNode :=
  sortNodes (fold_left add_file files []).

End FileTree.

Arguments file_path {Content}.
Arguments file_content {Content}.
Arguments file_size {Content}.
Arguments file_language {Content}.
Arguments place {Content}.
Arguments add_file {Content}.
Arguments buildFileTree {Content}.

(** Some file below the node, the node itself included. *)
Fixpoint has_file (node : FileTreeNode) : bool :=
  match node with
  | FileNode _ _ _ _ _ => true
  | DirectoryNode _ _ children => existsb has_file children
  end.

(** Every directory of the tree, the node itself included, has a file
    somewhere below it. *)
Fixpoint directories_populated (node : FileTreeNode) : bool :=
  match node with
  | FileNode _ _ _ _ _ => true
  | DirectoryNode _ _ children =>
      existsb has_file children && forallb directories_populated children
  end.

(** ** The vocabulary of the specification *)

(** The extension of a path in the words of the specification: the text
    after the last ["."], if there is one. *)
Fixpoint after_last_dot (s : string) : option string :=
  match s with
  | EmptyString => None
  | String c r =>
      match after_last_dot r with
      | Some e => Some e
      | None => if Ascii.eqb c "." then Some r else None
      end
  end.

(** The supported set, as extensions proper. *)
Definition supported_set : list string :=
  [ "java"; "xml"; "gradle"; "properties"; "sql"; "jsp";
    "yaml"; "yml"; "json"; "ts"; "tsx"; "js"; "css"; "html"; "md";
    "py"; "cpp"; "c"; "h"; "php"; "rb"; "go"; "rs"; "kt"; "scala" ].

Definition extension_supported (p : string) : bool :=
  match after_last_dot p with
  | Some e => existsb (String.eqb (toLowerCase e)) supported_set
  | None => false
  end.

Definition size_at_or_above (cap : Z) (item : GitHubTreeItem) : bool :=
  match item_size item with
  | Some n => (cap <=? n)%Z
  | None => false
  end.

(** The five steps of the filter and budget planner, in their order. *)
Definition planner (maxFiles : nat) (cap : Z) (listing : list GitHubTreeItem)
  : list GitHubTreeItem :=
  let step1 := filter (fun e => negb (ItemType_eqb (item_type e) tree)) listing in
  let step2 := filter (fun e => negb (shouldIgnoreFile (item_path e))) step1 in
  let step3 := filter (fun e => extension_supported (item_path e)) step2 in
  let step4 := filter (fun e => negb (size_at_or_above cap e)) step3 in
  firstn maxFiles step4.

(** [l1] is [l2] with some elements left out. *)
Inductive subsequence {A : Type} : list A -> list A -> Prop :=
| subsequence_nil : subsequence [] []
| subsequence_keep x l1 l2 :
    subsequence l1 l2 -> subsequence (x :: l1) (x :: l2)
| subsequence_drop x l1 l2 :
    subsequence l1 l2 -> subsequence l1 (x :: l2).

Section IngestionVocabulary.

Variable Content : Type.
Variable content_length : Content -> Z.

Definition sum_sizes (fs : list (ProjectFile Content)) : Z :=
  fold_right (fun f acc => (size f + acc)%Z) 0%Z fs.

Definition is_none {A : Type} (o : option A) : bool :=
  match o with
  | Some _ => false
  | None => true
  end.

(** The item fails every one of the three attempts. *)
Definition fails_all_attempts (net : Network Content) (item : GitHubTreeItem)
  : bool :=
  forallb (fun k => is_none (getFileContent net (item_path item) k))
    [0; 1; 2].

(** The listing of the tree response. *)
Definition listing_of (net : Network Content) : list GitHubTreeItem :=
  match tree_entries (treeRes net) with
  | Some listing => listing
  | None => []
  end.

(** The candidates of a run: the filtered and capped listing. *)
Definition candidates (net : Network Content) : list GitHubTreeItem :=
  limitedItems (listing_of net).

(** What one candidate contributes to the result: its file when some attempt
    succeeds, nothing when all fail. *)
Definition fetched (net : Network Content) (item : GitHubTreeItem)
  : list (ProjectFile Content) :=
  match fst (fetchFileWithRetry content_length net item 3) with
  | Some f => [f]
  | None => []
  end.

(** The loop state without the record of the pauses. *)
Definition outcome (st : LoopState Content)
  : list (ProjectFile Content) * nat * nat * list (string * list Z) :=
  (st_files st, downloadedCount st, failedCount st, backoff st).

(** The causes of truncation the specification lists: the filtered listing
    exceeded the file limit, the API truncated the listing, or the byte
    budget was used up while candidates were left. *)
Definition listed_truncation_cause (net : Network Content)
    (result : RepoImportResult Content) : Prop :=
  MAX_FILES < length (relevantItems (listing_of net))
  \/ tree_truncated (treeRes net) = true
  \/ ((MAX_TOTAL_SIZE_BYTES <= sum_sizes (files result))%Z
      /\ length (files result) < length (candidates net)).

End IngestionVocabulary.

Arguments sum_sizes {Content}.
Arguments fails_all_attempts {Content}.
Arguments listing_of {Content}.
Arguments candidates {Content}.
Arguments fetched {Content}.
Arguments outcome {Content}.
Arguments listed_truncation_cause {Content}.

(** ** Sample inputs *)

Definition sample_blob (p : string) (n : Z) : GitHubTreeItem :=
  {| item_path := p; item_mode := "100644"; item_type := blob;
     item_sha := ""; item_size := Some n; item_url := "" |}.

Definition sample_repo : RepoResponse :=
  {| repo_status := 200; repo_statusText := "OK";
     repo_ratelimit_remaining := None; repo_private := false;
     repo_default_branch := Some "main" |}.

Definition sample_tree (listing : list GitHubTreeItem) : TreeResponse :=
  {| tree_status := 200; tree_statusText := "OK";
     tree_ratelimit_remaining := None; tree_truncated := false;
     tree_entries := Some listing |}.

Definition text_length (s : string) : Z := Z.of_nat (String.length s).

(** A network on which the listed paths fail at every attempt and every
    other path yields a ten-character text at once. *)
Definition sample_network (listing : list GitHubTreeItem)
    (failing : list string) : Network string :=
  {| repoRes := sample_repo;
     treeRes := sample_tree listing;
     getFileContent := fun p _ =>
       if existsb (String.eqb p) failing then None else Some "0123456789" |}.

(** Ten candidates, [f0.ts] to [f9.ts]. *)
Definition ten_candidates : list GitHubTreeItem :=
  map (fun k => sample_blob ("f" ++ decimal k ++ ".ts") 10) (seq 0 10).

(** A repository of a lock file and an image. *)
Definition lock_and_png : list GitHubTreeItem :=
  [ sample_blob "yarn.lock" 10; sample_blob "logo.png" 10 ].

(** A listing for [analyzeGitHubRepo]: a hundred sources one byte short of
    the per-file cap, then five sources of a hundred bytes. Here a content is
    represented by its length, and every blob has its reported size. *)
Definition overrun_listing : list GitHubTreeItem :=
  (map (fun k => sample_blob ("big" ++ decimal k ++ ".ts") 1048575) (seq 0 100)
   ++ map (fun k => sample_blob ("small" ++ decimal k ++ ".ts") 100) (seq 0 5))%list.

Definition overrun_blobs (item : GitHubTreeItem) : option Z := item_size item.

(** A network for [fetchGithubRepo] with 101 sources of 1048575 bytes, all of
    which download at the first attempt; again a content is represented by
    its length. *)
Definition heavy_network : Network Z :=
  {| repoRes := sample_repo;
     treeRes :=
       sample_tree
         (map (fun k => sample_blob ("big" ++ decimal k ++ ".ts") 1048575)
            (seq 0 101));
     getFileContent := fun _ _ => Some 1048575%Z |}.

(** The scenario of the specification: ten candidates, two of which fail
    all their attempts. *)
Definition two_failures : Network string :=
  sample_network ten_candidates ["f3.ts"; "f7.ts"].

Definition two_failures_outcome : LoopState string * RepoImportResult string :=
  Eval vm_compute in
    match fetchGithubRepo_run text_length "octo/repo" "" None two_failures with
    | inr p => p
    | inl _ => (initial_state, {| files := []; summary := ""; truncated := false |})
    end.

(** Two candidates, the first of which fails all its attempts. *)
Definition one_failure : Network string :=
  sample_network [sample_blob "a.ts" 10; sample_blob "b.ts" 10] ["a.ts"].

Definition one_failure_outcome : LoopState string * RepoImportResult string :=
  Eval vm_compute in
    match fetchGithubRepo_run text_length "octo/repo" "" None one_failure with
    | inr p => p
    | inl _ => (initial_state, {| files := []; summary := ""; truncated := false |})
    end.

(** ** Vocabulary for the tree builder *)

(** No two siblings share a name, at any level. *)
Inductive unique_names : list FileTreeNode -> Prop :=
| unique_names_level (level : list FileTreeNode) :
    NoDup (map node_name level) ->
    (forall name p children,
        In (DirectoryNode name p children) level -> unique_names children) ->
    unique_names level.

(** [below n d]: [n] is a descendant of [d]. *)
Inductive below : FileTreeNode -> FileTreeNode -> Prop :=
| below_child n name p children :
    In n children -> below n (DirectoryNode name p children)
| below_deeper n m name p children :
    In m children -> below n m -> below n (DirectoryNode name p children).

(** [n] is a node of the forest [level], at any depth. *)
Definition in_tree (n : FileTreeNode) (level : list FileTreeNode) : Prop :=
  In n level \/ exists m, In m level /\ below n m.

(** Every directory of every level has a file somewhere below it. *)
Definition all_populated (level : list FileTreeNode) : bool :=
  forallb directories_populated level.

(** [a] is a strict prefix of [b]. *)
Fixpoint proper_prefix (a b : list string) : bool :=
  match a, b with
  | [], _ :: _ => true
  | x :: a', y :: b' => String.eqb x y && proper_prefix a' b'
  | _, _ => false
  end.

(** [a] and [b] differ at some position that both have. *)
Fixpoint diverge (a b : list string) : Prop :=
  match a, b with
  | x :: a', y :: b' => x <> y \/ diverge a' b'
  | _, _ => False
  end.

(** The remaining segments [rest] can be placed at [level] without meeting
    a file where a directory is needed or a node where the file goes. *)
Fixpoint compatible (rest : list string) (level : list FileTreeNode) : Prop :=
  match rest with
  | [] => True
  | part :: rest' =>
      match find_node part level with
      | None => True
      | Some (DirectoryNode _ _ children) =>
          rest' <> [] /\ compatible rest' children
      | Some (FileNode _ _ _ _ _) => False
      end
  end.

(** The code-unit order of strings as a comparator. *)
Definition code_unit_compare (a b : string) : Z :=
  match String.compare a b with
  | Lt => (-1)%Z
  | Eq => 0%Z
  | Gt => 1%Z
  end.

Section TreeVocabulary.

Variable Content : Type.
Variable localeCompare : string -> string -> Z.

(** The sort contract between two siblings: a directory comes before a
    file, and two nodes of one kind come in the order of their names. *)
Definition precedes (a b : FileTreeNode) : Prop :=
  match is_directory a, is_directory b with
  | true, false => True
  | false, true => False
  | _, _ => (localeCompare (node_name a) (node_name b) <= 0)%Z
  end.

(** The sort contract at every level of a tree. *)
Inductive sorted_tree : list FileTreeNode -> Prop :=
| sorted_tree_level (level : list FileTreeNode) :
    StronglySorted precedes level ->
    (forall name p children,
        In (DirectoryNode name p children) level -> sorted_tree children) ->
    sorted_tree level.

(** The node pushed for segment [part] when the level has none of that
    name: the file itself at the last segment, otherwise a directory that
    receives the remaining segments. *)
Definition new_node (file : CodebaseFile Content) (parts : list string)
    (i : nat) (part : string) (rest : list string) : FileTreeNode :=
  match rest with
  | [] => FileNode part (file_path file) (file_size file) (file_language file)
            true
  | _ :: _ => DirectoryNode part (join "/" (firstn (i + 1) parts))
                (place file parts (S i) rest [])
  end.

Definition parts_of (file : CodebaseFile Content) : list string :=
  split "/" (file_path file).

(** The paths are unique and none of them is a directory on the way to
    another. *)
Definition consistent_paths (files : list (CodebaseFile Content)) : Prop :=
  NoDup (map file_path files)
  /\ forall f g, In f files -> In g files ->
                 proper_prefix (parts_of f) (parts_of g) = false.

End TreeVocabulary.

Arguments new_node {Content}.
Arguments parts_of {Content}.
Arguments consistent_paths {Content}.

Definition sample_file (p : string) : CodebaseFile string :=
  {| file_path := p; file_content := ""; file_size := 0;
     file_language := None |}.

(** The example of the specification, and the same files in reverse. *)
Definition spec_files : list (CodebaseFile string) :=
  [sample_file "a/b.txt"; sample_file "a/c/d.txt"; sample_file "e.txt"].

Definition spec_files_reversed : list (CodebaseFile string) :=
  [sample_file "e.txt"; sample_file "a/c/d.txt"; sample_file "a/b.txt"].

(** Two unique paths of which the first is a directory of the second. *)
Definition clash_files : list (CodebaseFile string) :=
  [sample_file "a"; sample_file "a/b"].

Definition clash_files_swapped : list (CodebaseFile string) :=
  [sample_file "a/b"; sample_file "a"].

(** ** services/github.ts: the request layer of [GitHubService] *)

(** What [request] and [isRateLimited] read of a [fetch] response; [http_body]
    is what [response.json()] yields. *)
Record HttpResponse (T : Type) : Type := mkHttpResponse {
  http_status : Z;
  http_statusText : string;
  x_ratelimit_remaining : option string;
  retry_after : option string;
  x_ratelimit_reset : option string;
  http_body : T
}.

Arguments http_status {T}.
Arguments http_statusText {T}.
Arguments x_ratelimit_remaining {T}.
Arguments retry_after {T}.
Arguments x_ratelimit_reset {T}.
Arguments http_body {T}.

Definition isRateLimited {T : Type} (response : HttpResponse T) : bool :=
  match x_ratelimit_remaining response with
  | Some "0" => true
  | _ =>
      if (http_status response =? 403)%Z
      then truthy (retry_after response) || truthy (x_ratelimit_reset response)
      else false
  end.

(** One constructor per [throw] of [request]; the two sites that report an
    unexpected status use the same text. *)
Inductive RequestError : Type :=
| RateLimitExceededUnauthenticated
| RateLimitExceeded
| AuthenticationRequired
| AccessDenied
| NotFound
| ApiError (status : Z) (statusText : string).

Definition request_message (e : RequestError) : string :=
  match e with
  | RateLimitExceededUnauthenticated =>
      "GitHub API rate limit exceeded for unauthenticated requests (60/hour). Please add a GitHub token in Settings for higher limits (5000/hour)."
  | RateLimitExceeded =>
      "GitHub API rate limit exceeded. Please try again later."
  | AuthenticationRequired =>
      "Authentication required. This repository may be private - please provide a GitHub token in Settings."
  | AccessDenied =>
      "Access denied. This repository may be private - please provide a GitHub token in Settings."
  | NotFound =>
      "Repository not found. Please check the repository name and ensure it exists."
  | ApiError status statusText =>
      "GitHub API error: " ++ decimalZ status ++ " " ++ statusText
  end.

(** The second half of [request]: the fetch with [this.getHeaders()]. *)
Definition request_with_headers {T : Type} (response : HttpResponse T)
  : RequestError + T :=
  if negb (status_ok (http_status response)) then
    if isRateLimited response then inl RateLimitExceeded
    else if (http_status response =? 401)%Z then inl AuthenticationRequired
    else if (http_status response =? 403)%Z then inl AccessDenied
    else if (http_status response =? 404)%Z then inl NotFound
    else inl (ApiError (http_status response) (http_statusText response))
  else inr (http_body response).

(** [request(url, requireAuth)]: [token] is [this.token], [anonymous] the
    response to the fetch without credentials and [with_headers] the response
    to the fetch with [this.getHeaders()], each consulted only if the code
    makes that fetch. The [catch] around the first fetch rethrows whatever
    it caught. *)
Definition request {T : Type} (token : option string) (requireAuth : bool)
    (anonymous with_headers : HttpResponse T) : RequestError + T :=
  if (negb requireAuth && negb (truthy token))%bool then
    if status_ok (http_status anonymous) then inr (http_body anonymous)
    else if isRateLimited anonymous then inl RateLimitExceededUnauthenticated
    else if ((http_status anonymous =? 403) || (http_status anonymous =? 404))%Z
    then request_with_headers with_headers
    else inl (ApiError (http_status anonymous) (http_statusText anonymous))
  else request_with_headers with_headers.

(** The repository metadata [analyzeGitHubRepo] reads. *)
Record RepoData : Type := mkRepoData {
  default_branch : option string;
  private : bool
}.

(** [repoData.default_branch || 'main']. *)
Definition branch_or_main (data : RepoData) : string :=
  match default_branch data with
  | Some b => if String.eqb b "" then "main" else b
  | None => "main"
  end.

(** Step 1 of [analyzeGitHubRepo]: the reference and whether the repository
    is public. [first_anonymous] and [first_with_headers] answer the first
    call of [request], [second_with_headers] the call that requires
    authentication. The [branch] argument is overwritten on every path that
    does not throw. *)
Definition resolve_repository (token : option string) (branch : string)
    (first_anonymous first_with_headers second_with_headers
       : HttpResponse RepoData)
  : RequestError + (string * bool) :=
  match request token false first_anonymous first_with_headers with
  | inr repoData => inr (branch_or_main repoData, negb (private repoData))
  | inl error =>
      if includes "Authentication required" (request_message error) then
        match request token true second_with_headers second_with_headers with
        | inr repoData => inr (branch_or_main repoData, negb (private repoData))
        | inl error' => inl error'
        end
      else inl error
  end.

Definition thrown_message (e : RequestError + ImportError) : string :=
  match e with
  | inl e => request_message e
  | inr e => message e
  end.

Section Services.

Variable Content : Type.
Variable content_length : Content -> Z.

(** The network as [GitHubService.analyzeGitHubRepo] sees it. *)
Record AnalyzeNetwork : Type := mkAnalyzeNetwork {
  repo_anonymous : HttpResponse RepoData;
  repo_with_headers : HttpResponse RepoData;
  repo_authenticated : HttpResponse RepoData;
  analyze_treeRes : TreeResponse;
  analyze_blobs : GitHubTreeItem -> option Content
}.

(** [GitHubService.analyzeGitHubRepo], whole. *)
Definition GitHubService_analyzeGitHubRepo (token : option string)
    (owner repo branch : string) (maxFiles : Z) (net : AnalyzeNetwork)
  : (RequestError + ImportError) + CodebaseAnalysis Content :=
  match resolve_repository token branch (repo_anonymous net)
          (repo_with_headers net) (repo_authenticated net) with
  | inl e => inl (inl e)
  | inr (targetRef, _) =>
      match analyzeGitHubRepo content_length targetRef maxFiles
              (analyze_treeRes net) (analyze_blobs net) with
      | inl e => inl (inr e)
      | inr analysis => inr analysis
      end
  end.

(** ** services/codebase.ts: [CodebaseService.analyzeGitHubRepo] *)

Definition NO_SUPPORTED_CODE_FILES : string :=
  "No supported code files found in the repository. BugBuddy supports JavaScript, TypeScript, Java, Python, Go, C/C++, C#, PHP, Ruby, Rust, Swift, Kotlin, Scala, Haskell, Clojure, Elixir, Crystal, Dart, Nim, Zig, V, Julia, Solidity, GraphQL, Groovy, CoffeeScript, Elm, PureScript, Reason, F*, Assembly, Objective-C, HTML, CSS, SCSS, Sass, Less, Vue, Svelte, WebAssembly, and many other languages.".

(** The test of the [catch] block for errors that are thrown again as they
    are. *)
Definition rethrown_as_is (msg : string) : bool :=
  includes "GitHub API error" msg
  || includes "Invalid GitHub token" msg
  || includes "Repository or resource not found" msg
  || includes "Branch" msg
  || includes "Repository is empty" msg.

(** Errors are represented by their messages. *)
Definition CodebaseService_analyzeGitHubRepo (token : option string)
    (owner repo branch : string) (maxFiles : Z) (net : AnalyzeNetwork)
  : string + CodebaseAnalysis Content :=
  let attempt :=
    match GitHubService_analyzeGitHubRepo token owner repo branch maxFiles net
    with
    | inl e => inl (thrown_message e)
    | inr result =>
        if Nat.eqb (supportedFiles result) 0 then inl NO_SUPPORTED_CODE_FILES
        else inr result
    end in
  match attempt with
  | inr result => inr result
  | inl msg =>
      if rethrown_as_is msg then inl msg
      else inl ("Failed to analyze repository: " ++ msg)
  end.

End Services.

Arguments repo_anonymous {Content}.
Arguments repo_with_headers {Content}.
Arguments repo_authenticated {Content}.
Arguments analyze_treeRes {Content}.
Arguments analyze_blobs {Content}.
Arguments GitHubService_analyzeGitHubRepo {Content}.
Arguments CodebaseService_analyzeGitHubRepo {Content}.

(** ** utils/fileTree.ts, components/FileTree.tsx and AnalyzeTab.tsx:
    selection over a tree *)

Definition node_path (node : FileTreeNode) : string :=
  match node with
  | FileNode _ p _ _ _ => p
  | DirectoryNode _ p _ => p
  end.

(** [traverse] of [flattenFiles]: the node, then what is below it. *)
Fixpoint traverse (node : FileTreeNode) : list FileTreeNode :=
  node ::
  match node with
  | DirectoryNode _ _ children => flat_map traverse children
  | FileNode _ _ _ _ _ => []
  end.

Definition flattenFiles (nodes : list FileTreeNode) : list FileTreeNode :=
  filter (fun node => negb (is_directory node)) (flat_map traverse nodes).

(** [collectPaths] of [selectAll]: the paths of the supported file nodes. *)
Fixpoint collectPaths_node (node : FileTreeNode) : list string :=
  match node with
  | FileNode _ p _ _ isSupported => if isSupported then [p] else []
  | DirectoryNode _ _ children => flat_map collectPaths_node children
  end.

Definition collectPaths (nodes : list FileTreeNode) : list string :=
  flat_map collectPaths_node nodes.

(** [processTree] of [handleFileImport]: the two arrays it fills, each in
    the order of its pushes. *)
Fixpoint processTree_expanded (node : FileTreeNode) : list string :=
  match node with
  | DirectoryNode _ p children => p :: flat_map processTree_expanded children
  | FileNode _ _ _ _ _ => []
  end.

Fixpoint processTree_selected (node : FileTreeNode) : list string :=
  match node with
  | DirectoryNode _ _ children => flat_map processTree_selected children
  | FileNode _ p _ _ isSupported => if isSupported then [p] else []
  end.

Record FileSelection : Type := mkFileSelection {
  selectedPaths : list string;
  expandedPaths : list string
}.

Definition processTree (nodes : list FileTreeNode) : FileSelection :=
  {| selectedPaths := flat_map processTree_selected nodes;
     expandedPaths := flat_map processTree_expanded nodes |}.

(** [paths.includes(path)]. *)
Definition includes_path (paths : list string) (p : string) : bool :=
  existsb (String.eqb p) paths.

Definition toggle (paths : list string) (p : string) : list string :=
  if includes_path paths p
  then filter (fun q => negb (String.eqb q p)) paths
  else (paths ++ [p])%list.

Definition toggleSelected (selection : FileSelection) (p : string)
  : FileSelection :=
  {| selectedPaths := toggle (selectedPaths selection) p;
     expandedPaths := expandedPaths selection |}.

Definition toggleExpanded (selection : FileSelection) (p : string)
  : FileSelection :=
  {| selectedPaths := selectedPaths selection;
     expandedPaths := toggle (expandedPaths selection) p |}.

Definition selectAll (nodes : list FileTreeNode) (selection : FileSelection)
  : FileSelection :=
  {| selectedPaths := collectPaths nodes;
     expandedPaths := expandedPaths selection |}.

Definition selectNone (selection : FileSelection) : FileSelection :=
  {| selectedPaths := []; expandedPaths := expandedPaths selection |}.

(** [countSelected] of [getSelectedCount]. *)
Fixpoint countSelected_node (selected : list string) (node : FileTreeNode)
  : nat :=
  match node with
  | FileNode _ p _ _ _ => if includes_path selected p then 1 else 0
  | DirectoryNode _ p children =>
      if includes_path selected p then length (flattenFiles children)
      else list_sum (map (countSelected_node selected) children)
  end.

Definition getSelectedCount (nodes : list FileTreeNode)
    (selection : FileSelection) : nat :=
  list_sum (map (countSelected_node (selectedPaths selection)) nodes).

Section Selection.

Variable Content : Type.

(** [collectFiles] of [getSelectedFiles]. *)
Fixpoint collectFiles_node (selected : list string)
    (allFiles : list (CodebaseFile Content)) (node : FileTreeNode)
  : list (CodebaseFile Content) :=
  match node with
  | FileNode _ p _ _ _ =>
      if includes_path selected p then
        match find (fun f => String.eqb (file_path f) p) allFiles with
        | Some file => [file]
        | None => []
        end
      else []
  | DirectoryNode _ _ children =>
      flat_map (collectFiles_node selected allFiles) children
  end.

Definition getSelectedFiles (nodes : list FileTreeNode)
    (selected : list string) (allFiles : list (CodebaseFile Content))
  : list (CodebaseFile Content) :=
  flat_map (collectFiles_node selected allFiles) nodes.

(** The file node [place] makes for a file: its name is the last segment of
    the path. *)
Definition file_node (file : CodebaseFile Content) : FileTreeNode :=
  FileNode (last (parts_of file) "") (file_path file) (file_size file)
    (file_language file) true.

(** [files.map(f => ({path, content, size, language}))] of
    [handleFileImport] and [handleAnalyzeSelected]. *)
Definition to_codebase_file (f : ProjectFile Content) : CodebaseFile Content :=
  {| file_path := path f; file_content := content f; file_size := size f;
     file_language := language f |}.

End Selection.

Arguments collectFiles_node {Content}.
Arguments getSelectedFiles {Content}.
Arguments file_node {Content}.
Arguments to_codebase_file {Content}.

(** ** Vocabulary for the retry loop *)




(** ** Vocabulary for the loop of [analyzeGitHubRepo] *)

Section AnalyzeVocabulary.

Variable Content : Type.
Variable content_length : Content -> Z.

(** The counters agree with the files collected so far, which come, in
    order, from the items [seen]. *)
Definition accounted (seen : list GitHubTreeItem)
    (st : AnalyzeState Content) : Prop :=
  an_totalSize st = sum_sizes (an_files st)
  /\ an_supportedFiles _ st = length (an_files st)
  /\ an_downloadedCount _ st = length (an_files st)
  /\ subsequence (map path (an_files st)) (map item_path seen)
  /\ Forall (fun f => size f = content_length (content f)
                      /\ language f = detectLanguage (path f))
       (an_files st).

End AnalyzeVocabulary.

Arguments accounted {Content}.

(** A blob source that yields a content of [n] characters for every item;
    a content is represented by its length. *)
Definition constant_blobs (n : Z) (item : GitHubTreeItem) : option Z := Some n.

(** The analysis of the ten candidates when every blob has a hundred
    characters. *)
Definition small_analysis : CodebaseAnalysis Z :=
  Eval vm_compute in
    match analyzeGitHubRepo (fun n : Z => n) "main" 1000
            (sample_tree ten_candidates) (constant_blobs 100) with
    | inr a => a
    | inl _ => {| analysis_files := []; totalSize := 0;
                  supportedFiles := 0; ignoredFiles := [] |}
    end.

(** ** Sample responses for the two services *)

Definition sample_http (status : Z) (statusText : string) (data : RepoData)
  : HttpResponse RepoData :=
  {| http_status := status; http_statusText := statusText;
     x_ratelimit_remaining := None; retry_after := None;
     x_ratelimit_reset := None; http_body := data |}.

Definition develop_default : RepoData :=
  {| default_branch := Some "develop"; private := false |}.

(** A private repository seen without a token: hidden from the anonymous
    fetch, refused to the fetch with headers, at every attempt. *)
Definition hidden : HttpResponse RepoData :=
  sample_http 404 "Not Found" develop_default.

Definition refused : HttpResponse RepoData :=
  sample_http 401 "Unauthorized" develop_default.

(** A public repository whose default branch is [develop], with the ten
    candidates, none of whose blobs can be fetched. *)
Definition unreadable_network : AnalyzeNetwork Z :=
  {| repo_anonymous := sample_http 200 "OK" develop_default;
     repo_with_headers := sample_http 200 "OK" develop_default;
     repo_authenticated := sample_http 200 "OK" develop_default;
     analyze_treeRes := sample_tree ten_candidates;
     analyze_blobs := fun _ => None |}.

(** A repository that does not exist. *)
Definition missing_network : AnalyzeNetwork Z :=
  {| repo_anonymous := sample_http 404 "Not Found" develop_default;
     repo_with_headers := sample_http 404 "Not Found" develop_default;
     repo_authenticated := sample_http 404 "Not Found" develop_default;
     analyze_treeRes := sample_tree [];
     analyze_blobs := fun _ => None |}.

(** The tree of the example of the specification. *)
Definition spec_tree : list FileTreeNode :=
  Eval vm_compute in buildFileTree code_unit_compare spec_files.

(** A public repository whose default branch is [develop] and whose tree
    request is answered with 404. *)
Definition branchless_network : AnalyzeNetwork Z :=
  {| repo_anonymous := sample_http 200 "OK" develop_default;
     repo_with_headers := sample_http 200 "OK" develop_default;
     repo_authenticated := sample_http 200 "OK" develop_default;
     analyze_treeRes :=
       {| tree_status := 404; tree_statusText := "Not Found";
          tree_ratelimit_remaining := None; tree_truncated := false;
          tree_entries := None |};
     analyze_blobs := fun _ => None |}.

(** The network [one_failure] with a repository endpoint that answers 404. *)
Definition one_failure_no_repository : Network string :=
  {| repoRes :=
       {| repo_status := 404; repo_statusText := "Not Found";
          repo_ratelimit_remaining := None; repo_private := false;
          repo_default_branch := None |};
     treeRes := treeRes one_failure;
     getFileContent := getFileContent one_failure |}.

(** ** Vocabulary for the order of siblings *)

(** The name of a node and of every node below it. *)
Fixpoint node_names (node : FileTreeNode) : list string :=
  node_name node ::
  match node with
  | DirectoryNode _ _ children => flat_map node_names children
  | FileNode _ _ _ _ _ => []
  end.

(** [cmp] with its ties broken by the code-unit order. *)
Definition tie_broken (cmp : string -> string -> Z) (a b : string) : Z :=
  if (cmp a b <=? 0)%Z
  then if (cmp b a <=? 0)%Z then code_unit_compare a b else (-1)%Z
  else 1%Z.

Section OrderVocabulary.

Variable Content : Type.
Variable localeCompare : string -> string -> Z.

(** Every segment of every path. *)
Definition segments (files : list (CodebaseFile Content)) : list string :=
  flat_map parts_of files.

(** The comparison tells the segments of the paths apart: no two distinct
    segments compare as equal. *)
Definition names_told_apart (files : list (CodebaseFile Content)) : Prop :=
  forall a b,
    In a (segments files) -> In b (segments files) ->
    (localeCompare a b <= 0)%Z -> (localeCompare b a <= 0)%Z -> a = b.

End OrderVocabulary.

Arguments segments {Content}.
Arguments names_told_apart {Content}.

(** U+212A KELVIN SIGN in UTF-8. The Unicode Standard makes it canonically
    equivalent to the letter [K], and [localeCompare] returns [0] for
    canonically equivalent strings. *)
Definition KELVIN_SIGN : string :=
  String "226" (String "132" (String "170" EmptyString)).

(** Two files whose names differ in the Kelvin sign only. *)
Definition kelvin_files : list (CodebaseFile string) :=
  [sample_file "K.ts"; sample_file (KELVIN_SIGN ++ ".ts")].

Definition kelvin_files_swapped : list (CodebaseFile string) :=
  [sample_file (KELVIN_SIGN ++ ".ts"); sample_file "K.ts"].

(** A collation that takes the Kelvin sign for the letter [K] and
    otherwise follows the code units. *)
Fixpoint fold_kelvin (s : string) : string :=
  match s with
  | String "226" (String "132" (String "170" r)) => String "K" (fold_kelvin r)
  | String c r => String c (fold_kelvin r)
  | EmptyString => EmptyString
  end.

Definition kelvin_collation (a b : string) : Z :=
  code_unit_compare (fold_kelvin a) (fold_kelvin b).

(** ** The extension test over UTF-16 code units *)

(** [isSupportedFile] and [detectLanguage] once more, over the code units of
    the name and with [String.prototype.toLowerCase] of the host as a
    parameter. *)
Module CodeUnits.

(** A JavaScript string as the sequence of its code units. *)
Definition js_string : Type := list N.

(** The code units of an ASCII text. *)
Definition of_string (s : string) : js_string :=
  map N_of_ascii (list_ascii_of_string s).

(** [a === b] on strings. *)
Fixpoint eqb (a b : js_string) : bool :=
  match a, b with
  | [], [] => true
  | x :: a', y :: b' => (x =? y)%N && eqb a' b'
  | _, _ => false
  end.

Definition FULL_STOP : N := 46.

Fixpoint lastIndexOf (c : N) (s : js_string) : Z :=
  match s with
  | [] => (-1)%Z
  | a :: r =>
      let k := lastIndexOf c r in
      if (k <? 0)%Z then (if (a =? c)%N then 0%Z else (-1)%Z) else (k + 1)%Z
  end.

(** [s.substring(start)]. *)
Definition substring_from (start : Z) (s : js_string) : js_string :=
  skipn (Z.to_nat start) s.

Section Host.

Variable toLowerCase : js_string -> js_string.

Definition isSupportedFile (filename : js_string) : bool :=
  let ext :=
    substring_from (lastIndexOf FULL_STOP filename) (toLowerCase filename) in
  existsb (fun e => eqb ext (of_string e)) SUPPORTED_EXTENSIONS.

Definition detectLanguage (filename : js_string) : option string :=
  let ext :=
    substring_from (lastIndexOf FULL_STOP filename) (toLowerCase filename) in
  option_map snd
    (find (fun entry => eqb ext (of_string (fst entry))) languageMap).

(** The extension in the words of the specification: the text after the
    last ["."], if there is one, ... *)
Fixpoint after_last_dot (s : js_string) : option js_string :=
  match s with
  | [] => None
  | c :: r =>
      match after_last_dot r with
      | Some e => Some e
      | None => if (c =? FULL_STOP)%N then Some r else None
      end
  end.

(** ... matched against the supported set without regard to case. *)
Definition extension_supported (name : js_string) : bool :=
  match after_last_dot name with
  | Some e =>
      existsb (fun x => eqb (toLowerCase e) (of_string x)) supported_set
  | None => false
  end.

End Host.

(** Every code unit is below 128. *)
Definition is_ascii (s : js_string) : bool := forallb (fun u => (u <? 128)%N) s.

(** The name of a TypeScript source that starts with U+0130, LATIN CAPITAL
    LETTER I WITH DOT ABOVE, and its lower-casing by ECMAScript: U+0069
    followed by U+0307, COMBINING DOT ABOVE. *)
Definition dotted_I_ts : js_string := [304; 46; 116; 115]%N.

Definition dotted_I_ts_lower : js_string := [105; 775; 46; 116; 115]%N.

(** A lower-casing that agrees with ECMAScript's on the ASCII letters, on
    U+0130 and on U+212A, KELVIN SIGN, and keeps every other code unit. *)
Definition lower_unit (u : N) : js_string :=
  if ((65 <=? u) && (u <=? 90))%N then [(u + 32)%N]
  else if (u =? 304)%N then [105; 775]%N
  else if (u =? 8490)%N then [107]%N
  else [u].

Definition lower_units (s : js_string) : js_string := flat_map lower_unit s.

End CodeUnits.

(** * Properties of the filter chain *)

Lemma lower_ascii_dot (c : ascii) :
  lower_ascii c = "."%char -> c = "."%char.
Proof.
  destruct c as [[] [] [] [] [] [] [] []]; vm_compute; congruence.
Qed.

Lemma lower_ascii_not_dot (c : ascii) :
  Ascii.eqb c "." = false -> Ascii.eqb (lower_ascii c) "." = false.
Proof.
  intros H. apply Ascii.eqb_neq. intros E.
  apply lower_ascii_dot in E. apply Ascii.eqb_neq in H. contradiction.
Qed.

(** Where [lastIndexOf] is negative the path has no dot, and otherwise
    [substring] from it is the dot followed by the text after the last dot. *)
Lemma substring_lastIndexOf (s : string) :
  match after_last_dot s with
  | Some e =>
      (0 <= lastIndexOf "." s)%Z /\
      substring_from (lastIndexOf "." s) (toLowerCase s)
      = String "." (toLowerCase e)
  | None =>
      lastIndexOf "." s = (-1)%Z /\
      match s with
      | EmptyString => True
      | String c _ => Ascii.eqb c "." = false
      end
  end.
Proof.
  induction s as [|c r IH]; simpl.
  - split; [reflexivity | exact I].
  - destruct (after_last_dot r) as [e|].
    + destruct IH as [Hk Hsub].
      destruct (Z.ltb_spec (lastIndexOf "." r) 0) as [Hlt|Hge]; [lia|].
      split; [lia|].
      unfold substring_from in *.
      replace (Z.to_nat (lastIndexOf "." r + 1))
        with (S (Z.to_nat (lastIndexOf "." r))) by lia.
      simpl. exact Hsub.
    + destruct IH as [Hk _]. rewrite Hk. simpl.
      destruct (Ascii.eqb_spec c ".") as [->|Hne].
      * split; [lia|]. reflexivity.
      * split; reflexivity.
Qed.

Lemma supported_with_dot (e : string) :
  existsb (String.eqb (String "." e)) SUPPORTED_EXTENSIONS
  = existsb (String.eqb e) supported_set.
Proof.
  change SUPPORTED_EXTENSIONS with (map (String ".") supported_set).
  generalize supported_set as l.
  induction l as [|x l IH]; cbn [existsb map]; [reflexivity|].
  rewrite IH. reflexivity.
Qed.

Lemma unsupported_without_dot (s : string) :
  match s with
  | EmptyString => True
  | String c _ => Ascii.eqb c "." = false
  end ->
  existsb (String.eqb (toLowerCase s)) SUPPORTED_EXTENSIONS = false.
Proof.
  destruct s as [|c r]; intros H; [reflexivity|].
  apply lower_ascii_not_dot in H.
  unfold SUPPORTED_EXTENSIONS. simpl. rewrite H. reflexivity.
Qed.

(** In the byte model, whose lower-casing keeps every length, the extension
    test of the code is the one of the specification. Module [CodeUnits] has
    a name on which the two differ. *)
Lemma isSupportedFile_extension (p : string) :
  isSupportedFile p = extension_supported p.
Proof.
  unfold isSupportedFile, extension_supported.
  pose proof (substring_lastIndexOf p) as H.
  destruct (after_last_dot p) as [e|].
  - destruct H as [_ ->]. apply supported_with_dot.
  - destruct H as [-> Hdot].
    unfold substring_from. simpl.
    apply unsupported_without_dot. exact Hdot.
Qed.

Lemma size_test_cap (item : GitHubTreeItem) :
  (size_or_0 item <? MAX_FILE_SIZE_BYTES)%Z
  = negb (size_at_or_above MAX_FILE_SIZE_BYTES item).
Proof.
  unfold size_or_0, size_at_or_above.
  destruct (item_size item) as [n|].
  - rewrite Z.ltb_antisym. reflexivity.
  - reflexivity.
Qed.

Lemma blob_not_tree (t : ItemType) :
  ItemType_eqb t blob = negb (ItemType_eqb t tree).
Proof. destruct t; reflexivity. Qed.

Lemma relevantItems_planner (n : nat) (listing : list GitHubTreeItem) :
  firstn n (relevantItems listing) = planner n MAX_FILE_SIZE_BYTES listing.
Proof.
  unfold relevantItems, allBlobs, planner. f_equal.
  erewrite filter_ext; [| intros a; apply size_test_cap].
  f_equal.
  erewrite filter_ext; [| intros a; apply isSupportedFile_extension].
  f_equal. f_equal.
  apply filter_ext. intros a. apply blob_not_tree.
Qed.

Lemma limitedItems_planner (listing : list GitHubTreeItem) :
  limitedItems listing = planner MAX_FILES MAX_FILE_SIZE_BYTES listing.
Proof. apply relevantItems_planner. Qed.

Lemma limitedItems_length (listing : list GitHubTreeItem) :
  length (limitedItems listing) <= MAX_FILES.
Proof. unfold limitedItems. apply firstn_le_length. Qed.

Lemma limitedItems_analyze_planner (maxFiles : Z) (listing : list GitHubTreeItem) :
  (0 <= maxFiles)%Z ->
  limitedItems_analyze maxFiles listing
  = planner (Nat.min (Z.to_nat maxFiles) MAX_FILES) MAX_FILE_SIZE_BYTES listing.
Proof.
  intros Hpos. unfold limitedItems_analyze, slice_to.
  destruct (Z.ltb_spec (Z.min maxFiles (Z.of_nat MAX_FILES)) 0) as [Hlt|Hge];
    [unfold MAX_FILES in Hlt; lia|].
  replace (Z.to_nat (Z.min maxFiles (Z.of_nat MAX_FILES)))
    with (Nat.min (Z.to_nat maxFiles) MAX_FILES) by lia.
  apply relevantItems_planner.
Qed.

(** * Properties of the download loop *)

Lemma string_app_assoc (a b c : string) : (a ++ b) ++ c = a ++ (b ++ c).
Proof. induction a as [|x a IH]; simpl; [reflexivity | now rewrite IH]. Qed.

Lemma prefix_append (lit s : string) : String.prefix lit (lit ++ s) = true.
Proof.
  induction lit as [|c lit IH]; simpl.
  - destruct s; reflexivity.
  - destruct (ascii_dec c c) as [_|Hne]; [exact IH | contradiction].
Qed.

Lemma includes_prefix (lit s : string) :
  String.prefix lit s = true -> includes lit s = true.
Proof. intros H. destruct s; cbn [includes]; rewrite H; reflexivity. Qed.

Lemma includes_append (lit a b : string) : includes lit (a ++ lit ++ b) = true.
Proof.
  induction a as [|c a IH].
  - cbn [append]. apply includes_prefix, prefix_append.
  - cbn [append includes]. rewrite IH. apply orb_true_r.
Qed.

Section IngestionFacts.

Variable Content : Type.
Variable content_length : Content -> Z.

(** The three attempts of [fetchFileWithRetry], written out. *)
Lemma fetchFileWithRetry_3 (net : Network Content) (item : GitHubTreeItem) :
  let get := getFileContent net (item_path item) in
  let file c := {| path := item_path item; content := c;
                   language := detectLanguage (item_path item);
                   size := content_length c |} in
  fetchFileWithRetry content_length net item 3 =
  match get 0 with
  | Some c => (Some (file c), [])
  | None =>
      match get 1 with
      | Some c => (Some (file c), [1000%Z])
      | None =>
          match get 2 with
          | Some c => (Some (file c), [1000%Z; 2000%Z])
          | None => (None, [1000%Z; 2000%Z])
          end
      end
  end.
Proof.
  unfold fetchFileWithRetry. simpl.
  destruct (getFileContent net (item_path item) 0); [reflexivity|].
  destruct (getFileContent net (item_path item) 1); [reflexivity|].
  destruct (getFileContent net (item_path item) 2); reflexivity.
Qed.

Lemma fetchFileWithRetry_fails (net : Network Content) (item : GitHubTreeItem) :
  is_none (fst (fetchFileWithRetry content_length net item 3)) = fails_all_attempts net item.
Proof.
  rewrite fetchFileWithRetry_3. unfold fails_all_attempts. simpl.
  destruct (getFileContent net (item_path item) 0); [reflexivity|].
  destruct (getFileContent net (item_path item) 1); [reflexivity|].
  destruct (getFileContent net (item_path item) 2); reflexivity.
Qed.

Lemma outcome_commit (st st' : LoopState Content) r :
  outcome st = outcome st' -> outcome (commit st r) = outcome (commit st' r).
Proof.
  unfold outcome. intros H. injection H as H1 H2 H3 H4.
  destruct r as [p [[f|] delays]]; simpl; congruence.
Qed.

Lemma outcome_fold_commit rs (st st' : LoopState Content) :
  outcome st = outcome st' ->
  outcome (fold_left commit rs st) = outcome (fold_left commit rs st').
Proof.
  revert st st'. induction rs as [|r rs IH]; intros st st' H; simpl.
  - exact H.
  - apply IH, outcome_commit, H.
Qed.

(** The batches together handle the remaining items one after the other. *)
Lemma download_batches_outcome (net : Network Content)
    (items : list GitHubTreeItem) (i : nat) (st : LoopState Content) :
  outcome (download_batches content_length net items i st)
  = outcome (fold_left commit (fetch_batch content_length net (skipn i items)) st).
Proof.
  funelim (download_batches content_length net items i st).
  - match goal with IH : outcome _ = outcome _ |- _ => rewrite IH end.
    rewrite <- (firstn_skipn BATCH_SIZE (skipn i items)) at 1.
    unfold fetch_batch. rewrite map_app, fold_left_app.
    rewrite skipn_skipn.
    unfold slice. replace (i + BATCH_SIZE - i) with BATCH_SIZE by lia.
    rewrite (Nat.add_comm BATCH_SIZE i).
    apply outcome_fold_commit.
    destruct (Nat.ltb (i + BATCH_SIZE) (length items)); reflexivity.
  - rewrite skipn_all2 by lia. reflexivity.
Qed.

Lemma fold_commit_files (net : Network Content) (l : list GitHubTreeItem)
    (st : LoopState Content) :
  st_files (fold_left commit (fetch_batch content_length net l) st)
  = (st_files st ++ flat_map (fetched content_length net) l)%list.
Proof.
  revert st. induction l as [|item l IH]; intros st; simpl.
  - now rewrite app_nil_r.
  - rewrite IH. unfold fetched at 2.
    destruct (fetchFileWithRetry content_length net item 3) as [[f|] delays]; simpl.
    + now rewrite <- app_assoc.
    + reflexivity.
Qed.

Lemma fold_commit_failed (net : Network Content) (l : list GitHubTreeItem)
    (st : LoopState Content) :
  failedCount (fold_left commit (fetch_batch content_length net l) st)
  = failedCount st + length (filter (fails_all_attempts net) l).
Proof.
  revert st. induction l as [|item l IH]; intros st; simpl.
  - lia.
  - rewrite IH, <- fetchFileWithRetry_fails.
    destruct (fetchFileWithRetry content_length net item 3) as [[f|] delays]; simpl; lia.
Qed.

Lemma fold_commit_downloaded (net : Network Content) (l : list GitHubTreeItem)
    (st : LoopState Content) :
  downloadedCount (fold_left commit (fetch_batch content_length net l) st)
  = downloadedCount st + length (flat_map (fetched content_length net) l).
Proof.
  revert st. induction l as [|item l IH]; intros st; simpl.
  - lia.
  - rewrite IH. unfold fetched at 2.
    destruct (fetchFileWithRetry content_length net item 3) as [[f|] delays]; simpl; lia.
Qed.

Lemma fold_commit_backoff (net : Network Content) (l : list GitHubTreeItem)
    (st : LoopState Content) :
  backoff (fold_left commit (fetch_batch content_length net l) st)
  = (backoff st ++
     map (fun item =>
            (item_path item, snd (fetchFileWithRetry content_length net item 3)))
       l)%list.
Proof.
  revert st. induction l as [|item l IH]; intros st; simpl.
  - now rewrite app_nil_r.
  - rewrite IH.
    destruct (fetchFileWithRetry content_length net item 3) as [[f|] delays]; simpl;
      now rewrite <- app_assoc.
Qed.

Lemma fetched_length (net : Network Content) (l : list GitHubTreeItem) :
  length (flat_map (fetched content_length net) l)
  = length l - length (filter (fails_all_attempts net) l)
  /\ length (filter (fails_all_attempts net) l) <= length l.
Proof.
  induction l as [|item l [IH1 IH2]]; cbn [flat_map filter length];
    [split; lia|].
  rewrite length_app, IH1, <- fetchFileWithRetry_fails. unfold fetched.
  destruct (fst (fetchFileWithRetry content_length net item 3));
    cbn [is_none length]; split; lia.
Qed.

(** The final state of the loop over a list of candidates. *)
Lemma download_all (net : Network Content) (items : list GitHubTreeItem) :
  let st := download_batches content_length net items 0 initial_state in
  st_files st = flat_map (fetched content_length net) items
  /\ downloadedCount st = length (flat_map (fetched content_length net) items)
  /\ failedCount st = length (filter (fails_all_attempts net) items)
  /\ backoff st
     = map (fun item => (item_path item, snd (fetchFileWithRetry content_length net item 3)))
         items.
Proof.
  intros st.
  pose proof (download_batches_outcome net items 0 initial_state) as H.
  fold st in H. unfold outcome in H. rewrite skipn_0 in H.
  injection H as H1 H2 H3 H4.
  rewrite H1, H2, H3, H4.
  rewrite fold_commit_files, fold_commit_downloaded, fold_commit_failed,
    fold_commit_backoff.
  simpl. repeat split; reflexivity.
Qed.

End IngestionFacts.

(** * The ingestion run *)

Section IngestionRun.

Variable Content : Type.
Variable content_length : Content -> Z.

(** A run that returns went through the four stages. *)
Lemma run_stages repoString branch token (net : Network Content) st result :
  fetchGithubRepo_run content_length repoString branch token net
  = inr (st, result) ->
  exists owner repo targetRef listing,
    parse_repo repoString = inr (owner, repo)
    /\ resolve_ref owner repo branch token (repoRes net) = inr targetRef
    /\ fetch_tree owner repo targetRef (treeRes net) = inr listing
    /\ import_listing content_length net targetRef listing = inr (st, result).
Proof.
  unfold fetchGithubRepo_run. intros H.
  destruct (parse_repo repoString) as [e|[owner repo]]; [discriminate|].
  destruct (resolve_ref owner repo branch token (repoRes net))
    as [e|targetRef] eqn:Href; [discriminate|].
  destruct (fetch_tree owner repo targetRef (treeRes net))
    as [e|listing] eqn:Htree; [discriminate|].
  exists owner, repo, targetRef, listing. auto.
Qed.

Lemma fetch_tree_listing owner repo targetRef res listing :
  fetch_tree owner repo targetRef res = inr listing ->
  tree_entries res = Some listing /\ listing <> [].
Proof.
  unfold fetch_tree. intros H.
  destruct (negb (status_ok (tree_status res))).
  - repeat match type of H with
           | (if ?c then _ else _) = _ => destruct c
           | match ?o with _ => _ end = _ => destruct o
           end; discriminate.
  - destruct (tree_entries res) as [[|x l]|]; try discriminate.
    injection H as <-. split; [reflexivity | discriminate].
Qed.

Lemma import_listing_result (net : Network Content) targetRef listing st result :
  import_listing content_length net targetRef listing = inr (st, result) ->
  limitedItems listing <> []
  /\ st = download_batches content_length net (limitedItems listing) 0
            initial_state
  /\ files result = st_files st
  /\ truncated result
     = (isTruncated (tree_truncated (treeRes net)) listing
        || Nat.ltb 0 (failedCount st))%bool
  /\ summary result
     = make_summary (length (st_files st)) (failedCount st) targetRef
         (isTruncated (tree_truncated (treeRes net)) listing).
Proof.
  unfold import_listing. intros H.
  destruct (limitedItems listing) as [|x l] eqn:Hl; [discriminate|].
  injection H as <- <-. simpl.
  repeat split; try reflexivity. discriminate.
Qed.

(** Once the candidates are there, the run returns a result. *)
Lemma import_listing_returns (net : Network Content) targetRef listing :
  limitedItems listing <> [] ->
  exists st result,
    import_listing content_length net targetRef listing = inr (st, result).
Proof.
  unfold import_listing. intros H.
  destruct (limitedItems listing) as [|x l]; [contradiction|].
  eexists _, _. reflexivity.
Qed.

(** A run that returns is described by its network alone. *)
Lemma run_result repoString branch token (net : Network Content) st result :
  fetchGithubRepo_run content_length repoString branch token net
  = inr (st, result) ->
  tree_entries (treeRes net) = Some (listing_of net)
  /\ listing_of net <> []
  /\ candidates net <> []
  /\ files result = flat_map (fetched content_length net) (candidates net)
  /\ failedCount st
     = length (filter (fails_all_attempts net) (candidates net))
  /\ backoff st
     = map (fun item =>
              (item_path item,
               snd (fetchFileWithRetry content_length net item 3)))
         (candidates net)
  /\ truncated result
     = (isTruncated (tree_truncated (treeRes net)) (listing_of net)
        || Nat.ltb 0 (failedCount st))%bool
  /\ exists targetRef,
       summary result
       = make_summary (length (files result)) (failedCount st) targetRef
           (isTruncated (tree_truncated (treeRes net)) (listing_of net)).
Proof.
  intros H. apply run_stages in H.
  destruct H as (owner & repo & targetRef & listing & _ & _ & Ht & Hi).
  apply fetch_tree_listing in Ht. destruct Ht as [Hentries Hne].
  apply import_listing_result in Hi.
  destruct Hi as (Hcand & Hst & Hfiles & Htrunc & Hsum).
  assert (Hl : listing_of net = listing)
    by (unfold listing_of; now rewrite Hentries).
  unfold candidates. rewrite Hl.
  pose proof (download_all Content content_length net (limitedItems listing))
    as Hall.
  cbv zeta in Hall. rewrite <- Hst in Hall.
  destruct Hall as (Hf & _ & Hfail & Hback).
  repeat split; try assumption; try congruence.
  exists targetRef. rewrite Hfiles. exact Hsum.
Qed.

Lemma firstn_shorter {A : Type} (n : nat) (l : list A) :
  Nat.ltb (length (firstn n l)) (length l) = Nat.ltb n (length l).
Proof.
  rewrite length_firstn.
  destruct (Nat.ltb_spec n (length l)) as [H|H].
  - apply Nat.ltb_lt. lia.
  - apply Nat.ltb_ge. lia.
Qed.

Lemma fetched_paths (net : Network Content) (l : list GitHubTreeItem) :
  subsequence (map path (flat_map (fetched content_length net) l))
    (map item_path l).
Proof.
  induction l as [|item l IH]; simpl; [constructor|].
  unfold fetched at 1. rewrite fetchFileWithRetry_3. cbv zeta.
  destruct (getFileContent net (item_path item) 0);
    [simpl; now constructor|].
  destruct (getFileContent net (item_path item) 1);
    [simpl; now constructor|].
  destruct (getFileContent net (item_path item) 2);
    simpl; now constructor.
Qed.

Lemma subsequence_length {A : Type} (l1 l2 : list A) :
  subsequence l1 l2 -> length l1 <= length l2.
Proof. induction 1; simpl; lia. Qed.

(** The delays of the retry loop: the wait after attempt [j] is
    [2 ^ j * 1000] milliseconds, and there are fewer waits than attempts. *)
Lemma retry_loop_backoff (get : nat -> option Content) item retries :
  forall remaining attempt r delays,
    attempt + remaining = retries ->
    retry_loop content_length get item retries remaining attempt = (r, delays) ->
    delays = map (fun j => (2 ^ Z.of_nat j * 1000)%Z) (seq attempt (length delays))
    /\ length delays <= remaining - 1.
Proof.
  induction remaining as [|remaining IH]; intros attempt r delays Hinv H;
    simpl in H.
  - injection H as <- <-. split; [reflexivity | simpl; lia].
  - destruct (get attempt).
    + injection H as <- <-. split; [reflexivity | simpl; lia].
    + destruct (Nat.eqb_spec attempt (retries - 1)) as [Heq|Hne].
      * injection H as <- <-. split; [reflexivity | simpl; lia].
      * destruct (retry_loop content_length get item retries remaining (S attempt))
          as [r' ds] eqn:Hrec.
        injection H as <- <-.
        destruct (IH (S attempt) r' ds ltac:(lia) Hrec) as [Hds Hlen].
        split.
        -- simpl. f_equal. exact Hds.
        -- simpl. lia.
Qed.

End IngestionRun.

Section IngestionClaims.

Variable Content : Type.
Variable content_length : Content -> Z.

(** C2, as the code has it. For every run of [fetchGithubRepo] that returns,
    the [truncated] flag is true exactly when the filtered listing is longer
    than [MAX_FILES], or the API marked the listing truncated, or at least one
    candidate failed all its attempts; in particular a listing truncated by
    the API always gives [truncated = true]. *)
Theorem truncated_exactly_when repoString branch token
    (net : Network Content) st result :
  fetchGithubRepo_run content_length repoString branch token net
  = inr (st, result) ->
  (truncated result = true <->
   MAX_FILES < length (relevantItems (listing_of net))
   \/ tree_truncated (treeRes net) = true
   \/ 0 < failedCount st)
  /\ failedCount st = length (filter (fails_all_attempts net) (candidates net))
  /\ (tree_truncated (treeRes net) = true -> truncated result = true).
Proof.
  intros H. apply run_result in H.
  destruct H as (_ & _ & _ & _ & Hfail & _ & Htrunc & _).
  assert (Hiff : truncated result = true <->
                 MAX_FILES < length (relevantItems (listing_of net))
                 \/ tree_truncated (treeRes net) = true
                 \/ 0 < failedCount st).
  { rewrite Htrunc. unfold isTruncated, limitedItems.
    rewrite firstn_shorter, !orb_true_iff, !Nat.ltb_lt. tauto. }
  split; [exact Hiff|]. split; [exact Hfail|].
  intros Hapi. apply Hiff. auto.
Qed.

(** C3. Whatever the outcomes of the downloads, a run that has reached the
    download stage with [n] candidates returns a result. Each candidate is
    attempted at most three times, waiting 1000 ms after the first failure
    and 2000 ms after the second; if [k] candidates fail all three attempts
    the result has [n - k] files, [failedCount] is [k], and for [k > 0] the
    summary contains the text "([k] failed)". *)
Theorem failed_items_are_counted repoString branch token
    (net : Network Content) owner repo targetRef listing :
  parse_repo repoString = inr (owner, repo) ->
  resolve_ref owner repo branch token (repoRes net) = inr targetRef ->
  fetch_tree owner repo targetRef (treeRes net) = inr listing ->
  limitedItems listing <> [] ->
  exists st result,
    fetchGithubRepo_run content_length repoString branch token net
    = inr (st, result)
    /\ fetchGithubRepo content_length repoString branch token net = inr result
    /\ let n := length (limitedItems listing) in
       let k := length (filter (fails_all_attempts net) (limitedItems listing)) in
       k <= n
       /\ length (files result) = n - k
       /\ failedCount st = k
       /\ (0 < k ->
           includes ("(" ++ decimal k ++ " failed)") (summary result) = true)
       /\ backoff st
          = map (fun item =>
                   (item_path item,
                    snd (fetchFileWithRetry content_length net item 3)))
              (limitedItems listing)
       /\ forall item,
            let get := getFileContent net (item_path item) in
            let file c := {| path := item_path item; content := c;
                             language := detectLanguage (item_path item);
                             size := content_length c |} in
            fetchFileWithRetry content_length net item 3 =
            match get 0 with
            | Some c => (Some (file c), [])
            | None =>
                match get 1 with
                | Some c => (Some (file c), [1000%Z])
                | None =>
                    match get 2 with
                    | Some c => (Some (file c), [1000%Z; 2000%Z])
                    | None => (None, [1000%Z; 2000%Z])
                    end
                end
            end.
Proof.
  intros Hparse Href Htree Hcand.
  destruct (import_listing_returns Content content_length net targetRef listing
              Hcand) as (st & result & Hrun).
  assert (Hfull : fetchGithubRepo_run content_length repoString branch token net
                  = inr (st, result)).
  { unfold fetchGithubRepo_run. rewrite Hparse, Href, Htree. exact Hrun. }
  exists st, result. split; [exact Hfull|].
  split; [unfold fetchGithubRepo; now rewrite Hfull|].
  pose proof (run_result _ content_length _ _ _ _ _ _ Hfull) as Hres.
  destruct Hres as (Hentries & _ & _ & Hfiles & Hfail & Hback & _ & ref & Hsum).
  apply fetch_tree_listing in Htree. destruct Htree as [Hsome _].
  assert (Hl : candidates net = limitedItems listing).
  { unfold candidates, listing_of. now rewrite Hsome. }
  rewrite Hl in *.
  destruct (fetched_length Content content_length net (limitedItems listing))
    as [Hlen Hle].
  cbv zeta. repeat split.
  - exact Hle.
  - rewrite Hfiles. exact Hlen.
  - exact Hfail.
  - intros Hk. rewrite Hsum, Hfail. unfold make_summary.
    apply Nat.ltb_lt in Hk. rewrite Hk.
    set (k := decimal _).
    replace ("Imported " ++ decimal (length (files result)) ++ " files from " ++
             ref ++ " (" ++ k ++ " failed). " ++
             skipped_note (isTruncated (tree_truncated (treeRes net))
                             (listing_of net)))
      with (("Imported " ++ decimal (length (files result)) ++ " files from " ++
             ref ++ " ") ++ ("(" ++ k ++ " failed)") ++
            (". " ++ skipped_note (isTruncated (tree_truncated (treeRes net))
                                     (listing_of net)))).
    + apply includes_append.
    + rewrite !string_app_assoc. reflexivity.
  - exact Hback.
  - intros item. apply fetchFileWithRetry_3.
Qed.

(** In the byte model, the candidates of [fetchGithubRepo] are the listing
    reduced by the five steps of the planner in their order (kind, ignore
    patterns, extension, size cap, [MAX_FILES]); in any model there are at
    most [MAX_FILES] of them, and every result of a run has at most
    [MAX_FILES] files. *)
Lemma candidates_within_file_cap :
  (forall listing,
     limitedItems listing = planner MAX_FILES MAX_FILE_SIZE_BYTES listing
     /\ length (limitedItems listing) <= MAX_FILES)
  /\ (forall repoString branch token (net : Network Content) st result,
        fetchGithubRepo_run content_length repoString branch token net
        = inr (st, result) ->
        length (files result) <= MAX_FILES).
Proof.
  split.
  - intros listing. split; [apply limitedItems_planner | apply limitedItems_length].
  - intros repoString branch token net st result H.
    apply run_result in H. destruct H as (_ & _ & _ & Hfiles & _).
    rewrite Hfiles.
    destruct (fetched_length Content content_length net (candidates net))
      as [Hlen _].
    rewrite Hlen. pose proof (limitedItems_length (listing_of net)).
    unfold candidates. lia.
Qed.

(** C6. When the tree was fetched and no candidate is left after filtering
    and capping, [fetchGithubRepo] fails with the error "No matching source
    files found"; this is not one of the errors raised for a failed request,
    and no other throw site produces its message. *)
Theorem no_candidates_is_an_error repoString branch token
    (net : Network Content) owner repo targetRef listing :
  parse_repo repoString = inr (owner, repo) ->
  resolve_ref owner repo branch token (repoRes net) = inr targetRef ->
  fetch_tree owner repo targetRef (treeRes net) = inr listing ->
  limitedItems listing = [] ->
  fetchGithubRepo content_length repoString branch token net
  = inl (NoMatchingFiles targetRef)
  /\ is_network_error (NoMatchingFiles targetRef) = false
  /\ forall e, message e = message (NoMatchingFiles targetRef) ->
               exists r, e = NoMatchingFiles r.
Proof.
  intros Hparse Href Htree Hnone. repeat split.
  - unfold fetchGithubRepo, fetchGithubRepo_run, import_listing.
    now rewrite Hparse, Href, Htree, Hnone.
  - intros e He. destruct e; try (simpl in He; discriminate He).
    eexists. reflexivity.
Qed.

(** C7. When the tree request succeeds with no entries, [fetchGithubRepo]
    fails with the error "Repository ... appears to be empty or has no
    commits", and when the tree endpoint answers 409 it fails with
    "Repository is empty or uninitialized"; a run that returns a result had
    a listing with at least one entry. *)
Theorem empty_repository_is_an_error repoString branch token
    (net : Network Content) owner repo targetRef :
  parse_repo repoString = inr (owner, repo) ->
  resolve_ref owner repo branch token (repoRes net) = inr targetRef ->
  (status_ok (tree_status (treeRes net)) = true ->
   listing_of net = [] ->
   fetchGithubRepo content_length repoString branch token net
   = inl (RepositoryEmpty owner repo))
  /\ (tree_status (treeRes net) = 409%Z ->
      fetchGithubRepo content_length repoString branch token net
      = inl RepositoryEmptyConflict)
  /\ (forall result,
        fetchGithubRepo content_length repoString branch token net
        = inr result ->
        listing_of net <> []).
Proof.
  intros Hparse Href. repeat split.
  - intros Hok Hempty.
    unfold fetchGithubRepo, fetchGithubRepo_run, fetch_tree.
    rewrite Hparse, Href, Hok. simpl.
    unfold listing_of in Hempty.
    destruct (tree_entries (treeRes net)) as [[|x l]|];
      try reflexivity; discriminate.
  - intros H409.
    unfold fetchGithubRepo, fetchGithubRepo_run, fetch_tree.
    rewrite Hparse, Href, H409. reflexivity.
  - intros result H. unfold fetchGithubRepo in H.
    destruct (fetchGithubRepo_run content_length repoString branch token net)
      as [e|[st r]] eqn:Hrun; [discriminate|].
    apply run_result in Hrun. tauto.
Qed.

(** C8. The files of a result are the candidates in their order, each
    replaced by its downloaded file or left out when all its attempts
    failed; so the paths of the result are a subsequence of the paths of the
    candidates. *)
Theorem result_keeps_candidate_order repoString branch token
    (net : Network Content) st result :
  fetchGithubRepo_run content_length repoString branch token net
  = inr (st, result) ->
  files result = flat_map (fetched content_length net) (candidates net)
  /\ subsequence (map path (files result)) (map item_path (candidates net)).
Proof.
  intros H. apply run_result in H. destruct H as (_ & _ & _ & Hfiles & _).
  split; [exact Hfiles|]. rewrite Hfiles. apply fetched_paths.
Qed.

(** C10. In a run of [fetchGithubRepo] that returns, one candidate that
    failed all its attempts, that is [failedCount > 0], makes [truncated]
    true, whatever the listing was. *)
Theorem failures_force_truncated repoString branch token
    (net : Network Content) st result :
  fetchGithubRepo_run content_length repoString branch token net
  = inr (st, result) ->
  (0 < failedCount st
   \/ exists item,
        In item (candidates net) /\ fails_all_attempts net item = true) ->
  truncated result = true.
Proof.
  intros H Hfail. apply run_result in H.
  destruct H as (_ & _ & _ & _ & Hcount & _ & Htrunc & _).
  assert (Hpos : 0 < failedCount st).
  { destruct Hfail as [Hpos|(item & Hin & Hf)]; [exact Hpos|].
    rewrite Hcount.
    assert (Hi : In item (filter (fails_all_attempts net) (candidates net)))
      by (apply filter_In; auto).
    destruct (filter (fails_all_attempts net) (candidates net));
      [contradiction | simpl; lia]. }
  rewrite Htrunc. apply Nat.ltb_lt in Hpos. rewrite Hpos.
  apply orb_true_r.
Qed.

End IngestionClaims.

(** ** The filters on sample paths *)

Example isSupportedFile_upper_case : isSupportedFile "src/Main.JAVA" = true.
Proof. reflexivity. Qed.

Example isSupportedFile_without_dot : isSupportedFile "Makefile" = false.
Proof. reflexivity. Qed.

Example isSupportedFile_dot_in_directory :
  isSupportedFile "lib.v2/Makefile" = false.
Proof. reflexivity. Qed.

Example shouldIgnoreFile_examples :
  shouldIgnoreFile "web/node_modules/x.js" = true
  /\ shouldIgnoreFile "config/.env.local" = true
  /\ shouldIgnoreFile "out/debug.log" = true
  /\ shouldIgnoreFile "build/Main.java" = true
  /\ shouldIgnoreFile "src/build/Main.java" = false
  /\ shouldIgnoreFile "src/Main.java" = false.
Proof. repeat split. Qed.

Example parse_repo_examples :
  parse_repo "https://github.com/octo/repo/" = inr ("octo", "repo")
  /\ parse_repo "octo/repo" = inr ("octo", "repo")
  /\ parse_repo "octo" = inl InvalidRepositoryFormat.
Proof. repeat split. Qed.

(** ** The claims on sample runs *)

(** C1. On a listing of a hundred sources of 1048575 bytes followed by five
    of a hundred bytes, [analyzeGitHubRepo] returns all 105 files: the last
    batch starts at 104857500 bytes, each of its five files fits the budget
    on its own, and the committed total is 104858000 bytes, above
    [MAX_TOTAL_SIZE_BYTES] = 104857600. [fetchGithubRepo] has no byte budget:
    on 101 sources of 1048575 bytes it returns 105906075 bytes, not marked
    truncated. *)
Theorem analyze_commits_beyond_budget :
  match analyzeGitHubRepo (fun n : Z => n) "main" 1000
          (sample_tree overrun_listing) overrun_blobs with
  | inr a =>
      length (analysis_files a) = 105
      /\ totalSize a = 104858000%Z
      /\ sum_sizes (analysis_files a) = 104858000%Z
      /\ (MAX_TOTAL_SIZE_BYTES < sum_sizes (analysis_files a))%Z
  | inl _ => False
  end
  /\ match fetchGithubRepo (fun n : Z => n) "octo/repo" "" None
            heavy_network with
     | inr r =>
         length (files r) = 101
         /\ sum_sizes (files r) = 105906075%Z
         /\ (MAX_TOTAL_SIZE_BYTES < sum_sizes (files r))%Z
         /\ truncated r = false
     | inl _ => False
     end.
Proof. vm_compute. repeat split. Qed.

(** C2, as stated, fails: with two candidates of which one fails all its
    attempts the run returns [truncated = true] although the listing is
    short, the API did not truncate it and twenty bytes were downloaded. *)
Lemma truncated_without_listed_cause :
  fetchGithubRepo text_length "octo/repo" "" None one_failure
  = inr (snd one_failure_outcome)
  /\ truncated (snd one_failure_outcome) = true
  /\ ~ listed_truncation_cause one_failure (snd one_failure_outcome).
Proof.
  split; [vm_compute; reflexivity|].
  split; [reflexivity|].
  intros [H|[H|[H _]]].
  - vm_compute in H. lia.
  - discriminate H.
  - vm_compute in H. apply H. reflexivity.
Qed.

Lemma truncated_exactly_when_witness :
  fetchGithubRepo_run text_length "octo/repo" "" None one_failure
  = inr one_failure_outcome
  /\ (truncated (snd one_failure_outcome) = true <->
      MAX_FILES < length (relevantItems (listing_of one_failure))
      \/ tree_truncated (treeRes one_failure) = true
      \/ 0 < failedCount (fst one_failure_outcome)).
Proof.
  assert (H : fetchGithubRepo_run text_length "octo/repo" "" None one_failure
              = inr (fst one_failure_outcome, snd one_failure_outcome))
    by (vm_compute; reflexivity).
  split; [exact H|].
  exact (proj1 (truncated_exactly_when string text_length _ _ _ _ _ _ H)).
Defined.

Lemma failed_items_are_counted_witness :
  exists (st : LoopState string) result,
    fetchGithubRepo text_length "octo/repo" "" None two_failures = inr result
    /\ length (files result) = 8
    /\ failedCount st = 2
    /\ includes "(2 failed)" (summary result) = true.
Proof.
  destruct (failed_items_are_counted string text_length
              "octo/repo" "" None two_failures "octo" "repo" "main"
              ten_candidates eq_refl eq_refl eq_refl
              ltac:(vm_compute; discriminate))
    as (st & result & _ & Hrun & _ & Hlen & Hfail & Hsum & _).
  exists st, result.
  split; [exact Hrun|].
  split; [exact Hlen|].
  split; [exact Hfail|].
  apply Hsum. vm_compute. lia.
Defined.

(** The scenario of the specification: only a lock file and an image. *)
Lemma no_candidates_is_an_error_witness :
  limitedItems lock_and_png = []
  /\ fetchGithubRepo text_length "octo/repo" "" None
       (sample_network lock_and_png [])
     = inl (NoMatchingFiles "main").
Proof.
  split; [reflexivity|].
  exact (proj1 (no_candidates_is_an_error string text_length
                  "octo/repo" "" None (sample_network lock_and_png [])
                  "octo" "repo" "main" lock_and_png
                  eq_refl eq_refl eq_refl eq_refl)).
Defined.

Lemma empty_repository_is_an_error_witness :
  listing_of (sample_network [] []) = []
  /\ fetchGithubRepo text_length "octo/repo" "" None (sample_network [] [])
     = inl (RepositoryEmpty "octo" "repo").
Proof.
  split; [reflexivity|].
  exact (proj1 (empty_repository_is_an_error string text_length
                  "octo/repo" "" None (sample_network [] [])
                  "octo" "repo" "main" eq_refl eq_refl)
           eq_refl eq_refl).
Defined.

Lemma result_keeps_candidate_order_witness :
  fetchGithubRepo_run text_length "octo/repo" "" None two_failures
  = inr two_failures_outcome
  /\ subsequence (map path (files (snd two_failures_outcome)))
       (map item_path (candidates two_failures)).
Proof.
  assert (H : fetchGithubRepo_run text_length "octo/repo" "" None two_failures
              = inr (fst two_failures_outcome, snd two_failures_outcome))
    by (vm_compute; reflexivity).
  split; [exact H|].
  exact (proj2 (result_keeps_candidate_order string text_length _ _ _ _ _ _ H)).
Defined.

(** One failure, and neither a long listing nor a truncated one. *)
Lemma failures_force_truncated_witness :
  fetchGithubRepo_run text_length "octo/repo" "" None one_failure
  = inr one_failure_outcome
  /\ 0 < failedCount (fst one_failure_outcome)
  /\ length (relevantItems (listing_of one_failure)) <= MAX_FILES
  /\ tree_truncated (treeRes one_failure) = false
  /\ truncated (snd one_failure_outcome) = true.
Proof.
  assert (H : fetchGithubRepo_run text_length "octo/repo" "" None one_failure
              = inr (fst one_failure_outcome, snd one_failure_outcome))
    by (vm_compute; reflexivity).
  assert (Hf : 0 < failedCount (fst one_failure_outcome))
    by (vm_compute; lia).
  split; [exact H|].
  split; [exact Hf|].
  split; [vm_compute; lia|].
  split; [reflexivity|].
  exact (failures_force_truncated string text_length _ _ _ _ _ _ H
           (or_introl Hf)).
Defined.

(** * Sorting with a comparator *)

Section SortFacts.

Variable A : Type.
Variable cmp : A -> A -> Z.

Lemma insert_perm (x : A) (l : list A) : Permutation (insert cmp x l) (x :: l).
Proof.
  induction l as [|y l IH]; simpl; [reflexivity|].
  destruct (cmp x y <=? 0)%Z; [reflexivity|].
  rewrite IH. apply perm_swap.
Qed.

Lemma sort_perm (l : list A) : Permutation (sort cmp l) l.
Proof.
  induction l as [|x l IH]; simpl; [reflexivity|].
  rewrite insert_perm. now constructor.
Qed.

(** A sorted array is left as it is. *)
Lemma sort_sorted_id (l : list A) : StronglySorted (fun x y => (cmp x y <= 0)%Z) l -> sort cmp l = l.
Proof.
  induction 1 as [|x l Hs IH Hall]; simpl; [reflexivity|].
  rewrite IH. destruct l as [|y l]; simpl; [reflexivity|].
  inversion Hall as [|? ? Hxy _]; subst.
  destruct (Z.leb_spec (cmp x y) 0); [reflexivity | lia].
Qed.

(** Sorting commutes with a map that does not change comparisons. *)
Lemma sort_map (f : A -> A) (l : list A) :
  (forall a b, cmp (f a) (f b) = cmp a b) ->
  sort cmp (map f l) = map f (sort cmp l).
Proof.
  intros Hf. induction l as [|x l IH]; simpl; [reflexivity|].
  rewrite IH. generalize (sort cmp l) as s.
  induction s as [|y s IHs]; simpl; [reflexivity|].
  rewrite Hf. destruct (cmp x y <=? 0)%Z; simpl; [reflexivity|].
  now rewrite IHs.
Qed.

Hypothesis cmp_total : forall x y, (cmp x y <= 0 \/ cmp y x <= 0)%Z.
Hypothesis cmp_trans :
  forall x y z, (cmp x y <= 0 -> cmp y z <= 0 -> cmp x z <= 0)%Z.

Lemma insert_sorted (x : A) (l : list A) :
  StronglySorted (fun x y => (cmp x y <= 0)%Z) l -> StronglySorted (fun x y => (cmp x y <= 0)%Z) (insert cmp x l).
Proof.
  induction 1 as [|y l Hs IH Hall]; simpl.
  - constructor; constructor.
  - destruct (Z.leb_spec (cmp x y) 0) as [Hxy|Hxy].
    + constructor; [now constructor|].
      constructor; [exact Hxy|].
      eapply Forall_impl; [|exact Hall].
      intros z Hyz. simpl in *. eapply cmp_trans; eassumption.
    + constructor; [exact IH|].
      apply (Permutation_Forall (Permutation_sym (insert_perm x l))).
      constructor; [|exact Hall].
      destruct (cmp_total x y); lia.
Qed.

Lemma sort_sorted (l : list A) : StronglySorted (fun x y => (cmp x y <= 0)%Z) (sort cmp l).
Proof.
  induction l as [|x l IH]; simpl; [constructor | now apply insert_sorted].
Qed.

(** Two sorted arrangements of the same elements coincide when no two
    distinct elements compare as equal. *)
Lemma sorted_unique (l l' : list A) :
  StronglySorted (fun x y => (cmp x y <= 0)%Z) l -> StronglySorted (fun x y => (cmp x y <= 0)%Z) l' -> Permutation l l' ->
  (forall a b, In a l -> In b l ->
               (cmp a b <= 0)%Z -> (cmp b a <= 0)%Z -> a = b) ->
  l = l'.
Proof.
  intros Hs. revert l'.
  induction Hs as [|x l Hs IH Hall]; intros l' Hs' Hp Hanti.
  - apply Permutation_nil in Hp. now subst.
  - destruct Hs' as [|y l' Hs' Hall'].
    + apply Permutation_sym, Permutation_nil in Hp. discriminate.
    + assert (Hxy : x = y).
      { assert (Hx : In x (y :: l'))
          by (eapply Permutation_in; [exact Hp | now left]).
        assert (Hy : In y (x :: l))
          by (eapply Permutation_in;
              [apply Permutation_sym; exact Hp | now left]).
        destruct Hx as [Hx|Hx]; [now subst|].
        destruct Hy as [Hy|Hy]; [now subst|].
        rewrite Forall_forall in Hall, Hall'.
        apply Hanti; [now left | now right | apply Hall, Hy | apply Hall', Hx]. }
      subst y. f_equal.
      apply IH; [exact Hs' | eapply Permutation_cons_inv; exact Hp |].
      intros a b Ha Hb. apply Hanti; now right.
Qed.

Lemma sort_permuted (l l' : list A) :
  Permutation l l' ->
  (forall a b, In a l -> In b l ->
               (cmp a b <= 0)%Z -> (cmp b a <= 0)%Z -> a = b) ->
  sort cmp l = sort cmp l'.
Proof.
  intros Hp Hanti. apply sorted_unique.
  - apply sort_sorted.
  - apply sort_sorted.
  - rewrite !sort_perm. exact Hp.
  - intros a b Ha Hb. apply Hanti.
    + eapply Permutation_in; [apply sort_perm | exact Ha].
    + eapply Permutation_in; [apply sort_perm | exact Hb].
Qed.

End SortFacts.

(** * Properties of the tree builder *)

(** Induction over a tree, with the hypothesis for every child. *)
Lemma FileTreeNode_induction (P : FileTreeNode -> Prop) :
  (forall name p size language isSupported,
      P (FileNode name p size language isSupported)) ->
  (forall name p children,
      Forall P children -> P (DirectoryNode name p children)) ->
  forall node, P node.
Proof.
  intros Hfile Hdir. fix IH 1. intros [name p sz lang sup|name p children].
  - apply Hfile.
  - apply Hdir. induction children as [|c children IHc]; constructor.
    + apply IH.
    + exact IHc.
Qed.

(** ** Looking up and updating a sibling *)

Lemma find_node_name part level node :
  find_node part level = Some node -> In node level /\ node_name node = part.
Proof.
  unfold find_node. intros H. apply find_some in H.
  destruct H as [Hin Hname]. apply String.eqb_eq in Hname. auto.
Qed.

Lemma find_node_none part level :
  find_node part level = None <-> ~ In part (map node_name level).
Proof.
  unfold find_node. induction level as [|n level IH]; simpl.
  - tauto.
  - destruct (String.eqb_spec (node_name n) part) as [E|E].
    + split; [discriminate | intros H; exfalso; apply H; auto].
    + rewrite IH. tauto.
Qed.

Lemma find_node_unique part level node :
  NoDup (map node_name level) -> In node level -> node_name node = part ->
  find_node part level = Some node.
Proof.
  unfold find_node. induction level as [|n level IH]; simpl;
    intros Hnd Hin Hname; [contradiction|].
  inversion Hnd as [|? ? Hnotin Hnd']; subst.
  destruct Hin as [->|Hin].
  - now rewrite String.eqb_refl.
  - destruct (String.eqb_spec (node_name n) (node_name node)) as [E|E].
    + exfalso. apply Hnotin. rewrite E. now apply in_map.
    + now apply IH.
Qed.

Lemma find_node_app part level others :
  find_node part (level ++ others)
  = match find_node part level with
    | Some node => Some node
    | None => find_node part others
    end.
Proof.
  unfold find_node. induction level as [|n level IH]; simpl; [reflexivity|].
  destruct (String.eqb (node_name n) part); [reflexivity | exact IH].
Qed.

Lemma find_node_app_new part level node :
  find_node part level = None -> node_name node = part ->
  find_node part (level ++ [node]) = Some node.
Proof.
  intros Hnone Hname. rewrite find_node_app, Hnone. unfold find_node. simpl.
  rewrite Hname, String.eqb_refl. reflexivity.
Qed.

Lemma find_node_app_other part level node :
  node_name node <> part ->
  find_node part (level ++ [node]) = find_node part level.
Proof.
  intros Hname. rewrite find_node_app.
  destruct (find_node part level); [reflexivity|]. unfold find_node. simpl.
  destruct (String.eqb_spec (node_name node) part); [contradiction | reflexivity].
Qed.

Lemma with_children_names part body level :
  map node_name (with_children part body level) = map node_name level.
Proof.
  induction level as [|n level IH]; simpl; [reflexivity|].
  destruct (String.eqb (node_name n) part).
  - destruct n; reflexivity.
  - simpl. now rewrite IH.
Qed.

(** Where the first node called [part] is a directory, [with_children]
    replaces its children and nothing else. *)
Lemma with_children_split part body level name p children :
  find_node part level = Some (DirectoryNode name p children) ->
  exists before after,
    level = (before ++ DirectoryNode name p children :: after)%list
    /\ ~ In part (map node_name before)
    /\ with_children part body level
       = (before ++ DirectoryNode name p (body children) :: after)%list.
Proof.
  unfold find_node. induction level as [|n level IH]; simpl; [discriminate|].
  destruct (String.eqb_spec (node_name n) part) as [E|E]; intros H.
  - injection H as ->. exists [], level. simpl. auto.
  - destruct (IH H) as (before & after & -> & Hnot & Hwc).
    exists (n :: before), after. simpl. rewrite Hwc.
    repeat split. intros [Hn|Hin]; [contradiction | now apply Hnot].
Qed.

Lemma with_children_find_same part body level name p children :
  find_node part level = Some (DirectoryNode name p children) ->
  find_node part (with_children part body level)
  = Some (DirectoryNode name p (body children)).
Proof.
  unfold find_node. induction level as [|n level IH]; simpl; [discriminate|].
  destruct (String.eqb_spec (node_name n) part) as [E|E]; intros H.
  - injection H as ->. simpl in *. rewrite E, String.eqb_refl. reflexivity.
  - simpl. destruct (String.eqb_spec (node_name n) part); [contradiction|].
    now apply IH.
Qed.

Lemma with_children_find_other part other body level :
  part <> other ->
  find_node other (with_children part body level) = find_node other level.
Proof.
  unfold find_node. intros Hne.
  induction level as [|n level IH]; simpl; [reflexivity|].
  destruct (String.eqb_spec (node_name n) part) as [E|E].
  - destruct n as [nm pp sz lg sp|nm pp ch]; simpl in *; subst part;
      (destruct (String.eqb_spec nm other); [contradiction | reflexivity]).
  - simpl. now rewrite IH.
Qed.

Lemma with_children_twice part body1 body2 level :
  with_children part body1 (with_children part body2 level)
  = with_children part (fun children => body1 (body2 children)) level.
Proof.
  induction level as [|n level IH]; simpl; [reflexivity|].
  destruct (String.eqb_spec (node_name n) part) as [E|E].
  - destruct n; simpl in *; rewrite E, String.eqb_refl; reflexivity.
  - simpl. destruct (String.eqb_spec (node_name n) part); [contradiction|].
    now rewrite IH.
Qed.

Lemma with_children_swap part1 part2 body1 body2 level :
  part1 <> part2 ->
  with_children part1 body1 (with_children part2 body2 level)
  = with_children part2 body2 (with_children part1 body1 level).
Proof.
  intros Hne. induction level as [|n level IH]; simpl; [reflexivity|].
  destruct (String.eqb_spec (node_name n) part2) as [E2|E2];
    destruct (String.eqb_spec (node_name n) part1) as [E1|E1].
  - congruence.
  - destruct n as [nm pp sz lg sp|nm pp ch]; simpl in *;
      destruct (String.eqb_spec nm part1); try contradiction;
      destruct (String.eqb_spec nm part2); try contradiction; reflexivity.
  - destruct n as [nm pp sz lg sp|nm pp ch]; simpl in *;
      destruct (String.eqb_spec nm part1); try contradiction;
      destruct (String.eqb_spec nm part2); try contradiction; reflexivity.
  - simpl.
    destruct (String.eqb_spec (node_name n) part1); [contradiction|].
    destruct (String.eqb_spec (node_name n) part2); [contradiction|].
    now rewrite IH.
Qed.

Lemma with_children_app part body level others :
  find_node part level <> None ->
  with_children part body (level ++ others)
  = (with_children part body level ++ others)%list.
Proof.
  unfold find_node. induction level as [|n level IH]; simpl; [congruence|].
  destruct (String.eqb_spec (node_name n) part) as [E|E]; intros H.
  - destruct n; reflexivity.
  - simpl. now rewrite IH.
Qed.

Lemma with_children_app_new part body level p children :
  find_node part level = None ->
  with_children part body (level ++ [DirectoryNode part p children])
  = (level ++ [DirectoryNode part p (body children)])%list.
Proof.
  unfold find_node. induction level as [|n level IH]; simpl.
  - intros _. now rewrite String.eqb_refl.
  - destruct (String.eqb_spec (node_name n) part) as [E|E]; [discriminate|].
    intros H. now rewrite IH.
Qed.

(** ** Placing one file *)

Section PlaceFacts.

Variable Content : Type.
Implicit Types (file : CodebaseFile Content) (level : list FileTreeNode).

Lemma existsb_app_true {A : Type} (f : A -> bool) (l l' : list A) :
  existsb f l = true -> existsb f (l ++ l') = true.
Proof. intros H. rewrite existsb_app, H. reflexivity. Qed.

Lemma place_nil_has_file file parts rest :
  rest <> [] -> forall i, existsb has_file (place file parts i rest []) = true.
Proof.
  induction rest as [|part rest IH]; intros Hne i; [contradiction|].
  destruct rest as [|next rest]; [reflexivity|].
  change (place file parts i (part :: next :: rest) [])
    with [DirectoryNode part (join "/" (firstn (i + 1) parts))
            (place file parts (S i) (next :: rest) [])].
  cbn [existsb has_file]. rewrite IH by discriminate. reflexivity.
Qed.

Lemma with_children_has_file part body level :
  (forall children, existsb has_file children = true ->
                    existsb has_file (body children) = true) ->
  existsb has_file level = true ->
  existsb has_file (with_children part body level) = true.
Proof.
  intros Hbody. induction level as [|n level IH]; simpl; [discriminate|].
  intros H. apply orb_true_iff in H.
  destruct (String.eqb (node_name n) part).
  - destruct n as [nm pp sz lg sp|nm pp ch]; simpl in *.
    + reflexivity.
    + apply orb_true_iff. destruct H as [H|H]; [left; now apply Hbody | now right].
  - simpl. apply orb_true_iff. destruct H as [H|H]; [now left | right; now apply IH].
Qed.

(** Placing a file never removes the files below a level. *)
Lemma place_keeps_files file parts rest :
  forall i level,
    existsb has_file level = true ->
    existsb has_file (place file parts i rest level) = true.
Proof.
  induction rest as [|part rest IH]; intros i level H; [exact H|].
  simpl. destruct (find_node part level) as [existing|].
  - destruct rest as [|next rest]; [exact H|].
    destruct (is_directory existing).
    + apply with_children_has_file; [|exact H].
      intros children. apply IH.
    + now apply IH.
  - destruct rest as [|next rest]; now apply existsb_app_true.
Qed.

Lemma with_children_populated part body level :
  (forall children,
      existsb has_file children = true -> all_populated children = true ->
      existsb has_file (body children) = true
      /\ all_populated (body children) = true) ->
  all_populated level = true ->
  all_populated (with_children part body level) = true.
Proof.
  unfold all_populated. intros Hbody.
  induction level as [|n level IH]; simpl; [reflexivity|].
  intros H. apply andb_true_iff in H. destruct H as [Hn Hl].
  destruct (String.eqb (node_name n) part).
  - destruct n as [nm pp sz lg sp|nm pp ch]; simpl in *.
    + exact Hl.
    + apply andb_true_iff in Hn. destruct Hn as [Hf Hp].
      destruct (Hbody ch Hf Hp) as [Hf' Hp'].
      unfold all_populated in Hp'. now rewrite Hf', Hp', Hl.
  - simpl. rewrite Hn. now apply IH.
Qed.

(** Placing a file keeps every directory populated. *)
Lemma place_populated file parts rest :
  forall i level,
    all_populated level = true ->
    all_populated (place file parts i rest level) = true.
Proof.
  induction rest as [|part rest IH]; intros i level H; [exact H|].
  simpl. destruct (find_node part level) as [existing|].
  - destruct rest as [|next rest]; [exact H|].
    destruct (is_directory existing).
    + apply with_children_populated; [|exact H].
      intros children Hf Hp. split; [now apply place_keeps_files | now apply IH].
    + now apply IH.
  - unfold all_populated in *.
    destruct rest as [|next rest]; rewrite forallb_app, H; [reflexivity|].
    cbn [forallb directories_populated].
    rewrite place_nil_has_file by discriminate.
    rewrite IH by reflexivity. reflexivity.
Qed.

(** *** Unique names *)

Lemma unique_names_nil : unique_names [].
Proof. constructor; [constructor | intros ? ? ? []]. Qed.

Lemma unique_names_children level name p children :
  unique_names level -> In (DirectoryNode name p children) level ->
  unique_names children.
Proof. intros H. inversion H; subst. eauto. Qed.

Lemma unique_names_nodup level :
  unique_names level -> NoDup (map node_name level).
Proof. intros H. now inversion H. Qed.

Lemma unique_names_app_new level node :
  unique_names level -> find_node (node_name node) level = None ->
  (forall name p children,
      node = DirectoryNode name p children -> unique_names children) ->
  unique_names (level ++ [node]).
Proof.
  intros Hu Hnone Hnode. inversion Hu as [? Hnd Hch]; subst.
  constructor.
  - rewrite map_app. simpl.
    apply find_node_none in Hnone.
    apply NoDup_app; [exact Hnd | repeat constructor; intros [] | ].
    intros x Hx [<-|[]]. contradiction.
  - intros name p children Hin. apply in_app_or in Hin.
    destruct Hin as [Hin|[Hin|[]]]; [eauto|].
    eapply Hnode. exact Hin.
Qed.

Lemma unique_names_with_children part body level :
  unique_names level ->
  (forall children, unique_names children -> unique_names (body children)) ->
  unique_names (with_children part body level).
Proof.
  intros Hu Hbody. inversion Hu as [? Hnd Hch]; subst.
  constructor; [now rewrite with_children_names|].
  clear Hnd Hu. induction level as [|n level IH]; simpl; [intros ? ? ? []|].
  destruct (String.eqb (node_name n) part).
  - destruct n as [nm pp sz lg sp|nm pp ch].
    + exact Hch.
    + intros name p children [Heq|Hin].
      * injection Heq as <- <- <-. apply Hbody. eapply Hch. now left.
      * eapply Hch. right. exact Hin.
  - intros name p children [Heq|Hin].
    + eapply Hch. left. exact Heq.
    + eapply IH; [|exact Hin]. intros. eapply Hch. right. eassumption.
Qed.

Lemma unique_names_app_file level name p size language isSupported :
  unique_names level -> find_node name level = None ->
  unique_names (level ++ [FileNode name p size language isSupported]).
Proof.
  intros Hu Hnone. apply unique_names_app_new;
    [exact Hu | exact Hnone | discriminate].
Qed.

Lemma unique_names_app_directory level name p children :
  unique_names level -> find_node name level = None ->
  unique_names children ->
  unique_names (level ++ [DirectoryNode name p children]).
Proof.
  intros Hu Hnone Hc. apply unique_names_app_new; [exact Hu | exact Hnone |].
  intros name' p' children' E. now injection E as _ _ <-.
Qed.

(** Placing a file keeps the names of siblings distinct. *)
Lemma place_unique_names file parts rest :
  forall i level,
    unique_names level -> unique_names (place file parts i rest level).
Proof.
  induction rest as [|part rest IH]; intros i level Hu; [exact Hu|].
  simpl. destruct (find_node part level) as [existing|] eqn:Hfind.
  - destruct rest as [|next rest]; [exact Hu|].
    destruct (is_directory existing).
    + apply unique_names_with_children; [exact Hu|]. intros. now apply IH.
    + now apply IH.
  - destruct rest as [|next rest].
    + now apply unique_names_app_file.
    + apply unique_names_app_directory; [exact Hu | exact Hfind |].
      apply IH. apply unique_names_nil.
Qed.

End PlaceFacts.

(** ** Placing two files *)

Section CompatibleFacts.

Variable Content : Type.
Implicit Types (file : CodebaseFile Content) (level : list FileTreeNode).

Lemma new_node_name file parts i part rest :
  node_name (new_node file parts i part rest) = part.
Proof. destruct rest; reflexivity. Qed.

Lemma place_none file parts i part rest level :
  find_node part level = None ->
  place file parts i (part :: rest) level
  = (level ++ [new_node file parts i part rest])%list.
Proof.
  intros H. cbn [place]. rewrite H. destruct rest; reflexivity.
Qed.

Lemma place_directory file parts i part rest level name p children :
  find_node part level = Some (DirectoryNode name p children) ->
  rest <> [] ->
  place file parts i (part :: rest) level
  = with_children part (place file parts (S i) rest) level.
Proof.
  intros H Hne. cbn [place]. rewrite H.
  destruct rest; [contradiction | reflexivity].
Qed.

Lemma compatible_nil rest : compatible rest [].
Proof. destruct rest; exact I. Qed.

Lemma compatible_cases part rest level :
  compatible (part :: rest) level ->
  find_node part level = None
  \/ exists name p children,
       find_node part level = Some (DirectoryNode name p children)
       /\ rest <> [] /\ compatible rest children.
Proof.
  cbn [compatible].
  destruct (find_node part level) as [[nm pp sz lg sp|nm pp ch]|].
  - contradiction.
  - intros [Hne Hc]. right. exists nm, pp, ch. auto.
  - auto.
Qed.

Lemma diverge_nonempty a b : diverge a b -> a <> [] /\ b <> [].
Proof. destruct a, b; simpl; intros H; try contradiction; split; discriminate. Qed.

Lemma diverge_sym a b : diverge a b -> diverge b a.
Proof.
  revert b. induction a as [|x a IH]; intros [|y b] H; simpl in *;
    try contradiction.
  destruct H as [H|H]; [left; congruence | right; now apply IH].
Qed.

Lemma diverge_same_head part a b :
  diverge (part :: a) (part :: b) -> diverge a b.
Proof. simpl. intros [H|H]; [contradiction | exact H]. Qed.

(** A file placed under another first segment leaves a lookup alone. *)
Lemma place_find_other file parts i part rest level other :
  part <> other -> compatible (part :: rest) level ->
  find_node other (place file parts i (part :: rest) level)
  = find_node other level.
Proof.
  intros Hne Hc. destruct (compatible_cases _ _ _ Hc)
    as [Hnone|(nm & pp & ch & Hfind & Hrest & _)].
  - rewrite place_none by exact Hnone.
    apply find_node_app_other. now rewrite new_node_name.
  - erewrite place_directory by eassumption.
    now apply with_children_find_other.
Qed.

(** Placing a file leaves the level fit for a file on a diverging path. *)
Lemma place_compatible file parts rest1 :
  forall rest2 i level,
    diverge rest1 rest2 ->
    compatible rest1 level -> compatible rest2 level ->
    compatible rest2 (place file parts i rest1 level).
Proof.
  induction rest1 as [|p1 rest1 IH];
    intros [|p2 rest2] i level Hd H1 H2; try contradiction.
  destruct (string_dec p1 p2) as [->|Hne].
  - apply diverge_same_head in Hd.
    destruct (diverge_nonempty _ _ Hd) as [Hne1 Hne2].
    destruct (compatible_cases _ _ _ H1)
      as [Hnone|(nm & pp & ch & Hfind & _ & Hc1)].
    + rewrite place_none by exact Hnone.
      destruct rest1 as [|q rest1]; [contradiction|].
      cbn [new_node compatible].
      rewrite (find_node_app_new p2 level
                 (DirectoryNode p2 (join "/" (firstn (i + 1) parts))
                    (place file parts (S i) (q :: rest1) []))
                 Hnone eq_refl).
      split; [exact Hne2|].
      apply IH; [exact Hd | apply compatible_nil | apply compatible_nil].
    + erewrite place_directory by eassumption.
      cbn [compatible] in *.
      rewrite (with_children_find_same _ _ _ _ _ _ Hfind).
      rewrite Hfind in H2. destruct H2 as [_ Hc2].
      split; [exact Hne2|]. now apply IH.
  - cbn [compatible] in H2 |- *.
    rewrite place_find_other by assumption. exact H2.
Qed.

End CompatibleFacts.

(** ** Sorting a tree *)

Section SortNodesFacts.

Variable localeCompare : string -> string -> Z.


Lemma sortNode_name node : node_name ((sortNode localeCompare) node) = node_name node.
Proof. destruct node; reflexivity. Qed.

Lemma sortNode_is_directory node :
  is_directory ((sortNode localeCompare) node) = is_directory node.
Proof. destruct node; reflexivity. Qed.

Lemma sortNode_names level :
  map node_name (map (sortNode localeCompare) level) = map node_name level.
Proof.
  rewrite map_map. apply map_ext. intros n. apply sortNode_name.
Qed.

Lemma compare_sortNode a b :
  (compare_nodes localeCompare) ((sortNode localeCompare) a) ((sortNode localeCompare) b) = (compare_nodes localeCompare) a b.
Proof.
  unfold compare_nodes.
  now rewrite !sortNode_is_directory, !sortNode_name.
Qed.

(** [(sortNodes localeCompare)] satisfies the equation by which the source defines it: the
    level is sorted, then the children of every directory are. *)
Lemma sortNodes_unfold nodes :
  (sortNodes localeCompare) nodes
  = map (fun node =>
           match node with
           | DirectoryNode name p children =>
               DirectoryNode name p ((sortNodes localeCompare) children)
           | FileNode _ _ _ _ _ => node
           end)
      (sort (compare_nodes localeCompare) nodes).
Proof.
  unfold sortNodes at 1.
  rewrite sort_map by apply compare_sortNode.
  apply map_ext. intros [nm pp sz lg sp|nm pp ch]; reflexivity.
Qed.

Lemma compare_nodes_precedes a b :
  ((compare_nodes localeCompare) a b <= 0)%Z <-> (precedes localeCompare) a b.
Proof.
  unfold compare_nodes, precedes.
  destruct (is_directory a), (is_directory b); simpl; lia.
Qed.

Lemma sorted_by_compare_nodes level :
  StronglySorted (fun a b => ((compare_nodes localeCompare) a b <= 0)%Z) level <->
  StronglySorted (precedes localeCompare) level.
Proof.
  split; induction 1 as [|x l Hs IH Hall]; constructor; try exact IH;
    (eapply Forall_impl; [|exact Hall]); intros y; apply compare_nodes_precedes.
Qed.

(** A node of a sorted level comes from a node of the level. *)
Lemma in_sortNodes node level :
  In node ((sortNodes localeCompare) level) -> exists n, In n level /\ node = (sortNode localeCompare) n.
Proof.
  unfold sortNodes. intros H.
  apply (Permutation_in _ (sort_perm _ _ _)) in H.
  apply in_map_iff in H. destruct H as (n & <- & Hin). eauto.
Qed.

Hypothesis localeCompare_total :
  forall a b, (localeCompare a b <= 0 \/ localeCompare b a <= 0)%Z.
Hypothesis localeCompare_trans :
  forall a b c,
    (localeCompare a b <= 0 -> localeCompare b c <= 0 ->
     localeCompare a c <= 0)%Z.

Lemma compare_nodes_total a b :
  ((compare_nodes localeCompare) a b <= 0 \/ (compare_nodes localeCompare) b a <= 0)%Z.
Proof.
  unfold compare_nodes.
  destruct (is_directory a), (is_directory b); simpl;
    try apply localeCompare_total; lia.
Qed.

Lemma compare_nodes_trans a b c :
  ((compare_nodes localeCompare) a b <= 0 -> (compare_nodes localeCompare) b c <= 0 ->
   (compare_nodes localeCompare) a c <= 0)%Z.
Proof.
  unfold compare_nodes.
  destruct (is_directory a), (is_directory b), (is_directory c); simpl;
    try apply localeCompare_trans; lia.
Qed.

Lemma sortNodes_level_sorted level : StronglySorted (precedes localeCompare) ((sortNodes localeCompare) level).
Proof.
  apply sorted_by_compare_nodes. unfold sortNodes.
  apply sort_sorted; [apply compare_nodes_total | apply compare_nodes_trans].
Qed.

(** The output of [(sortNodes localeCompare)] meets the sort contract at every level. *)
Lemma sortNodes_sorted_tree level : (sorted_tree localeCompare) ((sortNodes localeCompare) level).
Proof.
  assert (Hnode : forall node,
             match node with
             | DirectoryNode _ _ children => (sorted_tree localeCompare) ((sortNodes localeCompare) children)
             | FileNode _ _ _ _ _ => True
             end).
  { induction node as [|nm pp ch IH] using FileTreeNode_induction; [exact I|].
    constructor; [apply sortNodes_level_sorted|].
    intros name p children Hin.
    apply in_sortNodes in Hin. destruct Hin as (n & Hn & E).
    rewrite Forall_forall in IH. specialize (IH n Hn).
    destruct n as [|nm' pp' ch']; [discriminate|].
    injection E as -> -> ->. exact IH. }
  constructor; [apply sortNodes_level_sorted|].
  intros name p children Hin.
  apply in_sortNodes in Hin. destruct Hin as (n & Hn & E).
  specialize (Hnode n).
  destruct n as [|nm' pp' ch']; [discriminate|].
  injection E as -> -> ->. exact Hnode.
Qed.

Lemma sortNode_idempotent node : (sortNode localeCompare) ((sortNode localeCompare) node) = (sortNode localeCompare) node.
Proof.
  induction node as [|nm pp ch IH] using FileTreeNode_induction;
    [reflexivity|].
  cbn [sortNode]. f_equal.
  rewrite <- sort_map by apply compare_sortNode.
  rewrite map_map.
  rewrite (map_ext_in _ (sortNode localeCompare))
    by (intros n Hn; rewrite Forall_forall in IH; now apply IH).
  apply sort_sorted_id.
  apply sort_sorted; [apply compare_nodes_total | apply compare_nodes_trans].
Qed.

(** Sorting a sorted tree again changes nothing. *)
Lemma sortNodes_idempotent level : (sortNodes localeCompare) ((sortNodes localeCompare) level) = (sortNodes localeCompare) level.
Proof.
  unfold sortNodes.
  rewrite <- sort_map by apply compare_sortNode.
  rewrite map_map.
  rewrite (map_ext _ (sortNode localeCompare)) by apply sortNode_idempotent.
  apply sort_sorted_id.
  apply sort_sorted; [apply compare_nodes_total | apply compare_nodes_trans].
Qed.

Hypothesis localeCompare_antisym :
  forall a b,
    (localeCompare a b <= 0)%Z -> (localeCompare b a <= 0)%Z -> a = b.

Lemma compare_nodes_same_name a b :
  (compare_nodes localeCompare a b <= 0)%Z ->
  (compare_nodes localeCompare b a <= 0)%Z ->
  node_name a = node_name b.
Proof.
  unfold compare_nodes.
  destruct (is_directory a), (is_directory b); simpl;
    try (intros; now apply localeCompare_antisym); lia.
Qed.

Lemma same_name_same_node level a b :
  NoDup (map node_name level) -> In a level -> In b level ->
  node_name a = node_name b -> a = b.
Proof.
  intros Hnd Ha Hb E.
  pose proof (find_node_unique _ _ _ Hnd Ha E) as H1.
  pose proof (find_node_unique _ _ _ Hnd Hb eq_refl) as H2.
  congruence.
Qed.

(** Levels with distinct names that hold the same sorted nodes, in any
    order, sort to the same array. *)
Lemma sortNodes_permuted level level' :
  Permutation (map (sortNode localeCompare) level)
    (map (sortNode localeCompare) level') ->
  NoDup (map node_name level) ->
  sortNodes localeCompare level = sortNodes localeCompare level'.
Proof.
  intros Hp Hnd. unfold sortNodes.
  apply sort_permuted;
    [apply compare_nodes_total | apply compare_nodes_trans | exact Hp |].
  intros a b Ha Hb Hab Hba.
  apply (same_name_same_node (map (sortNode localeCompare) level));
    [now rewrite sortNode_names | exact Ha | exact Hb |].
  now apply compare_nodes_same_name.
Qed.

Lemma sortNodes_same_elements level level' :
  sortNodes localeCompare level = sortNodes localeCompare level' ->
  Permutation (map (sortNode localeCompare) level)
    (map (sortNode localeCompare) level').
Proof.
  unfold sortNodes. intros H.
  rewrite <- (sort_perm _ (compare_nodes localeCompare)
                (map (sortNode localeCompare) level)), H.
  apply sort_perm.
Qed.

Lemma sortNodes_same_nodup level level' :
  sortNodes localeCompare level = sortNodes localeCompare level' ->
  NoDup (map node_name level) -> NoDup (map node_name level').
Proof.
  intros H Hnd. apply sortNodes_same_elements in H.
  apply (Permutation_map node_name) in H. rewrite !sortNode_names in H.
  eapply Permutation_NoDup; eassumption.
Qed.

(** In two such levels a name is looked up with the same result, up to the
    order below it. *)
Lemma sortNodes_same_find level level' part :
  sortNodes localeCompare level = sortNodes localeCompare level' ->
  NoDup (map node_name level) ->
  match find_node part level, find_node part level' with
  | Some n, Some n' => sortNode localeCompare n = sortNode localeCompare n'
  | None, None => True
  | _, _ => False
  end.
Proof.
  intros H Hnd.
  pose proof (sortNodes_same_nodup _ _ H Hnd) as Hnd'.
  apply sortNodes_same_elements in H.
  destruct (find_node part level) as [n|] eqn:Hf.
  - apply find_node_name in Hf. destruct Hf as [Hin Hname].
    assert (Hs : In (sortNode localeCompare n)
                   (map (sortNode localeCompare) level'))
      by (eapply Permutation_in; [exact H | now apply in_map]).
    apply in_map_iff in Hs. destruct Hs as (n' & E & Hin').
    rewrite (find_node_unique part level' n' Hnd' Hin').
    + now symmetry.
    + rewrite <- Hname, <- (sortNode_name n'), E. apply sortNode_name.
  - destruct (find_node part level') as [n'|] eqn:Hf'; [|exact I].
    apply find_node_name in Hf'. destruct Hf' as [Hin' Hname'].
    apply find_node_none in Hf. apply Hf.
    apply (Permutation_map node_name) in H. rewrite !sortNode_names in H.
    eapply Permutation_in; [apply Permutation_sym; exact H|].
    rewrite <- Hname'. now apply in_map.
Qed.

Lemma with_children_same_sorted part body level level' name p children children' :
  NoDup (map node_name level) ->
  sortNodes localeCompare level = sortNodes localeCompare level' ->
  find_node part level = Some (DirectoryNode name p children) ->
  find_node part level' = Some (DirectoryNode name p children') ->
  sortNodes localeCompare children = sortNodes localeCompare children' ->
  sortNodes localeCompare (body children)
  = sortNodes localeCompare (body children') ->
  sortNodes localeCompare (with_children part body level)
  = sortNodes localeCompare (with_children part body level').
Proof.
  intros Hnd Hsame Hf Hf' Hch Hbody.
  apply sortNodes_same_elements in Hsame.
  destruct (with_children_split part body _ _ _ _ Hf)
    as (b & a & -> & _ & ->).
  destruct (with_children_split part body _ _ _ _ Hf')
    as (b' & a' & -> & _ & ->).
  apply sortNodes_permuted.
  - rewrite !map_app in *. cbn [map sortNode] in *.
    fold (sortNodes localeCompare children) in Hsame.
    fold (sortNodes localeCompare children') in Hsame.
    fold (sortNodes localeCompare (body children)).
    fold (sortNodes localeCompare (body children')).
    rewrite Hch in Hsame. rewrite Hbody.
    apply Permutation_app_inv in Hsame.
    now apply Permutation_elt.
  - rewrite !map_app in *. exact Hnd.
Qed.

(** Placing a file in two levels that sort to the same array gives two
    levels that sort to the same array. *)
Lemma place_same_sorted (Content : Type) (file : CodebaseFile Content) parts rest :
  forall i level level',
    unique_names level -> unique_names level' ->
    sortNodes localeCompare level = sortNodes localeCompare level' ->
    sortNodes localeCompare (place file parts i rest level)
    = sortNodes localeCompare (place file parts i rest level').
Proof.
  induction rest as [|part rest IH]; intros i level level' Hu Hu' Hsame;
    [exact Hsame|].
  pose proof (sortNodes_same_find level level' part Hsame
                (unique_names_nodup _ Hu)) as Hfind.
  destruct (find_node part level) as [n|] eqn:Hf;
    destruct (find_node part level') as [n'|] eqn:Hf'; try contradiction.
  - destruct rest as [|next rest].
    { cbn [place]. now rewrite Hf, Hf'. }
    destruct n as [nm pp sz lg sp|nm pp ch];
      destruct n' as [nm' pp' sz' lg' sp'|nm' pp' ch']; try discriminate.
    + cbn [place]. rewrite Hf, Hf'. cbn [is_directory]. now apply IH.
    + injection Hfind as -> -> Hch.
      erewrite !place_directory by (eassumption || discriminate).
      eapply with_children_same_sorted; try eassumption.
      * exact (unique_names_nodup _ Hu).
      * apply IH; [| | exact Hch].
        -- apply find_node_name in Hf.
           eapply unique_names_children; [exact Hu | apply Hf].
        -- apply find_node_name in Hf'.
           eapply unique_names_children; [exact Hu' | apply Hf'].
  - rewrite !place_none by assumption.
    apply sortNodes_permuted.
    + rewrite !map_app. apply Permutation_app_tail.
      now apply sortNodes_same_elements.
    + pose proof (place_unique_names Content file parts (part :: rest) i level Hu)
        as Hp.
      rewrite place_none in Hp by assumption.
      exact (unique_names_nodup _ Hp).
Qed.

(** ** Two files on diverging paths can be placed in either order *)

Lemma skipn_step {A : Type} (i : nat) (l : list A) x r :
  skipn i l = x :: r ->
  firstn (i + 1) l = (firstn i l ++ [x])%list
  /\ firstn (S i) l = (firstn i l ++ [x])%list
  /\ skipn (S i) l = r.
Proof.
  revert l. induction i as [|i IH]; intros [|a l] H; try discriminate.
  - injection H as -> ->. auto.
  - simpl in H. destruct (IH l H) as (H1 & H2 & H3).
    change (firstn (S i + 1) (a :: l)) with (a :: firstn (i + 1) l).
    change (firstn (S (S i)) (a :: l)) with (a :: firstn (S i) l).
    change (skipn (S (S i)) (a :: l)) with (skipn (S i) l).
    change (firstn (S i) (a :: l)) with (a :: firstn i l).
    rewrite H1, H2. auto.
Qed.

Lemma with_children_body_sorted part body body' level name p children :
  find_node part level = Some (DirectoryNode name p children) ->
  sortNodes localeCompare (body children)
  = sortNodes localeCompare (body' children) ->
  map (sortNode localeCompare) (with_children part body level)
  = map (sortNode localeCompare) (with_children part body' level).
Proof.
  unfold find_node. intros Hf Hb.
  induction level as [|n level IH]; simpl in *; [discriminate|].
  destruct (String.eqb (node_name n) part).
  - injection Hf as ->. cbn [map sortNode].
    fold (sortNodes localeCompare (body children)).
    fold (sortNodes localeCompare (body' children)).
    now rewrite Hb.
  - cbn [map]. f_equal. now apply IH.
Qed.

Lemma place_commute (Content : Type) (file1 file2 : CodebaseFile Content)
    parts1 parts2 rest1 :
  forall rest2 i level,
    firstn i parts1 = firstn i parts2 ->
    skipn i parts1 = rest1 -> skipn i parts2 = rest2 ->
    unique_names level ->
    diverge rest1 rest2 ->
    compatible rest1 level -> compatible rest2 level ->
    sortNodes localeCompare
      (place file1 parts1 i rest1 (place file2 parts2 i rest2 level))
    = sortNodes localeCompare
        (place file2 parts2 i rest2 (place file1 parts1 i rest1 level)).
Proof.
  induction rest1 as [|p1 r1 IH];
    intros [|p2 r2] i level Hpre Hs1 Hs2 Hu Hd H1 H2; try contradiction.
  destruct (skipn_step _ _ _ _ Hs1) as (Hf1 & Hf1' & Hk1).
  destruct (skipn_step _ _ _ _ Hs2) as (Hf2 & Hf2' & Hk2).
  destruct (string_dec p1 p2) as [->|Hne].
  - (* both paths go through the same node *)
    apply diverge_same_head in Hd.
    destruct (diverge_nonempty _ _ Hd) as [Hn1 Hn2].
    assert (Hpath : firstn (i + 1) parts1 = firstn (i + 1) parts2)
      by (now rewrite Hf1, Hf2, Hpre).
    assert (Hpre' : firstn (S i) parts1 = firstn (S i) parts2)
      by (now rewrite Hf1', Hf2', Hpre).
    destruct (compatible_cases _ _ _ H1)
      as [Hnone|(nm & pp & ch & Hfind & _ & Hc1)].
    + rewrite (place_none _ file2 parts2 i p2 r2 level Hnone).
      rewrite (place_none _ file1 parts1 i p2 r1 level Hnone).
      destruct r1 as [|q1 r1]; [contradiction|].
      destruct r2 as [|q2 r2]; [contradiction|].
      cbn [new_node].
      erewrite (place_directory _ file1 parts1 i p2 (q1 :: r1));
        [| now apply find_node_app_new | discriminate].
      erewrite (place_directory _ file2 parts2 i p2 (q2 :: r2));
        [| now apply find_node_app_new | discriminate].
      rewrite !with_children_app_new by exact Hnone.
      pose proof (IH (q2 :: r2) (S i) [] Hpre' Hk1 Hk2 unique_names_nil Hd
                    (compatible_nil _) (compatible_nil _)) as IHc.
      unfold sortNodes in IHc |- *.
      rewrite !map_app. cbn [map sortNode]. now rewrite IHc, Hpath.
    + cbn [compatible] in H2. rewrite Hfind in H2. destruct H2 as [_ Hc2].
      rewrite (place_directory _ file2 parts2 i p2 r2 level _ _ _ Hfind Hn2).
      rewrite (place_directory _ file1 parts1 i p2 r1 level _ _ _ Hfind Hn1).
      erewrite (place_directory _ file1 parts1 i p2 r1);
        [| eapply with_children_find_same; exact Hfind | exact Hn1].
      erewrite (place_directory _ file2 parts2 i p2 r2);
        [| eapply with_children_find_same; exact Hfind | exact Hn2].
      rewrite !with_children_twice.
      unfold sortNodes. f_equal.
      eapply with_children_body_sorted; [exact Hfind|].
      apply IH; try assumption.
      apply find_node_name in Hfind.
      eapply unique_names_children; [exact Hu | apply Hfind].
  - (* the paths part at this level *)
    destruct (compatible_cases _ _ _ H1)
      as [N1|(nm1 & pp1 & ch1 & F1 & R1 & _)];
      destruct (compatible_cases _ _ _ H2)
        as [N2|(nm2 & pp2 & ch2 & F2 & R2 & _)].
    + pose proof (place_unique_names _ file1 parts1 (p1 :: r1) i _
                    (place_unique_names _ file2 parts2 (p2 :: r2) i _ Hu))
        as Hboth.
      rewrite (place_none _ file2 parts2 i p2 r2 level N2) in Hboth |- *.
      rewrite (place_none _ file1 parts1 i p1 r1 level N1).
      rewrite (place_none _ file1 parts1 i p1 r1) in Hboth |- *
        by (rewrite find_node_app_other;
            [exact N1 | rewrite new_node_name; congruence]).
      rewrite (place_none _ file2 parts2 i p2 r2)
        by (rewrite find_node_app_other;
            [exact N2 | rewrite new_node_name; congruence]).
      apply sortNodes_permuted; [|exact (unique_names_nodup _ Hboth)].
      apply Permutation_map. rewrite <- !app_assoc.
      apply Permutation_app_head. apply perm_swap.
    + rewrite (place_directory _ file2 parts2 i p2 r2 level _ _ _ F2 R2).
      rewrite (place_none _ file1 parts1 i p1 r1 level N1).
      rewrite (place_none _ file1 parts1 i p1 r1)
        by (rewrite with_children_find_other; [exact N1 | congruence]).
      erewrite (place_directory _ file2 parts2 i p2 r2);
        [| rewrite find_node_app, F2; reflexivity | exact R2].
      rewrite with_children_app by (rewrite F2; discriminate).
      reflexivity.
    + rewrite (place_none _ file2 parts2 i p2 r2 level N2).
      rewrite (place_directory _ file1 parts1 i p1 r1 level _ _ _ F1 R1).
      rewrite (place_none _ file2 parts2 i p2 r2)
        by (rewrite with_children_find_other; [exact N2 | congruence]).
      erewrite (place_directory _ file1 parts1 i p1 r1);
        [| rewrite find_node_app, F1; reflexivity | exact R1].
      rewrite with_children_app by (rewrite F1; discriminate).
      reflexivity.
    + rewrite (place_directory _ file2 parts2 i p2 r2 level _ _ _ F2 R2).
      rewrite (place_directory _ file1 parts1 i p1 r1 level _ _ _ F1 R1).
      erewrite (place_directory _ file1 parts1 i p1 r1);
        [| rewrite with_children_find_other; [exact F1 | congruence]
         | exact R1].
      erewrite (place_directory _ file2 parts2 i p2 r2);
        [| rewrite with_children_find_other; [exact F2 | congruence]
         | exact R2].
      rewrite with_children_swap by exact Hne. reflexivity.
Qed.

(** ** Adding the files of a list *)

Lemma add_file_unique_names (Content : Type) (file : CodebaseFile Content) level :
  unique_names level -> unique_names (add_file level file).
Proof. apply place_unique_names. Qed.

Lemma fold_add_same_sorted (Content : Type) (files : list (CodebaseFile Content)) :
  forall level level',
    unique_names level -> unique_names level' ->
    sortNodes localeCompare level = sortNodes localeCompare level' ->
    sortNodes localeCompare (fold_left add_file files level)
    = sortNodes localeCompare (fold_left add_file files level').
Proof.
  induction files as [|file files IH]; intros level level' Hu Hu' H;
    [exact H|].
  simpl. apply IH; try now apply add_file_unique_names.
  now apply place_same_sorted.
Qed.

Lemma proper_prefix_or_diverge a :
  forall b,
    proper_prefix a b = false -> proper_prefix b a = false ->
    a = b \/ diverge a b.
Proof.
  induction a as [|x a IH]; intros [|y b] Hab Hba; simpl in *;
    try discriminate; [now left|].
  destruct (String.eqb_spec x y) as [->|Hne].
  - rewrite String.eqb_refl in Hba. simpl in *.
    destruct (IH b Hab Hba) as [->|Hd]; [now left | right; now right].
  - right. now left.
Qed.

Lemma split_nonempty sep s : split sep s <> [].
Proof.
  destruct s as [|c r]; simpl; [discriminate|].
  destruct (Ascii.eqb c sep); [discriminate|].
  destruct (split sep r); discriminate.
Qed.

Lemma concat_two sep x y l :
  String.concat sep (x :: y :: l) = x ++ sep ++ String.concat sep (y :: l).
Proof. reflexivity. Qed.

(** [join] undoes [split]. *)
Lemma join_split s : join "/" (split "/" s) = s.
Proof.
  unfold join. induction s as [|c r IH]; [reflexivity|].
  cbn [split]. pose proof (split_nonempty "/" r) as Hne.
  destruct (Ascii.eqb_spec c "/") as [->|Hc].
  - destruct (split "/" r) as [|h t]; [contradiction|].
    rewrite concat_two, IH. reflexivity.
  - destruct (split "/" r) as [|h t]; [contradiction|].
    destruct t as [|h' t].
    + change (h = r) in IH. now subst h.
    + rewrite concat_two in *. rewrite <- IH. reflexivity.
Qed.

Lemma parts_of_injective (Content : Type) (f g : CodebaseFile Content) :
  parts_of f = parts_of g -> file_path f = file_path g.
Proof.
  unfold parts_of. intros H.
  rewrite <- (join_split (file_path f)), <- (join_split (file_path g)).
  now rewrite H.
Qed.

Lemma parts_of_nodup (Content : Type) (files : list (CodebaseFile Content)) :
  NoDup (map file_path files) -> NoDup (map parts_of files).
Proof.
  induction files as [|f files IH]; simpl; intros H; [constructor|].
  inversion H as [|? ? Hnotin Hnd]; subst.
  constructor; [|now apply IH].
  intros Hin. apply Hnotin.
  apply in_map_iff in Hin. destruct Hin as (g & E & Hg).
  apply parts_of_injective in E. rewrite <- E. now apply in_map.
Qed.

(** The files of a list can be added in any order as long as their paths
    diverge pairwise and fit the level they are added to. *)
Lemma fold_add_permuted (Content : Type) (files files' : list (CodebaseFile Content)) :
  Permutation files files' ->
  forall level,
    unique_names level ->
    (forall f, In f files -> compatible (parts_of f) level) ->
    NoDup (map parts_of files) ->
    (forall f g, In f files -> In g files ->
                 parts_of f = parts_of g \/ diverge (parts_of f) (parts_of g)) ->
    sortNodes localeCompare (fold_left add_file files level)
    = sortNodes localeCompare (fold_left add_file files' level).
Proof.
  induction 1 as [|x l l' Hp IH|x y l|l l' l'' Hp1 IH1 Hp2 IH2];
    intros level Hu Hfit Hnd Hdiv.
  - reflexivity.
  - simpl. inversion Hnd as [|? ? Hx Hnd']; subst.
    apply IH; [now apply add_file_unique_names | | exact Hnd' |].
    + intros f Hf. apply place_compatible.
      * destruct (Hdiv x f (or_introl eq_refl) (or_intror Hf)) as [E|Hd];
          [|exact Hd].
        exfalso. apply Hx. rewrite E. now apply in_map.
      * apply Hfit. now left.
      * apply Hfit. now right.
    + intros f g Hf Hg. apply Hdiv; now right.
  - simpl. inversion Hnd as [|? ? Hy Hnd']; subst.
    apply fold_add_same_sorted;
      try (now repeat apply add_file_unique_names).
    apply place_commute; try reflexivity; try exact Hu.
    + destruct (Hdiv x y (or_intror (or_introl eq_refl)) (or_introl eq_refl))
        as [E|Hd]; [|exact Hd].
      exfalso. apply Hy. rewrite <- E. now left.
    + apply Hfit. right. now left.
    + apply Hfit. now left.
  - rewrite (IH1 level Hu Hfit Hnd Hdiv).
    apply IH2; [exact Hu | | |].
    + intros f Hf. apply Hfit.
      eapply Permutation_in; [apply Permutation_sym; exact Hp1 | exact Hf].
    + eapply Permutation_NoDup; [|exact Hnd]. now apply Permutation_map.
    + intros f g Hf Hg. apply Hdiv;
        (eapply Permutation_in; [apply Permutation_sym; exact Hp1 | assumption]).
Qed.

(** ** Sorting keeps directories populated *)

Lemma existsb_permuted {A : Type} (f : A -> bool) (l l' : list A) :
  Permutation l l' -> existsb f l = existsb f l'.
Proof.
  induction 1 as [|x l l' _ IH|x y l|l l' l'' _ IH1 _ IH2]; simpl.
  - reflexivity.
  - now rewrite IH.
  - destruct (f x), (f y); reflexivity.
  - congruence.
Qed.

Lemma forallb_permuted {A : Type} (f : A -> bool) (l l' : list A) :
  Permutation l l' -> forallb f l = forallb f l'.
Proof.
  induction 1 as [|x l l' _ IH|x y l|l l' l'' _ IH1 _ IH2]; simpl.
  - reflexivity.
  - now rewrite IH.
  - destruct (f x), (f y); reflexivity.
  - congruence.
Qed.

Lemma existsb_map_same {A : Type} (f : A -> bool) (g : A -> A) (l : list A) :
  Forall (fun x => f (g x) = f x) l -> existsb f (map g l) = existsb f l.
Proof. induction 1 as [|x l Hx _ IH]; simpl; [reflexivity | now rewrite Hx, IH]. Qed.

Lemma forallb_map_same {A : Type} (f : A -> bool) (g : A -> A) (l : list A) :
  Forall (fun x => f (g x) = f x) l -> forallb f (map g l) = forallb f l.
Proof. induction 1 as [|x l Hx _ IH]; simpl; [reflexivity | now rewrite Hx, IH]. Qed.

Lemma has_file_sortNode node :
  has_file (sortNode localeCompare node) = has_file node.
Proof.
  induction node as [|nm pp ch IH] using FileTreeNode_induction;
    [reflexivity|].
  cbn [sortNode has_file].
  rewrite (existsb_permuted _ _ _ (sort_perm _ _ _)).
  now apply existsb_map_same.
Qed.

Lemma directories_populated_sortNode node :
  directories_populated (sortNode localeCompare node)
  = directories_populated node.
Proof.
  induction node as [|nm pp ch IH] using FileTreeNode_induction;
    [reflexivity|].
  cbn [sortNode directories_populated].
  rewrite (existsb_permuted _ _ _ (sort_perm _ _ _)).
  rewrite (forallb_permuted _ _ _ (sort_perm _ _ _)).
  rewrite forallb_map_same by exact IH.
  rewrite existsb_map_same; [reflexivity|].
  apply Forall_forall. intros n _. apply has_file_sortNode.
Qed.

Lemma all_populated_sortNodes level :
  all_populated (sortNodes localeCompare level) = all_populated level.
Proof.
  unfold all_populated, sortNodes.
  rewrite (forallb_permuted _ _ _ (sort_perm _ _ _)).
  apply forallb_map_same. apply Forall_forall.
  intros n _. apply directories_populated_sortNode.
Qed.

End SortNodesFacts.

Lemma fold_add_populated (Content : Type) (files : list (CodebaseFile Content)) :
  forall level,
    all_populated level = true ->
    all_populated (fold_left add_file files level) = true.
Proof.
  induction files as [|file files IH]; intros level H; [exact H|].
  simpl. apply IH. now apply place_populated.
Qed.

(** A node with a file below it has a descendant that is a file. *)
Lemma has_file_below node :
  is_directory node = true -> has_file node = true ->
  exists f, below f node /\ is_directory f = false.
Proof.
  induction node as [|nm pp ch IH] using FileTreeNode_induction;
    [discriminate|].
  intros _ H. cbn [has_file] in H.
  apply existsb_exists in H. destruct H as (c & Hc & Hf).
  rewrite Forall_forall in IH.
  destruct (is_directory c) eqn:Hd.
  - destruct (IH c Hc Hd Hf) as (f & Hb & Hfile).
    exists f. split; [eapply below_deeper; eassumption | exact Hfile].
  - exists c. split; [now apply below_child | exact Hd].
Qed.

Lemma populated_below node :
  directories_populated node = true ->
  forall d, d = node \/ below d node ->
            is_directory d = true ->
            exists f, below f d /\ is_directory f = false.
Proof.
  induction node as [|nm pp ch IH] using FileTreeNode_induction.
  - intros _ d [->|Hb] Hd; [discriminate | inversion Hb].
  - intros H d Hd Hdir. cbn [directories_populated] in H.
    apply andb_true_iff in H. destruct H as [Hf Hp].
    rewrite forallb_forall in Hp. rewrite Forall_forall in IH.
    destruct Hd as [->|Hb].
    + now apply has_file_below.
    + inversion Hb as [n nm' pp' ch' Hin|n m nm' pp' ch' Hin Hbm]; subst.
      * apply (IH d Hin (Hp d Hin) d); auto.
      * apply (IH m Hin (Hp m Hin) d); auto.
Qed.

(** ** The tree builder *)

Section TreeClaims.

Variable Content : Type.
Variable localeCompare : string -> string -> Z.

(** C9. In the tree built from any list of files, every directory node, at
    any depth, has a descendant that is a file. *)
Theorem directories_have_files (files : list (CodebaseFile Content)) :
  all_populated (buildFileTree localeCompare files) = true
  /\ forall d,
       in_tree d (buildFileTree localeCompare files) ->
       is_directory d = true ->
       exists f, below f d /\ is_directory f = false.
Proof.
  assert (H : all_populated (buildFileTree localeCompare files) = true).
  { unfold buildFileTree. rewrite all_populated_sortNodes.
    now apply fold_add_populated. }
  split; [exact H|].
  intros d Hd Hdir. unfold all_populated in H. rewrite forallb_forall in H.
  destruct Hd as [Hin|(m & Hin & Hb)].
  - apply (populated_below d (H d Hin) d); auto.
  - apply (populated_below m (H m Hin) d); auto.
Qed.

End TreeClaims.

(** ** The code-unit order is a total order *)

Lemma ascii_compare_eq a b : Ascii.compare a b = Eq -> a = b.
Proof.
  unfold Ascii.compare. intros H. apply N.compare_eq in H.
  rewrite <- (ascii_N_embedding a), <- (ascii_N_embedding b). now rewrite H.
Qed.

Lemma ascii_compare_refl a : Ascii.compare a a = Eq.
Proof. unfold Ascii.compare. apply N.compare_refl. Qed.

Lemma string_compare_trans a :
  forall b c,
    String.compare a b <> Gt -> String.compare b c <> Gt ->
    String.compare a c <> Gt.
Proof.
  induction a as [|x a IH]; intros [|y b] [|z c]; simpl; try congruence.
  unfold Ascii.compare.
  destruct (N.compare_spec (N_of_ascii x) (N_of_ascii y)) as [Exy|Lxy|Gxy];
    destruct (N.compare_spec (N_of_ascii y) (N_of_ascii z)) as [Eyz|Lyz|Gyz];
    destruct (N.compare_spec (N_of_ascii x) (N_of_ascii z)) as [Exz|Lxz|Gxz];
    try congruence; try lia.
  apply IH.
Qed.

Lemma code_unit_compare_total a b :
  (code_unit_compare a b <= 0 \/ code_unit_compare b a <= 0)%Z.
Proof.
  unfold code_unit_compare. rewrite (String.compare_antisym a b).
  destruct (String.compare b a); simpl; lia.
Qed.

Lemma code_unit_compare_le a b :
  (code_unit_compare a b <= 0)%Z <-> String.compare a b <> Gt.
Proof.
  unfold code_unit_compare.
  destruct (String.compare a b); split; intros H; try lia; congruence.
Qed.

Lemma code_unit_compare_trans a b c :
  (code_unit_compare a b <= 0 -> code_unit_compare b c <= 0 ->
   code_unit_compare a c <= 0)%Z.
Proof. rewrite !code_unit_compare_le. apply string_compare_trans. Qed.

Lemma code_unit_compare_antisym a b :
  (code_unit_compare a b <= 0)%Z -> (code_unit_compare b a <= 0)%Z -> a = b.
Proof.
  unfold code_unit_compare. rewrite (String.compare_antisym a b).
  destruct (String.compare b a) eqn:E; simpl; try lia.
  intros _ _. symmetry. now apply String.compare_eq_iff.
Qed.

(** ** The tree builder on sample lists *)

(** The example of the specification. *)
Example buildFileTree_example :
  buildFileTree code_unit_compare
    [sample_file "a/b.txt"; sample_file "a/c/d.txt"; sample_file "e.txt"]
  = [ DirectoryNode "a" "a"
        [ DirectoryNode "c" "a/c" [FileNode "d.txt" "a/c/d.txt" 0 None true];
          FileNode "b.txt" "a/b.txt" 0 None true ];
      FileNode "e.txt" "e.txt" 0 None true ].
Proof. reflexivity. Qed.

(** The paths ["a"] and ["a/b"] are unique, yet the tree depends on which
    comes first. With ["a"] first the second file
    lands next to it at the root; with ["a/b"] first the file ["a"] is
    dropped. *)
Lemma order_matters_when_a_file_is_a_directory :
  Permutation clash_files clash_files_swapped
  /\ NoDup (map file_path clash_files)
  /\ buildFileTree code_unit_compare clash_files
     = [FileNode "a" "a" 0 None true; FileNode "b" "a/b" 0 None true]
  /\ buildFileTree code_unit_compare clash_files_swapped
     = [DirectoryNode "a" "a" [FileNode "b" "a/b" 0 None true]]
  /\ buildFileTree code_unit_compare clash_files
     <> buildFileTree code_unit_compare clash_files_swapped.
Proof.
  split; [apply perm_swap|].
  split.
  { repeat constructor; simpl; intuition discriminate. }
  split; [reflexivity|]. split; [reflexivity|].
  vm_compute. discriminate.
Qed.

Lemma directories_have_files_witness :
  let d := DirectoryNode "c" "a/c" [FileNode "d.txt" "a/c/d.txt" 0 None true] in
  in_tree d (buildFileTree code_unit_compare spec_files)
  /\ is_directory d = true
  /\ exists f, below f d /\ is_directory f = false.
Proof.
  intros d.
  assert (Hin : in_tree d (buildFileTree code_unit_compare spec_files)).
  { right.
    exists (DirectoryNode "a" "a" [d; FileNode "b.txt" "a/b.txt" 0 None true]).
    split; [left; reflexivity | apply below_child; left; reflexivity]. }
  split; [exact Hin|]. split; [reflexivity|].
  exact (proj2 (directories_have_files string code_unit_compare spec_files)
           d Hin eq_refl).
Defined.

(** * Further properties of the import service *)

(** ** Languages *)

Lemma supported_extension_has_language (ext : string) :
  existsb (String.eqb ext) SUPPORTED_EXTENSIONS = true ->
  exists l, lookup ext languageMap = Some l.
Proof.
  intros H. apply existsb_exists in H. destruct H as (x & Hin & Heq).
  apply String.eqb_eq in Heq. subst x. unfold SUPPORTED_EXTENSIONS in Hin.
  simpl in Hin.
  repeat (destruct Hin as [<-|Hin]; [vm_compute; eauto|]).
  contradiction.
Qed.

(** X1. Every file name that [isSupportedFile] accepts has a language in
    the table of [detectLanguage]. *)
Theorem supported_files_have_a_language (filename : string) :
  isSupportedFile filename = true ->
  exists l, detectLanguage filename = Some l.
Proof.
  unfold isSupportedFile, detectLanguage.
  apply supported_extension_has_language.
Qed.

Lemma supported_files_have_a_language_witness :
  isSupportedFile "src/App.TSX" = true
  /\ exists l, detectLanguage "src/App.TSX" = Some l.
Proof.
  split; [reflexivity|].
  exact (supported_files_have_a_language "src/App.TSX" eq_refl).
Defined.

(** ** Subsequences *)

Lemma subsequence_refl {A : Type} (l : list A) : subsequence l l.
Proof. induction l; constructor; assumption. Qed.

Lemma subsequence_nil_l {A : Type} (l : list A) : subsequence [] l.
Proof. induction l; constructor; assumption. Qed.

Lemma subsequence_trans {A : Type} (l1 l2 l3 : list A) :
  subsequence l1 l2 -> subsequence l2 l3 -> subsequence l1 l3.
Proof.
  intros H12 H23. revert l1 H12.
  induction H23 as [|x l2 l3 _ IH|x l2 l3 _ IH]; intros l1 H12.
  - exact H12.
  - inversion H12; subst; constructor; now apply IH.
  - constructor. now apply IH.
Qed.

Lemma subsequence_in {A : Type} (l1 l2 : list A) x :
  subsequence l1 l2 -> In x l1 -> In x l2.
Proof.
  induction 1 as [|y l1 l2 _ IH|y l1 l2 _ IH]; simpl; intros Hin;
    [contradiction | | right; now apply IH].
  destruct Hin as [->|Hin]; [now left | right; now apply IH].
Qed.

Lemma subsequence_nodup {A : Type} (l1 l2 : list A) :
  subsequence l1 l2 -> NoDup l2 -> NoDup l1.
Proof.
  induction 1 as [|y l1 l2 Hs IH|y l1 l2 Hs IH]; intros Hnd.
  - constructor.
  - inversion Hnd as [|? ? Hnotin Hnd']; subst.
    constructor; [|now apply IH].
    intros Hin. apply Hnotin. eapply subsequence_in; eassumption.
  - inversion Hnd; subst. now apply IH.
Qed.

Lemma subsequence_map {A B : Type} (f : A -> B) (l1 l2 : list A) :
  subsequence l1 l2 -> subsequence (map f l1) (map f l2).
Proof. induction 1; simpl; constructor; assumption. Qed.

Lemma subsequence_filter {A : Type} (f : A -> bool) (l : list A) :
  subsequence (filter f l) l.
Proof.
  induction l as [|x l IH]; simpl; [constructor|].
  destruct (f x); constructor; exact IH.
Qed.

Lemma subsequence_firstn {A : Type} (n : nat) (l : list A) :
  subsequence (firstn n l) l.
Proof.
  revert l. induction n as [|n IH]; intros [|x l]; simpl;
    try constructor; try apply subsequence_nil_l. apply IH.
Qed.

Lemma relevantItems_subsequence (listing : list GitHubTreeItem) :
  subsequence (relevantItems listing) listing.
Proof.
  unfold relevantItems, allBlobs.
  repeat (eapply subsequence_trans; [apply subsequence_filter|]).
  apply subsequence_refl.
Qed.

Lemma limitedItems_subsequence (listing : list GitHubTreeItem) :
  subsequence (limitedItems listing) listing.
Proof.
  unfold limitedItems.
  eapply subsequence_trans;
    [apply subsequence_firstn | apply relevantItems_subsequence].
Qed.

(** What the filters say of a candidate. *)
Lemma limitedItems_in (listing : list GitHubTreeItem) item :
  In item (limitedItems listing) ->
  In item listing
  /\ item_type item = blob
  /\ shouldIgnoreFile (item_path item) = false
  /\ isSupportedFile (item_path item) = true
  /\ (size_or_0 item < MAX_FILE_SIZE_BYTES)%Z.
Proof.
  unfold limitedItems. intros H.
  apply (subsequence_in _ _ _ (subsequence_firstn _ _)) in H.
  unfold relevantItems, allBlobs in H.
  repeat (apply filter_In in H; destruct H as [H ?]).
  repeat split; try assumption.
  - destruct (item_type item); [reflexivity | discriminate].
  - now apply negb_true_iff.
  - now apply Z.ltb_lt.
Qed.

Section ImportResult.

Variable Content : Type.
Variable content_length : Content -> Z.

Lemma fetched_file (net : Network Content) item f :
  In f (fetched content_length net item) ->
  path f = item_path item
  /\ language f = detectLanguage (item_path item)
  /\ size f = content_length (content f).
Proof.
  unfold fetched. rewrite fetchFileWithRetry_3. cbv zeta.
  destruct (getFileContent net (item_path item) 0);
    [intros [<-|[]]; auto|].
  destruct (getFileContent net (item_path item) 1);
    [intros [<-|[]]; auto|].
  destruct (getFileContent net (item_path item) 2);
    [intros [<-|[]]; auto | intros []].
Qed.

(** X2. Every file that [fetchGithubRepo] returns is a blob of the listing
    that is not ignored, has a supported extension and a reported size below
    the per-file cap; it carries a language, and its [size] is the length of
    its content. *)
Theorem returned_files_passed_the_filters repoString branch token
    (net : Network Content) st result :
  fetchGithubRepo_run content_length repoString branch token net
  = inr (st, result) ->
  Forall (fun f =>
            (exists item,
                In item (listing_of net)
                /\ item_path item = path f
                /\ item_type item = blob
                /\ (size_or_0 item < MAX_FILE_SIZE_BYTES)%Z)
            /\ shouldIgnoreFile (path f) = false
            /\ isSupportedFile (path f) = true
            /\ (exists l, language f = Some l)
            /\ size f = content_length (content f))
    (files result).
Proof.
  intros H. apply run_result in H. destruct H as (_ & _ & _ & Hfiles & _).
  rewrite Hfiles. apply Forall_forall. intros f Hf.
  apply in_flat_map in Hf. destruct Hf as (item & Hitem & Hf).
  apply fetched_file in Hf. destruct Hf as (Hp & Hl & Hs).
  apply limitedItems_in in Hitem.
  destruct Hitem as (Hin & Hblob & Hign & Hsup & Hsize).
  rewrite Hp, Hl. repeat split; try assumption.
  - exists item. auto.
  - unfold detectLanguage. apply supported_extension_has_language.
    exact Hsup.
Qed.

(** X3. When the paths of the listing are pairwise distinct, so are the
    paths of the files [fetchGithubRepo] returns. *)
Theorem returned_paths_are_unique repoString branch token
    (net : Network Content) st result :
  fetchGithubRepo_run content_length repoString branch token net
  = inr (st, result) ->
  NoDup (map item_path (listing_of net)) ->
  NoDup (map path (files result)).
Proof.
  intros H Hnd. apply run_result in H.
  destruct H as (_ & _ & _ & Hfiles & _). rewrite Hfiles.
  eapply subsequence_nodup; [apply fetched_paths|].
  eapply subsequence_nodup; [|exact Hnd].
  apply subsequence_map. apply limitedItems_subsequence.
Qed.

End ImportResult.

(** ** Retrying with any ceiling *)




Section RetryCeiling.

Variable Content : Type.
Variable content_length : Content -> Z.



(** ** Batches and pauses *)

Lemma fold_commit_pauses rs (st : LoopState Content) :
  pauses (fold_left commit rs st) = pauses st.
Proof.
  revert st. induction rs as [|[p [[f|] delays]] rs IH]; intros st; simpl;
    [reflexivity | rewrite IH; reflexivity | rewrite IH; reflexivity].
Qed.

Lemma pauses_left (n i : nat) :
  i + BATCH_SIZE < n -> (n - i - 1) / 3 = S ((n - (i + BATCH_SIZE) - 1) / 3).
Proof.
  unfold BATCH_SIZE. intros H.
  replace (n - i - 1) with ((n - (i + 3) - 1) + 1 * 3) by lia.
  rewrite Nat.div_add by lia. lia.
Qed.

Lemma download_batches_pauses (net : Network Content)
    (items : list GitHubTreeItem) (i : nat) (st : LoopState Content) :
  pauses (download_batches content_length net items i st)
  = (pauses st ++ repeat 200%Z ((length items - i - 1) / 3))%list.
Proof.
  funelim (download_batches content_length net items i st).
  - match goal with IH : pauses _ = _ |- _ => rewrite IH end.
    destruct (Nat.ltb_spec (i + BATCH_SIZE) (length items)) as [Hlt|Hge].
    + cbn [pause pauses]. rewrite fold_commit_pauses, <- app_assoc.
      rewrite (pauses_left _ _ Hlt). reflexivity.
    + rewrite fold_commit_pauses.
      replace (length items - (i + BATCH_SIZE) - 1) with 0 by lia.
      rewrite (Nat.div_small (length items - i - 1) 3)
        by (unfold BATCH_SIZE in Hge; lia).
      reflexivity.
  - replace (length items - i - 1) with 0 by lia. simpl.
    now rewrite app_nil_r.
Qed.

(** X5. A run of [fetchGithubRepo] with [n] candidates sleeps 200 ms exactly
    [(n - 1) / 3] times, once between two consecutive batches of three and
    not after the last; [downloadedCount] ends as the number of returned
    files, and together with [failedCount] it accounts for every
    candidate. *)
Theorem batches_pause_between repoString branch token
    (net : Network Content) st result :
  fetchGithubRepo_run content_length repoString branch token net
  = inr (st, result) ->
  pauses st = repeat 200%Z ((length (candidates net) - 1) / 3)
  /\ downloadedCount st = length (files result)
  /\ downloadedCount st + failedCount st = length (candidates net).
Proof.
  intros H. pose proof (run_result _ content_length _ _ _ _ _ _ H) as Hres.
  destruct Hres as (Hentries & _ & _ & Hfiles & Hfail & _).
  apply run_stages in H.
  destruct H as (owner & repo & targetRef & listing & _ & _ & Ht & Hi).
  apply fetch_tree_listing in Ht. destruct Ht as [Hsome _].
  apply import_listing_result in Hi. destruct Hi as (_ & Hst & _).
  assert (Hl : candidates net = limitedItems listing)
    by (unfold candidates, listing_of; now rewrite Hsome).
  rewrite Hl in *.
  pose proof (download_all Content content_length net (limitedItems listing))
    as Hall.
  cbv zeta in Hall. rewrite <- Hst in Hall.
  destruct Hall as (_ & Hdown & _).
  destruct (fetched_length Content content_length net (limitedItems listing))
    as [Hlen Hle].
  repeat split.
  - rewrite Hst, download_batches_pauses. simpl.
    now rewrite Nat.sub_0_r.
  - now rewrite Hfiles.
  - rewrite Hdown, Hfail, Hlen. lia.
Qed.

End RetryCeiling.

(** ** Parsing the repository string *)

Lemma prefix_cons (a b : ascii) (l s : string) :
  String.prefix (String a l) (String b s)
  = (Ascii.eqb a b && String.prefix l s)%bool.
Proof.
  cbn [String.prefix]. destruct (ascii_dec a b) as [->|Hne].
  - now rewrite Ascii.eqb_refl.
  - apply Ascii.eqb_neq in Hne. now rewrite Hne.
Qed.

Lemma prefix_empty (s : string) : String.prefix "" s = true.
Proof. destruct s; reflexivity. Qed.

Lemma prefix_split (l s : string) :
  String.prefix l s = true -> exists t, s = l ++ t.
Proof.
  revert s. induction l as [|c l IH]; intros s H.
  - exists s. reflexivity.
  - destruct s as [|d s]; [discriminate|].
    rewrite prefix_cons in H. apply andb_true_iff in H.
    destruct H as [Hc Hl]. apply Ascii.eqb_eq in Hc. subst d.
    destruct (IH s Hl) as (t & ->). exists t. reflexivity.
Qed.

Lemma includes_split (l s : string) :
  includes l s = true -> exists u t, s = u ++ l ++ t.
Proof.
  induction s as [|c s IH]; cbn [includes]; intros H;
    apply orb_true_iff in H; destruct H as [H|H]; try discriminate.
  - apply prefix_split in H. destruct H as (t & ->). exists "", t. reflexivity.
  - apply prefix_split in H. destruct H as (t & ->). exists "", t. reflexivity.
  - destruct (IH H) as (u & t & ->). exists (String c u), t. reflexivity.
Qed.

(** A text that includes a literal includes every piece of the literal. *)
Lemma includes_piece (a b c s : string) :
  includes (a ++ b ++ c) s = true -> includes b s = true.
Proof.
  intros H. apply includes_split in H. destruct H as (u & t & ->).
  replace (u ++ (a ++ b ++ c) ++ t) with ((u ++ a) ++ b ++ (c ++ t))
    by (now rewrite !string_app_assoc).
  apply includes_append.
Qed.

Lemma includes_cons (l : string) (c : ascii) (s : string) :
  includes l (String c s)
  = (String.prefix l (String c s) || includes l s)%bool.
Proof. reflexivity. Qed.

Lemma includes_slash_cons (c : ascii) (s : string) :
  includes "/" (String c s) = (Ascii.eqb c "/" || includes "/" s)%bool.
Proof.
  rewrite includes_cons, prefix_cons, prefix_empty, andb_true_r.
  now rewrite Ascii.eqb_sym.
Qed.

Lemma prefix_slash_without (s : string) :
  includes "/" s = false -> String.prefix "/" s = false.
Proof.
  destruct s as [|c s]; [reflexivity|].
  rewrite includes_slash_cons, prefix_cons, prefix_empty, andb_true_r.
  intros H. apply orb_false_iff in H. destruct H as [Hc _].
  now rewrite Ascii.eqb_sym.
Qed.

Lemma double_slash_without (s : string) :
  includes "/" s = false -> includes "//" s = false.
Proof.
  intros H. destruct (includes "//" s) eqn:E; [|reflexivity].
  apply (includes_piece "" "/" "/") in E. congruence.
Qed.

Lemma split_without_slash (s : string) :
  includes "/" s = false -> split "/" s = [s].
Proof.
  induction s as [|c s IH]; [reflexivity|].
  rewrite includes_slash_cons. intros H. apply orb_false_iff in H.
  destruct H as [Hc Hs]. cbn [split]. rewrite Hc, (IH Hs). reflexivity.
Qed.

Lemma split_at_slash (a b : string) :
  includes "/" a = false -> split "/" (a ++ "/" ++ b) = a :: split "/" b.
Proof.
  induction a as [|c a IH]; [reflexivity|].
  rewrite includes_slash_cons. intros H. apply orb_false_iff in H.
  destruct H as [Hc Ha]. cbn [append split]. rewrite Hc.
  change (a ++ String "/" b) with (a ++ "/" ++ b). rewrite (IH Ha).
  reflexivity.
Qed.

Lemma strip_trailing_slash_without (s : string) :
  includes "/" s = false -> strip_trailing_slash s = s.
Proof.
  induction s as [|c s IH]; [reflexivity|].
  rewrite includes_slash_cons. intros H. apply orb_false_iff in H.
  destruct H as [Hc Hs]. cbn [strip_trailing_slash]. rewrite Hc. simpl.
  now rewrite IH.
Qed.

Lemma strip_trailing_slash_inside (p s : string) :
  s <> "" -> includes "/" s = false ->
  strip_trailing_slash (p ++ s) = p ++ s.
Proof.
  intros Hne Hs. induction p as [|c p IH].
  - now apply strip_trailing_slash_without.
  - cbn [append strip_trailing_slash].
    destruct (p ++ s) as [|d r] eqn:E.
    + destruct p; [simpl in E; contradiction | discriminate].
    + cbn [String.eqb]. rewrite andb_false_r. now rewrite IH.
Qed.

Lemma strip_trailing_slash_last (s : string) :
  strip_trailing_slash (s ++ "/") = s.
Proof.
  induction s as [|c s IH]; [reflexivity|].
  cbn [append strip_trailing_slash].
  destruct (s ++ "/") as [|d r] eqn:E.
  - destruct s; discriminate.
  - cbn [String.eqb]. rewrite andb_false_r. now rewrite IH.
Qed.

Lemma drop_append (l s : string) : drop (String.length l) (l ++ s) = s.
Proof. induction l as [|c l IH]; [destruct s; reflexivity | exact IH]. Qed.

Lemma remove_first_at_start (l s : string) : remove_first l (l ++ s) = s.
Proof.
  destruct (l ++ s) as [|c r] eqn:E; cbn [remove_first].
  - destruct l; [|discriminate]. simpl in E. subst s. reflexivity.
  - rewrite <- E, prefix_append. apply drop_append.
Qed.

Lemma remove_first_absent (l s : string) :
  includes l s = false -> remove_first l s = s.
Proof.
  induction s as [|c s IH]; cbn [includes remove_first]; intros H;
    apply orb_false_iff in H; destruct H as [Hp Hs]; rewrite Hp;
    [reflexivity|].
  now rewrite IH.
Qed.

Lemma double_slash_after (a r : string) :
  includes "/" a = false -> String.prefix "/" r = false ->
  includes "//" r = false ->
  includes "//" (a ++ "/" ++ r) = false.
Proof.
  intros Ha Hp Hr. induction a as [|c a IH].
  - change ("" ++ "/" ++ r) with (String "/" r).
    rewrite includes_cons, prefix_cons, Hp, Hr. reflexivity.
  - rewrite includes_slash_cons in Ha. apply orb_false_iff in Ha.
    destruct Ha as [Hc Ha].
    change (String c a ++ "/" ++ r) with (String c (a ++ "/" ++ r)).
    rewrite includes_cons, prefix_cons, Ascii.eqb_sym, Hc, (IH Ha).
    reflexivity.
Qed.

Lemma github_prefix_absent (s : string) :
  includes "//" s = false -> includes "https://github.com/" s = false.
Proof.
  intros H. destruct (includes "https://github.com/" s) eqn:E; [|reflexivity].
  apply (includes_piece "https:" "//" "github.com/") in E. congruence.
Qed.

Lemma parse_clean (s owner repo : string) :
  includes "/" owner = false -> includes "/" repo = false ->
  strip_trailing_slash (remove_first "https://github.com/" s)
  = owner ++ "/" ++ repo ->
  parse_repo s = inr (owner, repo).
Proof.
  intros Ho Hr Hc. unfold parse_repo. rewrite Hc.
  rewrite split_at_slash by exact Ho. now rewrite split_without_slash.
Qed.

Lemma parse_single (s owner : string) :
  includes "/" owner = false ->
  strip_trailing_slash (remove_first "https://github.com/" s) = owner ->
  parse_repo s = inl InvalidRepositoryFormat.
Proof.
  intros Ho Hc. unfold parse_repo. rewrite Hc.
  now rewrite split_without_slash.
Qed.

(** X6. For an owner and a repository name without ["/"], the name not
    empty, [fetchGithubRepo] reads the same owner and name from
    ["owner/name"] and from ["https://github.com/owner/name"], each with or
    without one trailing slash; the owner alone, and ["owner/"], are refused
    as an invalid format. *)
Theorem parse_repo_accepts_both_forms (owner repo : string) :
  includes "/" owner = false -> includes "/" repo = false -> repo <> "" ->
  parse_repo (owner ++ "/" ++ repo) = inr (owner, repo)
  /\ parse_repo (owner ++ "/" ++ repo ++ "/") = inr (owner, repo)
  /\ parse_repo ("https://github.com/" ++ owner ++ "/" ++ repo)
     = inr (owner, repo)
  /\ parse_repo ("https://github.com/" ++ owner ++ "/" ++ repo ++ "/")
     = inr (owner, repo)
  /\ parse_repo owner = inl InvalidRepositoryFormat
  /\ parse_repo (owner ++ "/") = inl InvalidRepositoryFormat.
Proof.
  intros Ho Hr Hne.
  assert (Hplain : strip_trailing_slash (owner ++ "/" ++ repo)
                   = owner ++ "/" ++ repo).
  { replace (owner ++ "/" ++ repo) with ((owner ++ "/") ++ repo)
      by (now rewrite string_app_assoc).
    now apply strip_trailing_slash_inside. }
  assert (Hslash : strip_trailing_slash (owner ++ "/" ++ repo ++ "/")
                   = owner ++ "/" ++ repo).
  { replace (owner ++ "/" ++ repo ++ "/") with ((owner ++ "/" ++ repo) ++ "/")
      by (now rewrite !string_app_assoc).
    apply strip_trailing_slash_last. }
  assert (Hrs : String.prefix "/" (repo ++ "/") = false).
  { destruct repo as [|c repo]; [contradiction|].
    rewrite includes_slash_cons in Hr. apply orb_false_iff in Hr.
    destruct Hr as [Hc _]. cbn [append].
    now rewrite prefix_cons, Ascii.eqb_sym, Hc. }
  assert (Hrd : includes "//" (repo ++ "/") = false).
  { apply (double_slash_after repo ""); [exact Hr | reflexivity..]. }
  repeat split.
  - apply parse_clean; try assumption.
    rewrite remove_first_absent; [exact Hplain|].
    apply github_prefix_absent, double_slash_after;
      [exact Ho | now apply prefix_slash_without
                | now apply double_slash_without].
  - apply parse_clean; try assumption.
    rewrite remove_first_absent; [exact Hslash|].
    apply github_prefix_absent, double_slash_after; assumption.
  - apply parse_clean; try assumption.
    now rewrite remove_first_at_start.
  - apply parse_clean; try assumption.
    now rewrite remove_first_at_start.
  - apply (parse_single _ owner); [exact Ho|].
    rewrite remove_first_absent
      by (now apply github_prefix_absent, double_slash_without).
    now apply strip_trailing_slash_without.
  - apply (parse_single _ owner); [exact Ho|].
    rewrite remove_first_absent.
    + apply strip_trailing_slash_last.
    + apply github_prefix_absent. apply (double_slash_after owner "");
        [exact Ho | reflexivity..].
Qed.

Lemma parse_repo_accepts_both_forms_witness :
  parse_repo "https://github.com/google/guava/" = inr ("google", "guava").
Proof.
  assert (Ho : includes "/" "google" = false) by (vm_compute; reflexivity).
  assert (Hr : includes "/" "guava" = false) by (vm_compute; reflexivity).
  assert (Hne : "guava" <> "") by discriminate.
  exact (proj1 (proj2 (proj2 (proj2
    (parse_repo_accepts_both_forms "google" "guava" Ho Hr Hne))))).
Defined.

(** ** The properties of the returned files on the sample runs *)

Lemma returned_files_passed_the_filters_witness :
  fetchGithubRepo_run text_length "octo/repo" "" None two_failures
  = inr two_failures_outcome
  /\ Forall (fun f =>
               shouldIgnoreFile (path f) = false
               /\ isSupportedFile (path f) = true
               /\ size f = text_length (content f))
       (files (snd two_failures_outcome)).
Proof.
  assert (H : fetchGithubRepo_run text_length "octo/repo" "" None two_failures
              = inr (fst two_failures_outcome, snd two_failures_outcome))
    by (vm_compute; reflexivity).
  split; [exact H|].
  refine (Forall_impl _ _
            (returned_files_passed_the_filters string text_length
               _ _ _ _ _ _ H)).
  intros f (_ & Hi & Hs & _ & Hz). auto.
Defined.

Lemma returned_paths_are_unique_witness :
  fetchGithubRepo_run text_length "octo/repo" "" None one_failure
  = inr one_failure_outcome
  /\ NoDup (map item_path (listing_of one_failure))
  /\ NoDup (map path (files (snd one_failure_outcome))).
Proof.
  assert (H : fetchGithubRepo_run text_length "octo/repo" "" None one_failure
              = inr (fst one_failure_outcome, snd one_failure_outcome))
    by (vm_compute; reflexivity).
  assert (Hn : NoDup (map item_path (listing_of one_failure)))
    by (repeat constructor; simpl; intuition discriminate).
  split; [exact H|]. split; [exact Hn|].
  exact (returned_paths_are_unique string text_length _ _ _ _ _ _ H Hn).
Defined.

Lemma batches_pause_between_witness :
  fetchGithubRepo_run text_length "octo/repo" "" None two_failures
  = inr two_failures_outcome
  /\ pauses (fst two_failures_outcome) = [200; 200; 200]%Z
  /\ downloadedCount (fst two_failures_outcome) = 8
  /\ failedCount (fst two_failures_outcome) = 2.
Proof.
  assert (H : fetchGithubRepo_run text_length "octo/repo" "" None two_failures
              = inr (fst two_failures_outcome, snd two_failures_outcome))
    by (vm_compute; reflexivity).
  split; [exact H|].
  pose proof (batches_pause_between string text_length _ _ _ _ _ _ H)
    as (Hp & Hd & Hs).
  split; [exact Hp|]. split; [exact Hd|].
  vm_compute. reflexivity.
Defined.


(** * The loop of [analyzeGitHubRepo] *)

Lemma subsequence_app {A : Type} (a b c d : list A) :
  subsequence a b -> subsequence c d -> subsequence (a ++ c) (b ++ d).
Proof.
  intros Hab Hcd. induction Hab; cbn [app]; try (constructor; assumption).
  exact Hcd.
Qed.

Lemma firstn_slice {A : Type} (i n : nat) (l : list A) :
  (firstn i l ++ slice i (i + n) l)%list = firstn (i + n) l.
Proof.
  unfold slice. replace (i + n - i) with n by lia.
  revert l. induction i as [|i IH]; intros l; [reflexivity|].
  destruct l as [|x l]; [now rewrite !firstn_nil|].
  cbn [Nat.add firstn skipn app]. now rewrite IH.
Qed.

Lemma slice_length {A : Type} (i n : nat) (l : list A) :
  length (slice i (i + n) l) <= n.
Proof.
  unfold slice. replace (i + n - i) with n by lia. apply firstn_le_length.
Qed.

Lemma slice_in {A : Type} (i j : nat) (l : list A) x :
  In x (slice i j l) -> In x l.
Proof.
  unfold slice. intros H.
  apply (subsequence_in _ _ x (subsequence_firstn _ _)) in H.
  rewrite <- (firstn_skipn i l). apply in_or_app. now right.
Qed.

Section AnalyzeFacts.

Variable Content : Type.
Variable content_length : Content -> Z.

Lemma sum_sizes_app (l1 l2 : list (ProjectFile Content)) :
  sum_sizes (l1 ++ l2) = (sum_sizes l1 + sum_sizes l2)%Z.
Proof.
  unfold sum_sizes.
  induction l1 as [|f l1 IH]; cbn [app fold_right]; [lia | rewrite IH; lia].
Qed.

(** The loop as an invariant rule: a property of the state and the items
    seen so far that every committed batch preserves holds at the end, for
    some number of items seen. *)
Lemma analyze_batches_invariant
    (P : list GitHubTreeItem -> AnalyzeState Content -> Prop)
    (blobs : GitHubTreeItem -> option Content)
    (items : list GitHubTreeItem) :
  (forall i st,
      P (firstn i items) st ->
      (an_totalSize st < MAX_TOTAL_SIZE_BYTES)%Z ->
      i < length items ->
      P (firstn (i + ANALYZE_BATCH_SIZE) items)
        (fold_left (commit_blob content_length)
           (map (fetch_blob content_length blobs (an_totalSize st))
              (slice i (i + ANALYZE_BATCH_SIZE) items)) st)) ->
  forall i st,
    P (firstn i items) st ->
    exists j, P (firstn j items)
                (analyze_batches content_length blobs items i st).
Proof.
  intros Hstep i st. funelim (analyze_batches content_length blobs items i st).
  - intros HP.
    destruct (MAX_TOTAL_SIZE_BYTES <=? an_totalSize st)%Z eqn:Hstop.
    + exists i. exact HP.
    + apply Z.leb_gt in Hstop.
      match goal with IH : context [analyze_batches] |- _ => apply IH end;
        auto.
  - intros HP. exists i. exact HP.
Qed.

Lemma commit_batch_accounted (blobs : GitHubTreeItem -> option Content)
    (start : Z) (batch seen : list GitHubTreeItem)
    (st : AnalyzeState Content) :
  accounted content_length seen st ->
  accounted content_length (seen ++ batch)
    (fold_left (commit_blob content_length)
       (map (fetch_blob content_length blobs start) batch) st).
Proof.
  revert seen st. induction batch as [|item batch IH]; intros seen st Hacc.
  - now rewrite app_nil_r.
  - replace (seen ++ item :: batch)%list with ((seen ++ [item]) ++ batch)%list
      by (now rewrite <- app_assoc).
    cbn [map fold_left]. apply IH.
    destruct Hacc as (Ht & Hs & Hd & Hsub & Hall).
    assert (Hskip : accounted content_length (seen ++ [item]) st).
    { repeat split; try assumption.
      rewrite map_app, <- (app_nil_r (map path (an_files st))).
      apply subsequence_app; [exact Hsub | apply subsequence_nil_l]. }
    unfold fetch_blob.
    destruct (MAX_TOTAL_SIZE_BYTES <=? start)%Z; [exact Hskip|].
    destruct (blobs item) as [c|]; [|exact Hskip].
    destruct (MAX_TOTAL_SIZE_BYTES <? start + content_length c)%Z;
      [exact Hskip|].
    cbn [commit_blob]. unfold accounted.
    cbn [an_files an_totalSize an_supportedFiles an_downloadedCount content].
    rewrite sum_sizes_app, !length_app, !map_app. cbn [length map].
    repeat split.
    + rewrite Ht. cbn [sum_sizes fold_right size]. lia.
    + lia.
    + lia.
    + apply subsequence_app; [exact Hsub|]. cbn [path].
      apply subsequence_refl.
    + apply Forall_app. split; [exact Hall|].
      constructor; [|constructor]. cbn [size content language path]. auto.
Qed.

Lemma analyze_batches_accounted (blobs : GitHubTreeItem -> option Content)
    (items : list GitHubTreeItem) :
  accounted content_length items
    (analyze_batches content_length blobs items 0
       {| an_files := []; an_totalSize := 0;
          an_supportedFiles := 0; an_downloadedCount := 0 |}).
Proof.
  destruct (analyze_batches_invariant (accounted content_length) blobs items)
    with (i := 0)
         (st := {| an_files := ([] : list (ProjectFile Content));
                   an_totalSize := 0%Z;
                   an_supportedFiles := 0; an_downloadedCount := 0 |})
    as (j & Hacc).
  - intros i st Hacc _ _. rewrite <- firstn_slice.
    now apply commit_batch_accounted.
  - repeat split; try constructor.
  - destruct Hacc as (Ht & Hs & Hd & Hsub & Hall).
    repeat split; try assumption.
    eapply subsequence_trans; [exact Hsub|].
    apply subsequence_map, subsequence_firstn.
Qed.

Lemma analyze_stages (targetRef : string) (maxFiles : Z)
    (res : TreeResponse) (blobs : GitHubTreeItem -> option Content) a :
  analyzeGitHubRepo content_length targetRef maxFiles res blobs = inr a ->
  exists listing,
    tree_entries res = Some listing
    /\ limitedItems_analyze maxFiles listing <> []
    /\ a = let st := analyze_batches content_length blobs
                       (limitedItems_analyze maxFiles listing) 0
                       {| an_files := []; an_totalSize := 0;
                          an_supportedFiles := 0; an_downloadedCount := 0 |} in
           {| analysis_files := an_files st;
              totalSize := an_totalSize st;
              supportedFiles := an_supportedFiles _ st;
              ignoredFiles := [] |}.
Proof.
  unfold analyzeGitHubRepo, analyze_tree.
  destruct (negb (status_ok (tree_status res))).
  - destruct (tree_status res =? 404)%Z; [discriminate|].
    destruct (tree_status res =? 409)%Z; discriminate.
  - destruct (tree_entries res) as [listing|]; [|discriminate].
    destruct (limitedItems_analyze maxFiles listing) as [|x l] eqn:E;
      [discriminate|].
    intros [= <-]. exists listing. rewrite E.
    repeat split. discriminate.
Qed.

Lemma limitedItems_analyze_subsequence maxFiles listing :
  subsequence (limitedItems_analyze maxFiles listing) (relevantItems listing).
Proof.
  unfold limitedItems_analyze, slice_to.
  destruct (_ <? 0)%Z; apply subsequence_firstn.
Qed.

(** X7. What [analyzeGitHubRepo] returns is consistent: [totalSize] is the
    sum of the sizes of the returned files, [supportedFiles] their number,
    [ignoredFiles] is empty, every file has the length of its content as
    size and the language of its path, and the paths are, in order, paths of
    blobs of the listing that pass the three filters. *)
Theorem analysis_is_accounted (targetRef : string) (maxFiles : Z)
    (res : TreeResponse) (blobs : GitHubTreeItem -> option Content) a :
  analyzeGitHubRepo content_length targetRef maxFiles res blobs = inr a ->
  totalSize a = sum_sizes (analysis_files a)
  /\ supportedFiles a = length (analysis_files a)
  /\ ignoredFiles _ a = []
  /\ Forall (fun f => size f = content_length (content f)
                      /\ language f = detectLanguage (path f))
       (analysis_files a)
  /\ exists listing,
       tree_entries res = Some listing
       /\ subsequence (map path (analysis_files a))
            (map item_path (relevantItems listing)).
Proof.
  intros H. apply analyze_stages in H.
  destruct H as (listing & Hl & _ & ->). cbv zeta.
  cbn [analysis_files totalSize supportedFiles ignoredFiles].
  destruct (analyze_batches_accounted blobs
              (limitedItems_analyze maxFiles listing))
    as (Ht & Hs & _ & Hsub & Hall).
  repeat split; try assumption.
  exists listing. split; [exact Hl|].
  eapply subsequence_trans; [exact Hsub|].
  apply subsequence_map, limitedItems_analyze_subsequence.
Qed.

(** ** The byte budget *)

Lemma commit_batch_bound (blobs : GitHubTreeItem -> option Content)
    (start m : Z) (batch : list GitHubTreeItem) (st : AnalyzeState Content) :
  (0 <= m)%Z ->
  (forall item c, In item batch -> blobs item = Some c ->
                  (start + content_length c <= MAX_TOTAL_SIZE_BYTES)%Z ->
                  (0 <= content_length c <= m)%Z) ->
  let st' := fold_left (commit_blob content_length)
               (map (fetch_blob content_length blobs start) batch) st in
  (an_totalSize st <= an_totalSize st'
   <= an_totalSize st + Z.of_nat (length batch) * m)%Z.
Proof.
  intros Hm. revert st. induction batch as [|item batch IH]; intros st Hb.
  - cbn. lia.
  - cbn [map fold_left length]. cbv zeta.
    assert (Hrest : forall item c, In item batch -> blobs item = Some c ->
                  (start + content_length c <= MAX_TOTAL_SIZE_BYTES)%Z ->
                  (0 <= content_length c <= m)%Z)
      by (intros i c Hi; apply Hb; now right).
    specialize (IH (commit_blob content_length st
                      (fetch_blob content_length blobs start item)) Hrest).
    cbv zeta in IH.
    assert (Hone : (an_totalSize st
                    <= an_totalSize
                         (commit_blob content_length st
                            (fetch_blob content_length blobs start item))
                    <= an_totalSize st + m)%Z).
    { unfold fetch_blob.
      destruct (MAX_TOTAL_SIZE_BYTES <=? start)%Z; [cbn; lia|].
      destruct (blobs item) as [c|] eqn:Hc; [|cbn; lia].
      destruct (MAX_TOTAL_SIZE_BYTES <? start + content_length c)%Z eqn:Hfit;
        [cbn; lia|].
      apply Z.ltb_ge in Hfit.
      pose proof (Hb item c (or_introl eq_refl) Hc Hfit).
      cbn [commit_blob an_totalSize content]. lia. }
    lia.
Qed.

Lemma analyze_batches_bound (blobs : GitHubTreeItem -> option Content)
    (items : list GitHubTreeItem) (L : Z) :
  (0 <= L)%Z ->
  (forall item c, In item items -> blobs item = Some c ->
                  (0 <= content_length c <= L)%Z) ->
  let st := analyze_batches content_length blobs items 0
              {| an_files := []; an_totalSize := 0;
                 an_supportedFiles := 0; an_downloadedCount := 0 |} in
  (0 <= an_totalSize st <= MAX_TOTAL_SIZE_BYTES + 4 * L)%Z.
Proof.
  intros HL Hb. cbv zeta.
  assert (Hmax : (0 <= MAX_TOTAL_SIZE_BYTES)%Z) by (vm_compute; discriminate).
  assert (Hstep : forall i (st : AnalyzeState Content),
             (fun (_ : list GitHubTreeItem) st =>
                (0 <= an_totalSize st <= MAX_TOTAL_SIZE_BYTES + 4 * L)%Z)
               (firstn i items) st ->
             (an_totalSize st < MAX_TOTAL_SIZE_BYTES)%Z ->
             i < length items ->
             (fun (_ : list GitHubTreeItem) st =>
                (0 <= an_totalSize st <= MAX_TOTAL_SIZE_BYTES + 4 * L)%Z)
               (firstn (i + ANALYZE_BATCH_SIZE) items)
               (fold_left (commit_blob content_length)
                  (map (fetch_blob content_length blobs (an_totalSize st))
                     (slice i (i + ANALYZE_BATCH_SIZE) items)) st)).
  { intros i st [Hlo _] Hlt _. cbv beta.
    pose proof (commit_batch_bound blobs (an_totalSize st)
                  (Z.min L (MAX_TOTAL_SIZE_BYTES - an_totalSize st))
                  (slice i (i + ANALYZE_BATCH_SIZE) items) st) as Hbatch.
    cbv zeta in Hbatch.
    pose proof (slice_length i ANALYZE_BATCH_SIZE items) as Hlen.
    assert (Hm : (0 <= Z.min L (MAX_TOTAL_SIZE_BYTES - an_totalSize st))%Z)
      by lia.
    specialize (Hbatch Hm).
    assert (Hin : forall item c,
               In item (slice i (i + ANALYZE_BATCH_SIZE) items) ->
               blobs item = Some c ->
               (an_totalSize st + content_length c
                <= MAX_TOTAL_SIZE_BYTES)%Z ->
               (0 <= content_length c
                <= Z.min L (MAX_TOTAL_SIZE_BYTES - an_totalSize st))%Z).
    { intros item c Hi Hc Hfit. apply slice_in in Hi.
      pose proof (Hb item c Hi Hc). lia. }
    specialize (Hbatch Hin).
    assert (Hmul :
              (Z.of_nat (length (slice i (i + ANALYZE_BATCH_SIZE) items))
               * Z.min L (MAX_TOTAL_SIZE_BYTES - an_totalSize st)
               <= 5 * Z.min L (MAX_TOTAL_SIZE_BYTES - an_totalSize st))%Z).
    { apply Z.mul_le_mono_nonneg_r; [exact Hm|].
      change 5%Z with (Z.of_nat ANALYZE_BATCH_SIZE).
      apply Nat2Z.inj_le. exact Hlen. }
    lia. }
  destruct (analyze_batches_invariant _ blobs items Hstep 0
              {| an_files := []; an_totalSize := 0;
                 an_supportedFiles := 0; an_downloadedCount := 0 |})
    as (j & Hj).
  - cbn [an_totalSize]. lia.
  - exact Hj.
Qed.

(** X8. The byte budget of [analyzeGitHubRepo] can be exceeded, but only by
    the last batch: when no blob of the listing decodes to more than [L]
    characters, [totalSize] is at most [MAX_TOTAL_SIZE_BYTES + 4 * L]. *)
Theorem analysis_overshoot_is_bounded (targetRef : string) (maxFiles : Z)
    (res : TreeResponse) (blobs : GitHubTreeItem -> option Content)
    (listing : list GitHubTreeItem) (L : Z) a :
  tree_entries res = Some listing ->
  (0 <= L)%Z ->
  (forall item c, In item listing -> blobs item = Some c ->
                  (0 <= content_length c <= L)%Z) ->
  analyzeGitHubRepo content_length targetRef maxFiles res blobs = inr a ->
  (0 <= totalSize a <= MAX_TOTAL_SIZE_BYTES + 4 * L)%Z.
Proof.
  intros Hl HL Hb H. apply analyze_stages in H.
  destruct H as (listing' & Hl' & _ & ->).
  rewrite Hl in Hl'. injection Hl' as <-. cbv zeta. cbn [totalSize].
  apply (analyze_batches_bound blobs (limitedItems_analyze maxFiles listing) L
           HL).
  intros item c Hi. apply Hb.
  pose proof (subsequence_in _ _ item
                (limitedItems_analyze_subsequence maxFiles listing) Hi) as Hr.
  pose proof (subsequence_in _ _ item
                (relevantItems_subsequence listing) Hr).
  assumption.
Qed.

End AnalyzeFacts.

Lemma analysis_is_accounted_witness :
  analyzeGitHubRepo (fun n : Z => n) "main" 1000
    (sample_tree ten_candidates) (constant_blobs 100) = inr small_analysis
  /\ totalSize small_analysis = sum_sizes (analysis_files small_analysis)
  /\ supportedFiles small_analysis = length (analysis_files small_analysis).
Proof.
  assert (H : analyzeGitHubRepo (fun n : Z => n) "main" 1000
                (sample_tree ten_candidates) (constant_blobs 100)
              = inr small_analysis) by (vm_compute; reflexivity).
  split; [exact H|].
  pose proof (analysis_is_accounted Z (fun n : Z => n) _ _ _ _ _ H)
    as (Ht & Hs & _).
  split; [exact Ht | exact Hs].
Defined.

Lemma analysis_overshoot_is_bounded_witness :
  analyzeGitHubRepo (fun n : Z => n) "main" 1000
    (sample_tree ten_candidates) (constant_blobs 100) = inr small_analysis
  /\ (0 <= totalSize small_analysis <= MAX_TOTAL_SIZE_BYTES + 4 * 100)%Z.
Proof.
  assert (H : analyzeGitHubRepo (fun n : Z => n) "main" 1000
                (sample_tree ten_candidates) (constant_blobs 100)
              = inr small_analysis) by (vm_compute; reflexivity).
  assert (Hb : forall item c, In item ten_candidates ->
                 constant_blobs 100 item = Some c -> (0 <= c <= 100)%Z)
    by (intros item c _ [= <-]; lia).
  split; [exact H|].
  exact (analysis_overshoot_is_bounded Z (fun n : Z => n) "main" 1000
           (sample_tree ten_candidates) (constant_blobs 100) ten_candidates
           100 small_analysis eq_refl ltac:(lia) Hb H).
Defined.

(** * The two services in front of the loop *)

Lemma request_with_headers_body {T : Type} (w : HttpResponse T) (d : T) :
  request_with_headers w = inr d ->
  d = http_body w /\ status_ok (http_status w) = true.
Proof.
  unfold request_with_headers.
  destruct (status_ok (http_status w)); cbn [negb].
  - intros [= <-]. auto.
  - destruct (isRateLimited w); [discriminate|].
    destruct (http_status w =? 401)%Z; [discriminate|].
    destruct (http_status w =? 403)%Z; [discriminate|].
    destruct (http_status w =? 404)%Z; discriminate.
Qed.

Lemma request_body {T : Type} (token : option string) (requireAuth : bool)
    (a w : HttpResponse T) (d : T) :
  request token requireAuth a w = inr d ->
  d = http_body a \/ d = http_body w.
Proof.
  unfold request.
  destruct (negb requireAuth && negb (truthy token))%bool.
  - destruct (status_ok (http_status a)); [intros [= <-]; now left|].
    destruct (isRateLimited a); [discriminate|].
    destruct ((http_status a =? 403) || (http_status a =? 404))%Z;
      [|discriminate].
    intros H. apply request_with_headers_body in H. now right.
  - intros H. apply request_with_headers_body in H. now right.
Qed.

(** An error of [request] was either raised for the anonymous response or
    is the error of the fetch with headers. *)
Lemma request_error {T : Type} (token : option string) (requireAuth : bool)
    (a w : HttpResponse T) (e : RequestError) :
  request token requireAuth a w = inl e ->
  e = RateLimitExceededUnauthenticated
  \/ e = ApiError (http_status a) (http_statusText a)
  \/ request_with_headers w = inl e.
Proof.
  unfold request.
  destruct (negb requireAuth && negb (truthy token))%bool; [|auto].
  destruct (status_ok (http_status a)); [discriminate|].
  destruct (isRateLimited a); [intros [= <-]; auto|].
  destruct ((http_status a =? 403) || (http_status a =? 404))%Z;
    [auto | intros [= <-]; auto].
Qed.

Lemma request_requireAuth {T : Type} (token : option string)
    (a w : HttpResponse T) :
  request token true a w = request_with_headers w.
Proof. reflexivity. Qed.

Lemma resolve_repository_ref (token : option string) (branch : string)
    (a w w' : HttpResponse RepoData) (r : string) (p : bool) :
  resolve_repository token branch a w w' = inr (r, p) ->
  r = branch_or_main (http_body a)
  \/ r = branch_or_main (http_body w)
  \/ r = branch_or_main (http_body w').
Proof.
  unfold resolve_repository.
  destruct (request token false a w) as [e|d] eqn:E.
  - destruct (includes _ _); [|discriminate].
    destruct (request token true w' w') as [e'|d'] eqn:E'; [discriminate|].
    intros [= <- _]. apply request_body in E'. destruct E'; subst; auto.
  - intros [= <- _]. apply request_body in E. destruct E; subst; auto.
Qed.

Section ServiceFacts.

Variable Content : Type.
Variable content_length : Content -> Z.

(** X9. [GitHubService.analyzeGitHubRepo] never reads the branch it is
    given: the result is the same for every requested branch, and a
    [Branch '…' not found.] error names the default branch of one of the
    repository responses, or [main] when that response has none. *)
Theorem requested_branch_is_ignored (token : option string)
    (owner repo branch branch' : string) (maxFiles : Z)
    (net : AnalyzeNetwork Content) :
  GitHubService_analyzeGitHubRepo content_length token owner repo branch
    maxFiles net
  = GitHubService_analyzeGitHubRepo content_length token owner repo branch'
      maxFiles net
  /\ forall r,
       GitHubService_analyzeGitHubRepo content_length token owner repo branch
         maxFiles net = inl (inr (BranchNotFound r)) ->
       r = branch_or_main (http_body (repo_anonymous net))
       \/ r = branch_or_main (http_body (repo_with_headers net))
       \/ r = branch_or_main (http_body (repo_authenticated net)).
Proof.
  split; [reflexivity|].
  intros r. unfold GitHubService_analyzeGitHubRepo.
  destruct (resolve_repository token branch (repo_anonymous net)
              (repo_with_headers net) (repo_authenticated net))
    as [e|[targetRef p]] eqn:E; [discriminate|].
  apply resolve_repository_ref in E.
  unfold analyzeGitHubRepo, analyze_tree.
  destruct (negb (status_ok (tree_status (analyze_treeRes net)))).
  - destruct (tree_status (analyze_treeRes net) =? 404)%Z.
    + intros [= <-]. exact E.
    + destruct (tree_status (analyze_treeRes net) =? 409)%Z; discriminate.
  - destruct (tree_entries (analyze_treeRes net)) as [listing|];
      [|discriminate].
    destruct (limitedItems_analyze maxFiles listing); [discriminate|].
    discriminate.
Qed.

End ServiceFacts.

(** X10. When the server answers the fetch with headers the same way both
    times, the second call of [request] in [analyzeGitHubRepo] changes
    nothing: the repository is resolved exactly when the first call
    succeeds, and otherwise the first error is thrown. The one exception,
    excluded here, is an anonymous response whose own error text contains
    the words [Authentication required]. *)
Theorem retry_with_same_answer_is_futile (token : option string)
    (branch : string) (a w : HttpResponse RepoData) :
  includes "Authentication required"
    (request_message (ApiError (http_status a) (http_statusText a))) = false ->
  resolve_repository token branch a w w
  = match request token false a w with
    | inr repoData => inr (branch_or_main repoData, negb (private repoData))
    | inl error => inl error
    end.
Proof.
  intros Ha. unfold resolve_repository.
  destruct (request token false a w) as [e|d] eqn:E; [|reflexivity].
  destruct (includes "Authentication required" (request_message e)) eqn:Hi;
    [|reflexivity].
  rewrite request_requireAuth.
  apply request_error in E. destruct E as [->|[->|E]].
  - vm_compute in Hi. discriminate.
  - congruence.
  - now rewrite E.
Qed.

Lemma retry_with_same_answer_is_futile_witness :
  resolve_repository None "develop" hidden refused refused
  = inl AuthenticationRequired.
Proof.
  assert (Ha : includes "Authentication required"
                 (request_message
                    (ApiError (http_status hidden) (http_statusText hidden)))
               = false) by (vm_compute; reflexivity).
  exact (retry_with_same_answer_is_futile None "develop" hidden refused Ha).
Defined.

(** ** [CodebaseService.analyzeGitHubRepo] *)

Section CodebaseServiceFacts.

Variable Content : Type.
Variable content_length : Content -> Z.

Lemma service_analysis (token : option string) (owner repo branch : string)
    (maxFiles : Z) (net : AnalyzeNetwork Content) a :
  GitHubService_analyzeGitHubRepo content_length token owner repo branch
    maxFiles net = inr a ->
  exists targetRef,
    analyzeGitHubRepo content_length targetRef maxFiles (analyze_treeRes net)
      (analyze_blobs net) = inr a.
Proof.
  unfold GitHubService_analyzeGitHubRepo.
  destruct (resolve_repository _ _ _ _ _) as [e|[targetRef p]];
    [discriminate|].
  destruct (analyzeGitHubRepo content_length targetRef maxFiles
              (analyze_treeRes net) (analyze_blobs net)) as [e|a'] eqn:E;
    [discriminate|].
  intros [= <-]. exists targetRef. exact E.
Qed.

Lemma analysis_supportedFiles (targetRef : string) (maxFiles : Z)
    (res : TreeResponse) (blobs : GitHubTreeItem -> option Content) a :
  analyzeGitHubRepo content_length targetRef maxFiles res blobs = inr a ->
  supportedFiles a = length (analysis_files a).
Proof.
  intros H. apply analyze_stages in H.
  destruct H as (listing & _ & _ & ->). cbv zeta.
  cbn [analysis_files supportedFiles].
  destruct (analyze_batches_accounted Content content_length blobs
              (limitedItems_analyze maxFiles listing)) as (_ & Hs & _).
  exact Hs.
Qed.

(** X11. [CodebaseService.analyzeGitHubRepo] never returns an analysis
    without files: what it returns is what [GitHubService] returned and has
    at least one file, and when [GitHubService] returns no file at all the
    call fails with the "No supported code files" text behind the prefix
    ["Failed to analyze repository: "]. *)
Theorem codebase_service_returns_files (token : option string)
    (owner repo branch : string) (maxFiles : Z)
    (net : AnalyzeNetwork Content) a :
  GitHubService_analyzeGitHubRepo content_length token owner repo branch
    maxFiles net = inr a ->
  match CodebaseService_analyzeGitHubRepo content_length token owner repo
          branch maxFiles net with
  | inr a' => a' = a /\ analysis_files a <> []
  | inl msg =>
      analysis_files a = []
      /\ msg = "Failed to analyze repository: " ++ NO_SUPPORTED_CODE_FILES
  end.
Proof.
  intros H. unfold CodebaseService_analyzeGitHubRepo. rewrite H.
  destruct (service_analysis _ _ _ _ _ _ _ H) as (targetRef & Ha).
  apply analysis_supportedFiles in Ha.
  destruct (Nat.eqb (supportedFiles a) 0) eqn:E.
  - apply Nat.eqb_eq in E. rewrite E in Ha.
    replace (rethrown_as_is NO_SUPPORTED_CODE_FILES) with false
      by (vm_compute; reflexivity).
    split; [|reflexivity].
    destruct (analysis_files a); [reflexivity | discriminate].
  - apply Nat.eqb_neq in E. split; [reflexivity|].
    intros Hnil. rewrite Hnil in Ha. simpl in Ha. contradiction.
Qed.

Lemma branch_rethrown (targetRef : string) :
  rethrown_as_is (thrown_message (inr (BranchNotFound targetRef))) = true.
Proof.
  cbn [thrown_message message]. unfold rethrown_as_is.
  change ("Branch '" ++ targetRef ++ "' not found.")
    with ("Branch" ++ (" '" ++ targetRef ++ "' not found.")).
  rewrite (includes_prefix _ _ (prefix_append "Branch" _)).
  now rewrite !orb_true_r.
Qed.

(** X12. How the errors of [GitHubService] come out of [CodebaseService]:
    an unexpected status, a missing branch and an empty repository keep
    their message; a rate limit, a refusal and a repository that is not
    found get the prefix ["Failed to analyze repository: "]. *)
Theorem service_errors_kept_or_prefixed (token : option string)
    (owner repo branch : string) (maxFiles : Z)
    (net : AnalyzeNetwork Content) e :
  GitHubService_analyzeGitHubRepo content_length token owner repo branch
    maxFiles net = inl e ->
  match e with
  | inl (ApiError _ _) | inr (BranchNotFound _) | inr RepositoryIsEmpty =>
      CodebaseService_analyzeGitHubRepo content_length token owner repo
        branch maxFiles net = inl (thrown_message e)
  | inl _ =>
      CodebaseService_analyzeGitHubRepo content_length token owner repo
        branch maxFiles net
      = inl ("Failed to analyze repository: " ++ thrown_message e)
  | inr _ =>
      CodebaseService_analyzeGitHubRepo content_length token owner repo
        branch maxFiles net
      = inl (if rethrown_as_is (thrown_message e) then thrown_message e
             else "Failed to analyze repository: " ++ thrown_message e)
  end.
Proof.
  intros H. unfold CodebaseService_analyzeGitHubRepo. rewrite H.
  destruct e as [[]|[]]; try reflexivity; cbv beta iota zeta;
    try rewrite branch_rethrown;
    match goal with
    | |- context [rethrown_as_is ?m] => destruct (rethrown_as_is m)
    | |- _ => idtac
    end; reflexivity.
Qed.

End CodebaseServiceFacts.

Lemma codebase_service_returns_files_witness :
  CodebaseService_analyzeGitHubRepo (fun n : Z => n) None "octo" "repo"
    "main" 1000 unreadable_network
  = inl ("Failed to analyze repository: " ++ NO_SUPPORTED_CODE_FILES).
Proof.
  assert (H : GitHubService_analyzeGitHubRepo (fun n : Z => n) None "octo"
                "repo" "main" 1000 unreadable_network
              = inr {| analysis_files := []; totalSize := 0;
                       supportedFiles := 0; ignoredFiles := [] |})
    by (vm_compute; reflexivity).
  pose proof (codebase_service_returns_files Z (fun n : Z => n) _ _ _ _ _ _ _
                H) as Hc.
  destruct (CodebaseService_analyzeGitHubRepo (fun n : Z => n) None "octo"
              "repo" "main" 1000 unreadable_network) as [msg|a'].
  - destruct Hc as [_ ->]. reflexivity.
  - destruct Hc as [_ Hc]. contradiction Hc. reflexivity.
Defined.

Lemma service_errors_kept_or_prefixed_witness :
  CodebaseService_analyzeGitHubRepo (fun n : Z => n) None "octo" "nothing"
    "main" 1000 missing_network
  = inl ("Failed to analyze repository: " ++ request_message NotFound).
Proof.
  assert (H : GitHubService_analyzeGitHubRepo (fun n : Z => n) None "octo"
                "nothing" "main" 1000 missing_network
              = inl (inl NotFound)) by (vm_compute; reflexivity).
  exact (service_errors_kept_or_prefixed Z (fun n : Z => n) _ _ _ _ _ _ _ H).
Defined.

(** * What the built tree contains *)

Lemma flattenFiles_app (a b : list FileTreeNode) :
  flattenFiles (a ++ b) = (flattenFiles a ++ flattenFiles b)%list.
Proof. unfold flattenFiles. now rewrite flat_map_app, filter_app. Qed.

Lemma flattenFiles_cons (n : FileTreeNode) (l : list FileTreeNode) :
  flattenFiles (n :: l) = (flattenFiles [n] ++ flattenFiles l)%list.
Proof. exact (flattenFiles_app [n] l). Qed.

Lemma flattenFiles_file name p size language isSupported :
  flattenFiles [FileNode name p size language isSupported]
  = [FileNode name p size language isSupported].
Proof. reflexivity. Qed.

Lemma flattenFiles_directory name p children :
  flattenFiles [DirectoryNode name p children] = flattenFiles children.
Proof.
  unfold flattenFiles. cbn [flat_map traverse]. rewrite app_nil_r.
  reflexivity.
Qed.

Lemma flattenFiles_permuted (l l' : list FileTreeNode) :
  Permutation l l' -> Permutation (flattenFiles l) (flattenFiles l').
Proof.
  induction 1 as [|x l l' _ IH|x y l|l l' l'' _ IH1 _ IH2].
  - constructor.
  - rewrite (flattenFiles_cons x l), (flattenFiles_cons x l').
    now apply Permutation_app_head.
  - rewrite (flattenFiles_cons y (x :: l)), (flattenFiles_cons x l),
      (flattenFiles_cons x (y :: l)), (flattenFiles_cons y l).
    apply Permutation_app_swap_app.
  - now transitivity (flattenFiles l').
Qed.

Lemma flattenFiles_is_file (level : list FileTreeNode) n :
  In n (flattenFiles level) -> is_directory n = false.
Proof.
  unfold flattenFiles. intros H. apply filter_In in H.
  destruct H as [_ H]. now apply negb_true_iff in H.
Qed.

Section TreeContents.

Variable Content : Type.
Variable localeCompare : string -> string -> Z.

Lemma flattenFiles_map_sortNode (level : list FileTreeNode) :
  Forall (fun n => Permutation (flattenFiles [sortNode localeCompare n])
                     (flattenFiles [n])) level ->
  Permutation (flattenFiles (map (sortNode localeCompare) level))
    (flattenFiles level).
Proof.
  induction 1 as [|n level Hn _ IH]; [constructor|].
  cbn [map].
  rewrite (flattenFiles_cons _ (map _ level)), (flattenFiles_cons n level).
  now apply Permutation_app.
Qed.

Lemma flattenFiles_sortNode (n : FileTreeNode) :
  Permutation (flattenFiles [sortNode localeCompare n]) (flattenFiles [n]).
Proof.
  induction n as [name p size language isSupported|name p children IH]
    using FileTreeNode_induction; [reflexivity|].
  cbn [sortNode]. rewrite !flattenFiles_directory.
  transitivity (flattenFiles (map (sortNode localeCompare) children)).
  - apply flattenFiles_permuted, sort_perm.
  - now apply flattenFiles_map_sortNode.
Qed.

Lemma flattenFiles_sortNodes (level : list FileTreeNode) :
  Permutation (flattenFiles (sortNodes localeCompare level))
    (flattenFiles level).
Proof.
  unfold sortNodes.
  transitivity (flattenFiles (map (sortNode localeCompare) level)).
  - apply flattenFiles_permuted, sort_perm.
  - apply flattenFiles_map_sortNode, Forall_forall. intros n _.
    apply flattenFiles_sortNode.
Qed.

Lemma flattenFiles_with_children part body level name p children extra :
  find_node part level = Some (DirectoryNode name p children) ->
  Permutation (flattenFiles (body children))
    (flattenFiles children ++ extra) ->
  Permutation (flattenFiles (with_children part body level))
    (flattenFiles level ++ extra).
Proof.
  intros Hfind Hbody.
  destruct (with_children_split part body level name p children Hfind)
    as (before & after & -> & _ & ->).
  rewrite !flattenFiles_app.
  rewrite (flattenFiles_cons _ after),
    (flattenFiles_cons (DirectoryNode name p children) after).
  rewrite !flattenFiles_directory, <- !app_assoc.
  apply Permutation_app_head.
  rewrite Hbody, <- app_assoc. apply Permutation_app_head.
  apply Permutation_app_comm.
Qed.

Lemma last_cons_cons {A : Type} (x y : A) (l : list A) (d : A) :
  last (x :: y :: l) d = last (y :: l) d.
Proof. reflexivity. Qed.

(** Placing a file that fits adds its node, and nothing else, to the file
    nodes of the level. *)
Lemma place_adds_file (file : CodebaseFile Content) parts rest :
  forall i level,
    rest <> [] -> compatible rest level ->
    Permutation (flattenFiles (place file parts i rest level))
      (flattenFiles level
       ++ [FileNode (last rest "") (file_path file) (file_size file)
             (file_language file) true]).
Proof.
  induction rest as [|part rest IH]; intros i level Hne Hfit;
    [contradiction|].
  destruct (compatible_cases part rest level Hfit)
    as [Hnone|(name & p & children & Hfind & Hrest & Hfit')].
  - rewrite (place_none Content file parts i part rest level Hnone).
    rewrite flattenFiles_app. apply Permutation_app_head.
    destruct rest as [|part' rest]; [reflexivity|].
    cbn [new_node]. rewrite flattenFiles_directory, last_cons_cons.
    apply (IH (S i) []); [discriminate | apply compatible_nil].
  - rewrite (place_directory Content file parts i part rest level name p
               children Hfind Hrest).
    apply (flattenFiles_with_children part _ level name p children _ Hfind).
    destruct rest as [|part' rest]; [contradiction|].
    rewrite last_cons_cons. now apply IH.
Qed.

Lemma fold_add_lists_files (files : list (CodebaseFile Content)) :
  forall level,
    (forall f, In f files -> compatible (parts_of f) level) ->
    NoDup (map parts_of files) ->
    (forall f g, In f files -> In g files ->
                 parts_of f = parts_of g \/ diverge (parts_of f) (parts_of g)) ->
    Permutation (flattenFiles (fold_left add_file files level))
      (flattenFiles level ++ map file_node files).
Proof.
  induction files as [|x files IH]; intros level Hfit Hnd Hdiv.
  - cbn. now rewrite app_nil_r.
  - cbn [fold_left map]. inversion Hnd as [|? ? Hx Hnd']; subst.
    rewrite IH; [| | exact Hnd' |].
    + unfold add_file.
      rewrite (place_adds_file x (split "/" (file_path x))
                 (split "/" (file_path x)) 0 level).
      * rewrite <- app_assoc. reflexivity.
      * apply split_nonempty.
      * apply (Hfit x). now left.
    + intros f Hf. apply place_compatible.
      * destruct (Hdiv x f (or_introl eq_refl) (or_intror Hf)) as [E|Hd];
          [|exact Hd].
        exfalso. apply Hx. rewrite E. now apply in_map.
      * apply (Hfit x). now left.
      * apply Hfit. now right.
    + intros f g Hf Hg. apply Hdiv; now right.
Qed.

Lemma buildFileTree_files (files : list (CodebaseFile Content)) :
  consistent_paths files ->
  Permutation (flattenFiles (buildFileTree localeCompare files))
    (map file_node files).
Proof.
  intros [Hnd Hprefix]. unfold buildFileTree.
  rewrite flattenFiles_sortNodes.
  apply (fold_add_lists_files files []).
  - intros f _. apply compatible_nil.
  - now apply parts_of_nodup.
  - intros f g Hf Hg. apply proper_prefix_or_diverge; now apply Hprefix.
Qed.

(** ** Sibling names *)

Lemma unique_names_sorted_level (level : list FileTreeNode) :
  Forall (fun n => match n with
                   | DirectoryNode _ _ children =>
                       unique_names children ->
                       unique_names (sortNodes localeCompare children)
                   | FileNode _ _ _ _ _ => True
                   end) level ->
  unique_names level -> unique_names (sortNodes localeCompare level).
Proof.
  intros Hall Hu. constructor.
  - unfold sortNodes.
    apply (Permutation_NoDup
             (l := map node_name (map (sortNode localeCompare) level))).
    + apply Permutation_map, Permutation_sym, sort_perm.
    + rewrite sortNode_names. now apply unique_names_nodup.
  - intros name p children' Hin.
    apply in_sortNodes in Hin. destruct Hin as (n & Hn & E).
    destruct n as [|name0 p0 children]; [discriminate|].
    cbn [sortNode] in E. injection E as -> -> ->.
    rewrite Forall_forall in Hall. apply (Hall _ Hn).
    now apply (unique_names_children level name0 p0).
Qed.

Lemma unique_names_sortNodes (level : list FileTreeNode) :
  unique_names level -> unique_names (sortNodes localeCompare level).
Proof.
  apply unique_names_sorted_level, Forall_forall. intros n _.
  induction n as [name p size language isSupported|name p children IH]
    using FileTreeNode_induction; [exact I|].
  now apply unique_names_sorted_level.
Qed.

Lemma fold_add_unique_names (files : list (CodebaseFile Content)) :
  forall level,
    unique_names level -> unique_names (fold_left add_file files level).
Proof.
  induction files as [|x files IH]; intros level Hu; [exact Hu|].
  cbn [fold_left]. now apply IH, add_file_unique_names.
Qed.

(** X13. In the tree built from any list of files, no two siblings have the
    same name, at any level. *)
Theorem built_tree_has_unique_names (files : list (CodebaseFile Content)) :
  unique_names (buildFileTree localeCompare files).
Proof.
  unfold buildFileTree.
  apply unique_names_sortNodes, fold_add_unique_names, unique_names_nil.
Qed.

(** X14. When the paths are unique and none of them is a directory on the
    way to another, the file nodes of the built tree are exactly the nodes
    of the files, one for each: the name is the last segment of the path,
    path, size and language are the file's, and the node is marked
    supported. *)
Theorem built_tree_lists_every_file (files : list (CodebaseFile Content)) :
  consistent_paths files ->
  Permutation (flattenFiles (buildFileTree localeCompare files))
    (map file_node files)
  /\ length (flattenFiles (buildFileTree localeCompare files)) = length files.
Proof.
  intros H. pose proof (buildFileTree_files files H) as Hp.
  split; [exact Hp|].
  rewrite (Permutation_length Hp). apply length_map.
Qed.

End TreeContents.

(** * Selection over a tree *)

Lemma includes_path_In (paths : list string) (p : string) :
  includes_path paths p = true <-> In p paths.
Proof.
  unfold includes_path. rewrite existsb_exists. split.
  - intros (q & Hq & E). apply String.eqb_eq in E. now subst.
  - intros H. exists p. split; [exact H | apply String.eqb_refl].
Qed.

Lemma includes_path_permuted (paths paths' : list string) (p : string) :
  Permutation paths paths' -> includes_path paths p = includes_path paths' p.
Proof. apply existsb_permuted. Qed.

Lemma toggle_includes (paths : list string) (p q : string) :
  includes_path (toggle paths p) q
  = if String.eqb q p then negb (includes_path paths p)
    else includes_path paths q.
Proof.
  unfold toggle. destruct (includes_path paths p) eqn:Hp.
  - destruct (String.eqb_spec q p) as [->|Hne]; cbn [negb].
    + destruct (includes_path (filter _ paths) p) eqn:E; [|reflexivity].
      apply includes_path_In, filter_In in E. destruct E as [_ E].
      now rewrite String.eqb_refl in E.
    + destruct (includes_path paths q) eqn:Hq.
      * apply includes_path_In. apply includes_path_In in Hq.
        apply filter_In. split; [exact Hq|].
        apply negb_true_iff. now apply String.eqb_neq.
      * destruct (includes_path (filter _ paths) q) eqn:E; [|reflexivity].
        apply includes_path_In, filter_In in E. destruct E as [E _].
        apply includes_path_In in E. congruence.
  - unfold includes_path in *. rewrite existsb_app. cbn [existsb].
    rewrite orb_false_r.
    destruct (String.eqb_spec q p) as [->|Hne]; cbn [negb].
    + now rewrite Hp.
    + now rewrite orb_false_r.
Qed.

(** X15. [toggleSelected] flips whether the path is selected, leaves every
    other path as it was and does not touch the expanded paths;
    [toggleExpanded] does the same to the expanded paths. *)
Theorem toggle_flips_one_path (selection : FileSelection) (p q : string) :
  includes_path (selectedPaths (toggleSelected selection p)) q
  = (if String.eqb q p then negb (includes_path (selectedPaths selection) p)
     else includes_path (selectedPaths selection) q)
  /\ expandedPaths (toggleSelected selection p) = expandedPaths selection
  /\ includes_path (expandedPaths (toggleExpanded selection p)) q
     = (if String.eqb q p then negb (includes_path (expandedPaths selection) p)
        else includes_path (expandedPaths selection) q)
  /\ selectedPaths (toggleExpanded selection p) = selectedPaths selection.
Proof.
  cbn [toggleSelected toggleExpanded selectedPaths expandedPaths].
  rewrite !toggle_includes. auto.
Qed.

(** A function of a node that, on a directory, is the concatenation of its
    values on the children is determined by the file nodes. *)
Lemma flat_map_flattenFiles {B : Type} (g : FileTreeNode -> list B) :
  (forall name p children,
      g (DirectoryNode name p children) = flat_map g children) ->
  forall nodes, flat_map g nodes = flat_map g (flattenFiles nodes).
Proof.
  intros Hg.
  assert (Hnode : forall n, g n = flat_map g (flattenFiles [n])).
  { induction n as [name p size language isSupported|name p children IH]
      using FileTreeNode_induction.
    - rewrite flattenFiles_file. cbn [flat_map]. now rewrite app_nil_r.
    - rewrite flattenFiles_directory, Hg.
      induction IH as [|n children Hn _ IHc]; [reflexivity|].
      rewrite (flattenFiles_cons n children), flat_map_app.
      cbn [flat_map]. now rewrite Hn, IHc. }
  induction nodes as [|n nodes IH]; [reflexivity|].
  rewrite (flattenFiles_cons n nodes), flat_map_app. cbn [flat_map].
  now rewrite <- Hnode, IH.
Qed.

Lemma processTree_expanded_self (d : FileTreeNode) :
  is_directory d = true -> In (node_path d) (processTree_expanded d).
Proof. destruct d; [discriminate|]. intros _. now left. Qed.

Lemma processTree_expanded_below (d m : FileTreeNode) :
  below d m -> is_directory d = true ->
  In (node_path d) (processTree_expanded m).
Proof.
  intros Hb. induction Hb as [n name p children Hin|n m name p children Hin _ IH];
    intros Hd; cbn [processTree_expanded]; right; apply in_flat_map.
  - exists n. split; [exact Hin | now apply processTree_expanded_self].
  - exists m. split; [exact Hin | now apply IH].
Qed.

Lemma processTree_expanded_directory (m : FileTreeNode) (p : string) :
  In p (processTree_expanded m) ->
  exists d, (d = m \/ below d m) /\ is_directory d = true /\ node_path d = p.
Proof.
  induction m as [name q size language isSupported|name q children IH]
    using FileTreeNode_induction; [intros []|].
  cbn [processTree_expanded]. intros [<-|Hin].
  - exists (DirectoryNode name q children). auto.
  - apply in_flat_map in Hin. destruct Hin as (c & Hc & Hp).
    rewrite Forall_forall in IH.
    destruct (IH c Hc Hp) as (d & Hor & Hd & Hpath).
    exists d. repeat split; try assumption. right.
    destruct Hor as [->|Hb].
    + now apply below_child.
    + now apply (below_deeper d c).
Qed.

(** X16. The import expands every directory of the tree, at every depth,
    and nothing else: a path is among the expanded paths that
    [handleFileImport] sets exactly when it is the path of a directory node
    of the tree. *)
Theorem import_expands_every_directory (nodes : list FileTreeNode)
    (p : string) :
  In p (expandedPaths (processTree nodes))
  <-> exists d, in_tree d nodes /\ is_directory d = true /\ node_path d = p.
Proof.
  cbn [processTree expandedPaths]. rewrite in_flat_map. split.
  - intros (m & Hm & Hp).
    destruct (processTree_expanded_directory m p Hp)
      as (d & Hor & Hd & Hpath).
    exists d. repeat split; try assumption.
    destruct Hor as [->|Hb]; [now left|]. right. now exists m.
  - intros (d & [Hin|(m & Hm & Hb)] & Hd & <-).
    + exists d. split; [exact Hin | now apply processTree_expanded_self].
    + exists m. split; [exact Hm | now apply processTree_expanded_below].
Qed.

Section SelectionFacts.

Variable Content : Type.
Variable localeCompare : string -> string -> Z.

Lemma getSelectedFiles_flatten (nodes : list FileTreeNode)
    (selected : list string) (allFiles : list (CodebaseFile Content)) :
  getSelectedFiles nodes selected allFiles
  = flat_map (collectFiles_node selected allFiles) (flattenFiles nodes).
Proof. unfold getSelectedFiles. now apply flat_map_flattenFiles. Qed.

Lemma find_unique_path (files : list (CodebaseFile Content)) f :
  NoDup (map file_path files) -> In f files ->
  find (fun g => String.eqb (file_path g) (file_path f)) files = Some f.
Proof.
  induction files as [|x files IH]; intros Hnd Hin; [contradiction|].
  cbn [map] in Hnd. inversion Hnd as [|? ? Hx Hnd']; subst.
  cbn [find]. destruct Hin as [->|Hin].
  - now rewrite String.eqb_refl.
  - destruct (String.eqb_spec (file_path x) (file_path f)) as [E|_].
    + exfalso. apply Hx. rewrite E. now apply in_map.
    + now apply IH.
Qed.

Lemma collect_file_nodes (selected : list string)
    (allFiles files : list (CodebaseFile Content)) :
  NoDup (map file_path allFiles) -> incl files allFiles ->
  flat_map (collectFiles_node selected allFiles) (map file_node files)
  = filter (fun f => includes_path selected (file_path f)) files.
Proof.
  intros Hnd. induction files as [|f files IH]; intros Hincl; [reflexivity|].
  cbn [map flat_map filter file_node collectFiles_node].
  rewrite IH by (intros g Hg; apply Hincl; now right).
  destruct (includes_path selected (file_path f)); [|reflexivity].
  rewrite (find_unique_path allFiles f Hnd) by (apply Hincl; now left).
  reflexivity.
Qed.

Lemma selected_of_built_tree (files : list (CodebaseFile Content))
    (selected : list string) :
  consistent_paths files ->
  Permutation
    (getSelectedFiles (buildFileTree localeCompare files) selected files)
    (filter (fun f => includes_path selected (file_path f)) files).
Proof.
  intros Hc. rewrite getSelectedFiles_flatten.
  rewrite <- (collect_file_nodes selected files files (proj1 Hc)
                (incl_refl files)).
  apply Permutation_flat_map, buildFileTree_files, Hc.
Qed.

(** X17. On the tree built from files with consistent paths,
    [getSelectedFiles] returns exactly the files whose path is selected,
    each once, whatever else the selection contains. *)
Theorem selected_files_are_recovered (files : list (CodebaseFile Content))
    (selected : list string) :
  consistent_paths files ->
  Permutation
    (getSelectedFiles (buildFileTree localeCompare files) selected files)
    (filter (fun f => includes_path selected (file_path f)) files).
Proof. apply selected_of_built_tree. Qed.

Lemma processTree_selected_flatten (nodes : list FileTreeNode) :
  flat_map processTree_selected nodes
  = flat_map processTree_selected (flattenFiles nodes).
Proof. now apply flat_map_flattenFiles. Qed.

Lemma processTree_selected_file_nodes (files : list (CodebaseFile Content)) :
  flat_map processTree_selected (map file_node files) = map file_path files.
Proof.
  induction files as [|f files IH]; [reflexivity|].
  cbn [map flat_map file_node processTree_selected app]. now rewrite IH.
Qed.

Lemma collectPaths_processTree (nodes : list FileTreeNode) :
  collectPaths nodes = flat_map processTree_selected nodes.
Proof.
  unfold collectPaths. apply flat_map_ext. intros n.
  induction n as [name p size language isSupported|name p children IH]
    using FileTreeNode_induction; [reflexivity|].
  cbn [collectPaths_node processTree_selected].
  induction IH as [|c children Hc _ IHc]; [reflexivity|].
  cbn [flat_map]. now rewrite Hc, IHc.
Qed.

(** X18. Import, then analyse: on files with consistent paths,
    [handleFileImport] selects the path of every file, [Select All] gives
    the same selection again, and [getSelectedFiles] on that selection
    returns every imported file once. *)
Theorem import_selects_every_file (files : list (CodebaseFile Content))
    (selection : FileSelection) :
  consistent_paths files ->
  let tree := buildFileTree localeCompare files in
  Permutation (selectedPaths (processTree tree)) (map file_path files)
  /\ selectedPaths (selectAll tree selection) = selectedPaths (processTree tree)
  /\ Permutation
       (getSelectedFiles tree (selectedPaths (processTree tree)) files)
       files.
Proof.
  intros Hc tree.
  assert (Hsel : Permutation (selectedPaths (processTree tree))
                   (map file_path files)).
  { cbn [processTree selectedPaths].
    rewrite processTree_selected_flatten,
      <- processTree_selected_file_nodes.
    apply Permutation_flat_map, buildFileTree_files, Hc. }
  split; [exact Hsel|]. split.
  - cbn [selectAll processTree selectedPaths]. apply collectPaths_processTree.
  - unfold tree. rewrite selected_of_built_tree by exact Hc.
    rewrite forallb_filter_id; [reflexivity|].
    apply forallb_forall. intros f Hf.
    rewrite (includes_path_permuted _ _ _ Hsel).
    apply includes_path_In. now apply in_map.
Qed.

End SelectionFacts.

(** ** The count shown and the files analysed *)

Lemma filter_permuted_length {A : Type} (f : A -> bool) (l l' : list A) :
  Permutation l l' -> length (filter f l) = length (filter f l').
Proof.
  induction 1 as [|x l l' _ IH|x y l|l l' l'' _ IH1 _ IH2]; cbn [filter].
  - reflexivity.
  - destruct (f x); cbn [length]; now rewrite IH.
  - destruct (f x), (f y); reflexivity.
  - congruence.
Qed.

Lemma flat_map_ext_among {A B : Type} (f g : A -> list B) (l : list A) :
  (forall a, In a l -> f a = g a) -> flat_map f l = flat_map g l.
Proof.
  induction l as [|a l IH]; intros H; [reflexivity|].
  cbn [flat_map]. rewrite (H a) by now left.
  rewrite IH; [reflexivity|]. intros b Hb. apply H. now right.
Qed.

Lemma forallb_flat_map {A B : Type} (f : B -> bool) (g : A -> list B)
    (l : list A) :
  forallb f (flat_map g l) = forallb (fun a => forallb f (g a)) l.
Proof.
  induction l as [|a l IH]; [reflexivity|].
  cbn [flat_map forallb]. now rewrite forallb_app, IH.
Qed.

Lemma list_sum_cons (x : nat) (l : list nat) :
  list_sum (x :: l) = x + list_sum l.
Proof. reflexivity. Qed.

(** When no directory of the forest has its path selected, the count is the
    number of file nodes whose path is selected. *)
Lemma countSelected_file_nodes (selected : list string)
    (nodes : list FileTreeNode) :
  forallb (fun p => negb (includes_path selected p))
    (flat_map processTree_expanded nodes) = true ->
  list_sum (map (countSelected_node selected) nodes)
  = length (filter (fun n => includes_path selected (node_path n))
              (flattenFiles nodes)).
Proof.
  assert (Hnode : forall n,
             forallb (fun p => negb (includes_path selected p))
               (processTree_expanded n) = true ->
             countSelected_node selected n
             = length (filter (fun n => includes_path selected (node_path n))
                         (flattenFiles [n]))).
  { induction n as [name p size language isSupported|name p children IH]
      using FileTreeNode_induction; intros Hdir.
    - rewrite flattenFiles_file.
      cbn [countSelected_node filter node_path].
      now destruct (includes_path selected p).
    - cbn [processTree_expanded forallb] in Hdir.
      apply andb_true_iff in Hdir. destruct Hdir as [Hp Hdir].
      apply negb_true_iff in Hp.
      cbn [countSelected_node]. rewrite Hp, flattenFiles_directory.
      rewrite forallb_flat_map in Hdir.
      induction IH as [|c children Hc _ IHc]; [reflexivity|].
      cbn [forallb] in Hdir. apply andb_true_iff in Hdir.
      destruct Hdir as [Hdc Hdir].
      rewrite (flattenFiles_cons c children), filter_app, length_app.
      cbn [map]. rewrite list_sum_cons. now rewrite (Hc Hdc), (IHc Hdir). }
  intros Hdir. rewrite forallb_flat_map in Hdir.
  induction nodes as [|n nodes IH]; [reflexivity|].
  cbn [forallb] in Hdir. apply andb_true_iff in Hdir.
  destruct Hdir as [Hn Hdir].
  rewrite (flattenFiles_cons n nodes), filter_app, length_app.
  cbn [map]. rewrite list_sum_cons. now rewrite (Hnode n Hn), (IH Hdir).
Qed.

Section CountFacts.

Variable Content : Type.
Variable localeCompare : string -> string -> Z.

Lemma filter_file_nodes (selected : list string)
    (files : list (CodebaseFile Content)) :
  length (filter (fun n => includes_path selected (node_path n))
            (map file_node files))
  = length (filter (fun f => includes_path selected (file_path f)) files).
Proof.
  induction files as [|f files IH]; [reflexivity|].
  cbn [map filter file_node node_path].
  destruct (includes_path selected (file_path f)); cbn [length];
    now rewrite IH.
Qed.

(** X19. On the tree built from files with consistent paths, as long as no
    directory has its path selected, the number that [getSelectedCount]
    shows is the number of files that [getSelectedFiles] returns. *)
Theorem selected_count_matches_files (files : list (CodebaseFile Content))
    (selection : FileSelection) :
  consistent_paths files ->
  let tree := buildFileTree localeCompare files in
  forallb (fun p => negb (includes_path (selectedPaths selection) p))
    (expandedPaths (processTree tree)) = true ->
  getSelectedCount tree selection
  = length (getSelectedFiles tree (selectedPaths selection) files).
Proof.
  intros Hc tree Hdir. unfold getSelectedCount.
  rewrite (countSelected_file_nodes _ tree Hdir).
  unfold tree.
  rewrite (Permutation_length
             (selected_of_built_tree Content localeCompare files
                (selectedPaths selection) Hc)).
  rewrite (filter_permuted_length _ _ _
             (buildFileTree_files Content localeCompare files Hc)).
  apply filter_file_nodes.
Qed.

(** X20. Selecting or deselecting a path that no file node has, such as
    the path of a directory, does not change what [getSelectedFiles]
    returns; yet a directory whose path is selected is counted by
    [getSelectedCount] with every file below it. *)
Theorem selecting_a_directory_adds_no_file (nodes : list FileTreeNode)
    (selection : FileSelection) (p : string)
    (allFiles : list (CodebaseFile Content)) :
  (forall n, In n (flattenFiles nodes) -> node_path n <> p) ->
  getSelectedFiles nodes (selectedPaths (toggleSelected selection p)) allFiles
  = getSelectedFiles nodes (selectedPaths selection) allFiles
  /\ forall name children,
       includes_path (selectedPaths selection) p = true ->
       getSelectedCount [DirectoryNode name p children] selection
       = length (flattenFiles children).
Proof.
  intros Hp. split.
  - rewrite !getSelectedFiles_flatten. apply flat_map_ext_among.
    intros n Hn. pose proof (flattenFiles_is_file nodes n Hn) as Hfile.
    destruct n as [name q size language isSupported|]; [|discriminate].
    cbn [collectFiles_node toggleSelected selectedPaths].
    rewrite toggle_includes.
    destruct (String.eqb_spec q p) as [E|_]; [|reflexivity].
    exfalso. exact (Hp _ Hn E).
  - intros name children Hsel. unfold getSelectedCount.
    cbn [map countSelected_node]. rewrite list_sum_cons, Hsel.
    cbn [list_sum fold_right]. lia.
Qed.

End CountFacts.

(** ** The properties of the tree on the example of the specification *)

Lemma spec_files_consistent : consistent_paths spec_files.
Proof.
  split.
  - repeat constructor; simpl; intuition discriminate.
  - intros f g [<-|[<-|[<-|[]]]] [<-|[<-|[<-|[]]]]; reflexivity.
Qed.

Lemma built_tree_lists_every_file_witness :
  consistent_paths spec_files
  /\ length (flattenFiles (buildFileTree code_unit_compare spec_files)) = 3.
Proof.
  split; [exact spec_files_consistent|].
  exact (proj2 (built_tree_lists_every_file string code_unit_compare
                  spec_files spec_files_consistent)).
Defined.

Lemma selected_files_are_recovered_witness :
  consistent_paths spec_files
  /\ Permutation
       (getSelectedFiles (buildFileTree code_unit_compare spec_files)
          ["e.txt"; "a"] spec_files)
       [sample_file "e.txt"].
Proof.
  split; [exact spec_files_consistent|].
  exact (selected_files_are_recovered string code_unit_compare spec_files
           ["e.txt"; "a"] spec_files_consistent).
Defined.

Lemma import_selects_every_file_witness :
  consistent_paths spec_files
  /\ Permutation
       (getSelectedFiles (buildFileTree code_unit_compare spec_files)
          (selectedPaths
             (processTree (buildFileTree code_unit_compare spec_files)))
          spec_files)
       spec_files.
Proof.
  split; [exact spec_files_consistent|].
  exact (proj2 (proj2 (import_selects_every_file string code_unit_compare
                         spec_files (processTree []) spec_files_consistent))).
Defined.

Lemma import_expands_every_directory_witness :
  In "a/c" (expandedPaths (processTree spec_tree)).
Proof.
  apply (proj2 (import_expands_every_directory spec_tree "a/c")).
  exists (DirectoryNode "c" "a/c" [FileNode "d.txt" "a/c/d.txt" 0 None true]).
  split; [|split; reflexivity].
  right.
  exists (DirectoryNode "a" "a"
            [DirectoryNode "c" "a/c" [FileNode "d.txt" "a/c/d.txt" 0 None true];
             FileNode "b.txt" "a/b.txt" 0 None true]).
  split; [now left|]. apply below_child. now left.
Defined.

Lemma selected_count_matches_files_witness :
  consistent_paths spec_files
  /\ getSelectedCount (buildFileTree code_unit_compare spec_files)
       {| selectedPaths := ["e.txt"; "a/b.txt"]; expandedPaths := [] |}
     = 2.
Proof.
  split; [exact spec_files_consistent|].
  exact (selected_count_matches_files string code_unit_compare spec_files
           {| selectedPaths := ["e.txt"; "a/b.txt"]; expandedPaths := [] |}
           spec_files_consistent eq_refl).
Defined.

Lemma selecting_a_directory_adds_no_file_witness :
  getSelectedFiles spec_tree
    (selectedPaths
       (toggleSelected {| selectedPaths := []; expandedPaths := [] |} "a"))
    spec_files
  = []
  /\ getSelectedCount spec_tree {| selectedPaths := ["a"]; expandedPaths := [] |}
     = 2.
Proof.
  assert (H : forall n, In n (flattenFiles spec_tree) -> node_path n <> "a")
    by (intros n [<-|[<-|[<-|[]]]]; discriminate).
  split; [|reflexivity].
  exact (proj1 (selecting_a_directory_adds_no_file string spec_tree
                  {| selectedPaths := []; expandedPaths := [] |} "a"
                  spec_files H)).
Defined.

(** * The paths of the directories of the built tree *)

Lemma split_slash_free (s : string) :
  Forall (fun part => includes "/" part = false) (split "/" s).
Proof.
  induction s as [|c s IH]; cbn [split].
  - constructor; [reflexivity | constructor].
  - destruct (Ascii.eqb c "/") eqn:Hc.
    + constructor; [reflexivity | exact IH].
    + destruct (split "/" s) as [|h t].
      * constructor; [|constructor].
        rewrite includes_slash_cons, Hc. reflexivity.
      * inversion IH as [|? ? Hh Ht]; subst. constructor; [|exact Ht].
        rewrite includes_slash_cons, Hc, Hh. reflexivity.
Qed.

(** [split] undoes [join] on segments without a slash. *)
Lemma split_join (parts : list string) :
  parts <> [] -> Forall (fun part => includes "/" part = false) parts ->
  split "/" (join "/" parts) = parts.
Proof.
  unfold join. induction parts as [|a parts IH]; intros Hne Hall;
    [contradiction|].
  inversion Hall as [|? ? Ha Hrest]; subst.
  destruct parts as [|b parts].
  - cbn [String.concat]. now apply split_without_slash.
  - rewrite concat_two, split_at_slash by exact Ha.
    rewrite IH; [reflexivity | discriminate | exact Hrest].
Qed.

Lemma proper_prefix_firstn (l : list string) (k : nat) :
  k < length l -> proper_prefix (firstn k l) l = true.
Proof.
  revert k. induction l as [|x l IH]; intros k Hk; [cbn in Hk; lia|].
  destruct k as [|k]; [reflexivity|].
  cbn [firstn proper_prefix]. rewrite String.eqb_refl. apply IH.
  cbn in Hk. lia.
Qed.

Lemma firstn_Forall {A : Type} (P : A -> Prop) (k : nat) (l : list A) :
  Forall P l -> Forall P (firstn k l).
Proof.
  intros H. apply Forall_forall. intros x Hx.
  rewrite Forall_forall in H. apply H.
  exact (subsequence_in _ _ x (subsequence_firstn k l) Hx).
Qed.

Lemma skipn_length_lt {A : Type} (i : nat) (l : list A) x r :
  skipn i l = x :: r -> length l = i + S (length r).
Proof.
  intros H. pose proof (length_skipn i l) as Hl. rewrite H in Hl.
  cbn [length] in Hl. lia.
Qed.

Section DirectoryPaths.

Variable Content : Type.
Variable localeCompare : string -> string -> Z.

Lemma place_last_exists (file : CodebaseFile Content) parts i part level
    node :
  find_node part level = Some node ->
  place file parts i [part] level = level.
Proof. intros H. cbn [place]. now rewrite H. Qed.

Lemma place_file_clash (file : CodebaseFile Content) parts i part rest level
    name p size language isSupported :
  find_node part level = Some (FileNode name p size language isSupported) ->
  rest <> [] ->
  place file parts i (part :: rest) level
  = place file parts (S i) rest level.
Proof.
  intros H Hne. cbn [place]. rewrite H.
  destruct rest; [contradiction | reflexivity].
Qed.

(** A directory that [place] adds has as path the join of a proper,
    non-empty prefix of the segments. *)
Lemma place_directory_paths (file : CodebaseFile Content) parts rest :
  forall i level p,
    skipn i parts = rest ->
    In p (flat_map processTree_expanded (place file parts i rest level)) ->
    In p (flat_map processTree_expanded level)
    \/ exists k, i < k < length parts /\ p = join "/" (firstn k parts).
Proof.
  induction rest as [|part rest IH]; intros i level p Hskip Hin;
    [now left|].
  destruct (skipn_step i parts part rest Hskip) as (_ & _ & Hskip').
  pose proof (skipn_length_lt i parts part rest Hskip) as Hlen.
  destruct (find_node part level) as [node|] eqn:Hfind.
  - destruct rest as [|part' rest].
    { rewrite (place_last_exists file parts i part level node Hfind) in Hin.
      now left. }
    destruct node as [name q size language isSupported|name q children].
    + rewrite (place_file_clash file parts i part (part' :: rest) level
                 name q size language isSupported Hfind) in Hin
        by discriminate.
      destruct (IH (S i) level p Hskip' Hin) as [Hold|(k & Hk & E)];
        [now left|].
      right. exists k. split; [lia | exact E].
    + rewrite (place_directory Content file parts i part (part' :: rest)
                 level name q children Hfind) in Hin by discriminate.
      destruct (with_children_split part
                  (place file parts (S i) (part' :: rest)) level name q
                  children Hfind) as (before & after & -> & _ & Hwc).
      rewrite Hwc in Hin. rewrite !flat_map_app in *.
      cbn [flat_map processTree_expanded] in *.
      apply in_app_or in Hin. destruct Hin as [Hin|Hin].
      { left. apply in_or_app. now left. }
      apply in_app_or in Hin. destruct Hin as [[<-|Hin]|Hin].
      * left. apply in_or_app. right. apply in_or_app. left. now left.
      * destruct (IH (S i) children p Hskip' Hin) as [Hold|(k & Hk & E)].
        -- left. apply in_or_app. right. apply in_or_app. left. now right.
        -- right. exists k. split; [lia | exact E].
      * left. apply in_or_app. right. apply in_or_app. now right.
  - rewrite (place_none Content file parts i part rest level Hfind) in Hin.
    rewrite flat_map_app in Hin. apply in_app_or in Hin.
    destruct Hin as [Hin|Hin]; [now left|].
    destruct rest as [|part' rest]; [destruct Hin|].
    cbn [new_node flat_map processTree_expanded] in Hin.
    rewrite app_nil_r in Hin. destruct Hin as [<-|Hin].
    + right. exists (i + 1). cbn [length] in Hlen. split; [lia|reflexivity].
    + destruct (IH (S i) [] p Hskip' Hin) as [[]|(k & Hk & E)].
      right. exists k. split; [lia | exact E].
Qed.

Lemma fold_add_directory_paths (files : list (CodebaseFile Content)) :
  forall level p,
    In p (flat_map processTree_expanded (fold_left add_file files level)) ->
    In p (flat_map processTree_expanded level)
    \/ exists f k, In f files /\ 0 < k < length (parts_of f)
                   /\ p = join "/" (firstn k (parts_of f)).
Proof.
  induction files as [|x files IH]; intros level p Hin; [now left|].
  cbn [fold_left] in Hin.
  destruct (IH _ p Hin) as [Hold|(f & k & Hf & Hk & E)].
  - unfold add_file in Hold.
    destruct (place_directory_paths x (split "/" (file_path x))
                (split "/" (file_path x)) 0 level p eq_refl Hold)
      as [Hlevel|(k & Hk & E)]; [now left|].
    right. exists x, k. split; [now left|]. split; [exact Hk | exact E].
  - right. exists f, k. split; [now right|]. auto.
Qed.

Lemma expanded_map_sortNode (level : list FileTreeNode) :
  Forall (fun n => Permutation
                     (processTree_expanded (sortNode localeCompare n))
                     (processTree_expanded n)) level ->
  Permutation
    (flat_map processTree_expanded (map (sortNode localeCompare) level))
    (flat_map processTree_expanded level).
Proof.
  induction 1 as [|n level Hn _ IH]; [constructor|].
  cbn [map flat_map]. now apply Permutation_app.
Qed.

Lemma expanded_sortNode (n : FileTreeNode) :
  Permutation (processTree_expanded (sortNode localeCompare n))
    (processTree_expanded n).
Proof.
  induction n as [name p size language isSupported|name p children IH]
    using FileTreeNode_induction; [reflexivity|].
  cbn [sortNode processTree_expanded]. apply perm_skip.
  transitivity
    (flat_map processTree_expanded (map (sortNode localeCompare) children)).
  - apply Permutation_flat_map, sort_perm.
  - now apply expanded_map_sortNode.
Qed.

Lemma expanded_sortNodes (level : list FileTreeNode) :
  Permutation (flat_map processTree_expanded (sortNodes localeCompare level))
    (flat_map processTree_expanded level).
Proof.
  unfold sortNodes.
  transitivity
    (flat_map processTree_expanded (map (sortNode localeCompare) level)).
  - apply Permutation_flat_map, sort_perm.
  - apply expanded_map_sortNode, Forall_forall. intros n _.
    apply expanded_sortNode.
Qed.

(** With consistent paths, no directory of the built tree has the path of
    a file. *)
Lemma directory_paths_are_not_files (files : list (CodebaseFile Content))
    (p : string) :
  consistent_paths files ->
  In p (flat_map processTree_expanded (buildFileTree localeCompare files)) ->
  ~ In p (map file_path files).
Proof.
  intros [_ Hprefix] Hin Hfile. unfold buildFileTree in Hin.
  apply (Permutation_in _ (expanded_sortNodes _)) in Hin.
  destruct (fold_add_directory_paths files [] p Hin)
    as [[]|(f & k & Hf & Hk & ->)].
  apply in_map_iff in Hfile. destruct Hfile as (g & Hg & Hgin).
  assert (Hparts : parts_of g = firstn k (parts_of f)).
  { unfold parts_of at 1. rewrite Hg. apply split_join.
    - destruct (parts_of f); [cbn in Hk; lia|].
      destruct k; [lia | discriminate].
    - apply firstn_Forall, split_slash_free. }
  specialize (Hprefix g f Hgin Hf). rewrite Hparts in Hprefix.
  rewrite proper_prefix_firstn in Hprefix by lia. discriminate.
Qed.

Lemma import_selection (files : list (CodebaseFile Content)) :
  consistent_paths files ->
  Permutation
    (flat_map processTree_selected (buildFileTree localeCompare files))
    (map file_path files).
Proof.
  intros Hc.
  rewrite processTree_selected_flatten,
    <- (processTree_selected_file_nodes Content).
  apply Permutation_flat_map, buildFileTree_files, Hc.
Qed.

(** X21. Right after an import of files with consistent paths, the number
    of selected files that [getSelectedCount] shows is the number of
    imported files, and no directory path is among the selected paths. *)
Theorem import_count_is_file_count (files : list (CodebaseFile Content)) :
  consistent_paths files ->
  let tree := buildFileTree localeCompare files in
  getSelectedCount tree (processTree tree) = length files
  /\ forall p, In p (expandedPaths (processTree tree)) ->
               ~ In p (selectedPaths (processTree tree)).
Proof.
  intros Hc tree.
  pose proof (import_selection files Hc) as Hsel.
  assert (Hdir : forall p, In p (expandedPaths (processTree tree)) ->
                           ~ In p (selectedPaths (processTree tree))).
  { intros p Hp Hs. cbn [processTree expandedPaths selectedPaths] in Hp, Hs.
    apply (directory_paths_are_not_files files p Hc Hp).
    exact (Permutation_in _ Hsel Hs). }
  split; [|exact Hdir].
  unfold getSelectedCount. rewrite countSelected_file_nodes.
  - rewrite forallb_filter_id.
    + unfold tree.
      rewrite (Permutation_length
                 (buildFileTree_files Content localeCompare files Hc)).
      apply length_map.
    + apply forallb_forall. intros n Hn. apply includes_path_In.
      cbn [processTree selectedPaths].
      apply (Permutation_in _ (Permutation_sym Hsel)).
      apply (Permutation_in _
               (buildFileTree_files Content localeCompare files Hc)) in Hn.
      apply in_map_iff in Hn. destruct Hn as (f & <- & Hf).
      cbn [file_node node_path]. now apply in_map.
  - apply forallb_forall. intros p Hp. apply negb_true_iff.
    destruct (includes_path (selectedPaths (processTree tree)) p) eqn:E;
      [|reflexivity].
    apply includes_path_In in E. exfalso. exact (Hdir p Hp E).
Qed.

End DirectoryPaths.

Lemma import_count_is_file_count_witness :
  consistent_paths spec_files
  /\ getSelectedCount (buildFileTree code_unit_compare spec_files)
       (processTree (buildFileTree code_unit_compare spec_files))
     = 3.
Proof.
  split; [exact spec_files_consistent|].
  exact (proj1 (import_count_is_file_count string code_unit_compare
                  spec_files spec_files_consistent)).
Defined.

(** * From the import to the tree *)

Section Composition.

Variable Content : Type.
Variable content_length : Content -> Z.
Variable localeCompare : string -> string -> Z.

Lemma fetched_ext (net net' : Network Content) :
  (forall p k, getFileContent net p k = getFileContent net' p k) ->
  forall item,
    fetched content_length net item = fetched content_length net' item
    /\ fails_all_attempts net item = fails_all_attempts net' item.
Proof.
  intros H item. unfold fetched, fails_all_attempts.
  rewrite !fetchFileWithRetry_3. cbv zeta. cbn [forallb].
  rewrite !H. auto.
Qed.

Lemma import_result_ext (net net' : Network Content) targetRef listing :
  treeRes net = treeRes net' ->
  (forall p k, getFileContent net p k = getFileContent net' p k) ->
  match import_listing content_length net targetRef listing with
  | inl e => inl e
  | inr (_, result) => inr result
  end
  = match import_listing content_length net' targetRef listing with
    | inl e => inl e
    | inr (_, result) => inr result
    end.
Proof.
  intros Ht Hg. unfold import_listing. cbv zeta.
  destruct (limitedItems listing) as [|x items] eqn:E; [reflexivity|].
  pose proof (download_all Content content_length net (x :: items)) as H.
  pose proof (download_all Content content_length net' (x :: items)) as H'.
  cbv zeta in H, H'.
  destruct H as (Hf & _ & Hfail & _). destruct H' as (Hf' & _ & Hfail' & _).
  rewrite Hf, Hf', Hfail, Hfail', Ht.
  rewrite (flat_map_ext _ _ (fun item => proj1 (fetched_ext net net' Hg item))).
  rewrite (filter_ext _ _ (fun item => proj2 (fetched_ext net net' Hg item))).
  reflexivity.
Qed.

(** X22. With a branch given, [fetchGithubRepo] never consults the
    repository endpoint: two networks that answer the tree and content
    requests alike give the same result or the same error, whatever the
    repository endpoint says about existence, privacy or rate limits. *)
Theorem explicit_branch_skips_repository_request
    (repoString branch : string) (token : option string)
    (net net' : Network Content) :
  branch <> "" ->
  treeRes net = treeRes net' ->
  (forall p k, getFileContent net p k = getFileContent net' p k) ->
  fetchGithubRepo content_length repoString branch token net
  = fetchGithubRepo content_length repoString branch token net'.
Proof.
  intros Hb Ht Hg. unfold fetchGithubRepo, fetchGithubRepo_run.
  destruct (parse_repo repoString) as [e|[owner repo]]; [reflexivity|].
  assert (Hr : forall res,
             resolve_ref owner repo branch token res = inr branch).
  { intros res. unfold resolve_ref.
    destruct (String.eqb_spec branch ""); [contradiction | reflexivity]. }
  rewrite !Hr, <- Ht.
  destruct (fetch_tree owner repo branch (treeRes net)) as [e|listing];
    [reflexivity|].
  now apply import_result_ext.
Qed.

(** X23. The files of an import fit the tree builder: when the listing has
    no path twice and no blob whose path is a directory on the way to
    another blob, the returned files have consistent paths, and the tree
    built from them has exactly one file node for each. *)
Theorem imported_files_build_a_faithful_tree repoString branch token
    (net : Network Content) st result :
  fetchGithubRepo_run content_length repoString branch token net
  = inr (st, result) ->
  NoDup (map item_path (listing_of net)) ->
  (forall a b,
      In a (listing_of net) -> In b (listing_of net) ->
      item_type a = blob -> item_type b = blob ->
      proper_prefix (split "/" (item_path a)) (split "/" (item_path b))
      = false) ->
  let imported := map to_codebase_file (files result) in
  consistent_paths imported
  /\ Permutation (flattenFiles (buildFileTree localeCompare imported))
       (map file_node imported).
Proof.
  intros H Hnd Hprefix imported.
  assert (Hc : consistent_paths imported).
  { apply run_result in H. destruct H as (_ & _ & _ & Hfiles & _).
    split.
    - unfold imported. rewrite map_map. cbn [to_codebase_file file_path].
      change (fun x : ProjectFile Content => path x) with (@path Content).
      rewrite Hfiles.
      eapply subsequence_nodup; [apply fetched_paths|].
      eapply subsequence_nodup; [|exact Hnd].
      apply subsequence_map. apply limitedItems_subsequence.
    - assert (Hblob : forall f, In f imported ->
                 exists item, In item (listing_of net)
                              /\ item_type item = blob
                              /\ parts_of f = split "/" (item_path item)).
      { intros f Hf. unfold imported in Hf. apply in_map_iff in Hf.
        destruct Hf as (pf & <- & Hpf). rewrite Hfiles in Hpf.
        apply in_flat_map in Hpf. destruct Hpf as (item & Hitem & Hpf).
        apply fetched_file in Hpf. destruct Hpf as (Hp & _).
        apply limitedItems_in in Hitem. destruct Hitem as (Hin & Hb & _).
        exists item. repeat split; try assumption.
        unfold parts_of. cbn [to_codebase_file file_path]. now rewrite Hp. }
      intros f g Hf Hg.
      destruct (Hblob f Hf) as (a & Ha & Hta & ->).
      destruct (Hblob g Hg) as (b & Hb & Htb & ->).
      now apply Hprefix. }
  split; [exact Hc|]. now apply buildFileTree_files.
Qed.

End Composition.

Lemma explicit_branch_skips_repository_request_witness :
  fetchGithubRepo text_length "octo/repo" "main" None one_failure_no_repository
  = inr (snd one_failure_outcome).
Proof.
  assert (Hb : "main" <> "") by discriminate.
  assert (Hrun : fetchGithubRepo text_length "octo/repo" "main" None
                   one_failure = inr (snd one_failure_outcome))
    by (vm_compute; reflexivity).
  rewrite <- Hrun. symmetry.
  exact (explicit_branch_skips_repository_request string text_length
           "octo/repo" "main" None one_failure one_failure_no_repository
           Hb eq_refl (fun _ _ => eq_refl)).
Defined.

Lemma imported_files_build_a_faithful_tree_witness :
  fetchGithubRepo_run text_length "octo/repo" "" None one_failure
  = inr one_failure_outcome
  /\ consistent_paths
       (map to_codebase_file (files (snd one_failure_outcome))).
Proof.
  assert (H : fetchGithubRepo_run text_length "octo/repo" "" None one_failure
              = inr (fst one_failure_outcome, snd one_failure_outcome))
    by (vm_compute; reflexivity).
  assert (Hn : NoDup (map item_path (listing_of one_failure)))
    by (repeat constructor; simpl; intuition discriminate).
  assert (Hp : forall a b,
             In a (listing_of one_failure) -> In b (listing_of one_failure) ->
             item_type a = blob -> item_type b = blob ->
             proper_prefix (split "/" (item_path a))
               (split "/" (item_path b)) = false)
    by (intros a b [<-|[<-|[]]] [<-|[<-|[]]] _ _; reflexivity).
  split; [exact H|].
  exact (proj1 (imported_files_build_a_faithful_tree string text_length
                  code_unit_compare _ _ _ _ _ _ H Hn Hp)).
Defined.

Lemma requested_branch_is_ignored_witness :
  GitHubService_analyzeGitHubRepo (fun n : Z => n) None "octo" "repo"
    "feature" 1000 branchless_network
  = inl (inr (BranchNotFound "develop"))
  /\ ("develop" = branch_or_main (http_body (repo_anonymous branchless_network))
      \/ "develop"
         = branch_or_main (http_body (repo_with_headers branchless_network))
      \/ "develop"
         = branch_or_main (http_body (repo_authenticated branchless_network))).
Proof.
  assert (H : GitHubService_analyzeGitHubRepo (fun n : Z => n) None "octo"
                "repo" "feature" 1000 branchless_network
              = inl (inr (BranchNotFound "develop")))
    by (vm_compute; reflexivity).
  split; [exact H|].
  exact (proj2 (requested_branch_is_ignored Z (fun n : Z => n) None "octo"
                  "repo" "feature" "main" 1000 branchless_network)
           "develop" H).
Defined.

(** * The order of siblings under the comparison of the host *)

(** ** Sorting looks at the comparison only through its sign on the
    elements *)

Lemma insert_ext {A : Type} (cmp cmp' : A -> A -> Z) (x : A) (l : list A) :
  (forall y, In y l -> (cmp x y <=? 0)%Z = (cmp' x y <=? 0)%Z) ->
  insert cmp x l = insert cmp' x l.
Proof.
  induction l as [|y l IH]; intros H; [reflexivity|].
  cbn [insert]. rewrite <- (H y) by now left.
  destruct (cmp x y <=? 0)%Z; [reflexivity|].
  rewrite IH; [reflexivity|]. intros z Hz. apply H. now right.
Qed.

Lemma sort_ext {A : Type} (cmp cmp' : A -> A -> Z) (l : list A) :
  (forall x y, In x l -> In y l -> (cmp x y <=? 0)%Z = (cmp' x y <=? 0)%Z) ->
  sort cmp l = sort cmp' l.
Proof.
  induction l as [|x l IH]; intros H; [reflexivity|].
  cbn [sort]. rewrite IH by (intros a b Ha Hb; apply H; now right).
  apply insert_ext. intros y Hy. apply H; [now left|]. right.
  exact (Permutation_in _ (sort_perm A cmp' l) Hy).
Qed.

Lemma compare_nodes_ext (cmp cmp' : string -> string -> Z)
    (a b : FileTreeNode) :
  (cmp (node_name a) (node_name b) <=? 0)%Z
  = (cmp' (node_name a) (node_name b) <=? 0)%Z ->
  (compare_nodes cmp a b <=? 0)%Z = (compare_nodes cmp' a b <=? 0)%Z.
Proof.
  unfold compare_nodes.
  destruct (negb (Bool.eqb (is_directory a) (is_directory b)));
    [reflexivity | auto].
Qed.

Section SameSign.

Variable cmp cmp' : string -> string -> Z.
Variable names : list string.

Hypothesis same_sign :
  forall a b, In a names -> In b names ->
              (cmp a b <=? 0)%Z = (cmp' a b <=? 0)%Z.

Lemma sort_level_ext (level : list FileTreeNode) :
  incl (map node_name level) names ->
  sort (compare_nodes cmp) level = sort (compare_nodes cmp') level.
Proof.
  intros Hin. apply sort_ext. intros x y Hx Hy.
  apply compare_nodes_ext, same_sign; apply Hin; now apply in_map.
Qed.

Lemma sortNode_ext (node : FileTreeNode) :
  incl (node_names node) names -> sortNode cmp node = sortNode cmp' node.
Proof.
  induction node as [name p size language isSupported|name p children IH]
    using FileTreeNode_induction; intros Hin; [reflexivity|].
  cbn [sortNode]. f_equal.
  assert (Hmap : map (sortNode cmp) children = map (sortNode cmp') children).
  { apply map_ext_in. intros c Hc. rewrite Forall_forall in IH.
    apply (IH c Hc). intros x Hx. apply Hin. cbn [node_names]. right.
    apply in_flat_map. now exists c. }
  rewrite Hmap. apply sort_level_ext.
  rewrite sortNode_names. intros x Hx. apply Hin. cbn [node_names]. right.
  apply in_map_iff in Hx. destruct Hx as (c & <- & Hc).
  apply in_flat_map. exists c. split; [exact Hc|].
  destruct c; now left.
Qed.

Lemma sortNodes_ext (level : list FileTreeNode) :
  incl (flat_map node_names level) names ->
  sortNodes cmp level = sortNodes cmp' level.
Proof.
  intros Hin. unfold sortNodes.
  assert (Hmap : map (sortNode cmp) level = map (sortNode cmp') level).
  { apply map_ext_in. intros c Hc. apply sortNode_ext.
    intros x Hx. apply Hin, in_flat_map. now exists c. }
  rewrite Hmap. apply sort_level_ext.
  rewrite sortNode_names. intros x Hx. apply Hin.
  apply in_map_iff in Hx. destruct Hx as (c & <- & Hc).
  apply in_flat_map. exists c. split; [exact Hc|].
  destruct c; now left.
Qed.

End SameSign.

(** ** The names of the tree are segments of the paths *)

Section TreeNames.

Variable Content : Type.

Lemma place_names (file : CodebaseFile Content) parts rest :
  forall i level x,
    In x (flat_map node_names (place file parts i rest level)) ->
    In x (flat_map node_names level) \/ In x rest.
Proof.
  induction rest as [|part rest IH]; intros i level x Hin; [now left|].
  destruct (find_node part level) as [node|] eqn:Hfind.
  - destruct rest as [|part' rest].
    { rewrite (place_last_exists Content file parts i part level node Hfind)
        in Hin.
      now left. }
    destruct node as [name q size language isSupported|name q children].
    + rewrite (place_file_clash Content file parts i part (part' :: rest)
                 level name q size language isSupported Hfind) in Hin
        by discriminate.
      destruct (IH (S i) level x Hin) as [Hold|Hrest];
        [now left | right; now right].
    + rewrite (place_directory Content file parts i part (part' :: rest)
                 level name q children Hfind) in Hin by discriminate.
      destruct (with_children_split part
                  (place file parts (S i) (part' :: rest)) level name q
                  children Hfind) as (before & after & -> & _ & Hwc).
      rewrite Hwc in Hin. rewrite !flat_map_app in *.
      cbn [flat_map node_names node_name] in *.
      apply in_app_or in Hin. destruct Hin as [Hin|Hin].
      { left. apply in_or_app. now left. }
      apply in_app_or in Hin. destruct Hin as [[<-|Hin]|Hin].
      * left. apply in_or_app. right. apply in_or_app. left. now left.
      * destruct (IH (S i) children x Hin) as [Hold|Hrest].
        -- left. apply in_or_app. right. apply in_or_app. left. now right.
        -- right. now right.
      * left. apply in_or_app. right. apply in_or_app. now right.
  - rewrite (place_none Content file parts i part rest level Hfind) in Hin.
    rewrite flat_map_app in Hin. apply in_app_or in Hin.
    destruct Hin as [Hin|Hin]; [now left|].
    cbn [flat_map] in Hin. rewrite app_nil_r in Hin.
    destruct rest as [|part' rest].
    + cbn [new_node node_names node_name] in Hin.
      destruct Hin as [<-|[]]. right. now left.
    + cbn [new_node node_names node_name] in Hin.
      destruct Hin as [<-|Hin]; [right; now left|].
      destruct (IH (S i) [] x Hin) as [[]|Hrest]. right. now right.
Qed.

Lemma fold_add_names (files : list (CodebaseFile Content)) :
  forall level x,
    In x (flat_map node_names (fold_left add_file files level)) ->
    In x (flat_map node_names level) \/ In x (segments files).
Proof.
  induction files as [|f files IH]; intros level x Hin; [now left|].
  cbn [fold_left] in Hin. unfold segments. cbn [flat_map].
  destruct (IH _ x Hin) as [Hold|Hrest].
  - unfold add_file in Hold.
    destruct (place_names f _ _ 0 level x Hold) as [Hlevel|Hparts];
      [now left|].
    right. apply in_or_app. now left.
  - right. apply in_or_app. now right.
Qed.

Lemma segments_permuted (files files' : list (CodebaseFile Content)) x :
  Permutation files files' -> In x (segments files') -> In x (segments files).
Proof.
  intros Hp Hin. unfold segments in *. apply in_flat_map in Hin.
  destruct Hin as (f & Hf & Hx). apply in_flat_map. exists f.
  split; [|exact Hx].
  exact (Permutation_in _ (Permutation_sym Hp) Hf).
Qed.

End TreeNames.

(** ** Breaking the ties of a comparison *)

Section TieBroken.

Variable cmp : string -> string -> Z.

Hypothesis cmp_total : forall a b, (cmp a b <= 0 \/ cmp b a <= 0)%Z.
Hypothesis cmp_trans :
  forall a b c, (cmp a b <= 0 -> cmp b c <= 0 -> cmp a c <= 0)%Z.

Lemma tie_broken_total a b :
  (tie_broken cmp a b <= 0 \/ tie_broken cmp b a <= 0)%Z.
Proof.
  unfold tie_broken.
  pose proof (cmp_total a b). pose proof (code_unit_compare_total a b).
  destruct (Z.leb_spec (cmp a b) 0), (Z.leb_spec (cmp b a) 0); lia.
Qed.

Lemma tie_broken_trans a b c :
  (tie_broken cmp a b <= 0 -> tie_broken cmp b c <= 0 ->
   tie_broken cmp a c <= 0)%Z.
Proof.
  unfold tie_broken.
  pose proof (cmp_trans a b c). pose proof (cmp_trans b c a).
  pose proof (cmp_trans c a b). pose proof (cmp_trans a c b).
  pose proof (cmp_trans b a c). pose proof (cmp_trans c b a).
  pose proof (cmp_total a c).
  pose proof (code_unit_compare_trans a b c).
  destruct (Z.leb_spec (cmp a b) 0), (Z.leb_spec (cmp b a) 0),
    (Z.leb_spec (cmp b c) 0), (Z.leb_spec (cmp c b) 0),
    (Z.leb_spec (cmp a c) 0), (Z.leb_spec (cmp c a) 0); lia.
Qed.

Lemma tie_broken_antisym a b :
  (tie_broken cmp a b <= 0)%Z -> (tie_broken cmp b a <= 0)%Z -> a = b.
Proof.
  unfold tie_broken.
  destruct (Z.leb_spec (cmp a b) 0), (Z.leb_spec (cmp b a) 0);
    try lia.
  apply code_unit_compare_antisym.
Qed.

(** Where [cmp] tells two names apart, breaking ties changes no sign. *)
Lemma tie_broken_same_sign a b :
  ((cmp a b <= 0)%Z -> (cmp b a <= 0)%Z -> a = b) ->
  (cmp a b <=? 0)%Z = (tie_broken cmp a b <=? 0)%Z.
Proof.
  intros Hapart. unfold tie_broken.
  destruct (Z.leb_spec (cmp a b) 0) as [Hab|Hab]; [|reflexivity].
  destruct (Z.leb_spec (cmp b a) 0) as [Hba|Hba]; [|reflexivity].
  rewrite (Hapart Hab Hba). symmetry. apply Z.leb_le.
  destruct (code_unit_compare_total b b); assumption.
Qed.

Lemma buildFileTree_tie_broken (Content : Type)
    (files : list (CodebaseFile Content)) :
  names_told_apart cmp files ->
  buildFileTree cmp files = buildFileTree (tie_broken cmp) files.
Proof.
  intros Hapart. unfold buildFileTree.
  apply (sortNodes_ext cmp (tie_broken cmp) (segments files)).
  - intros a b Ha Hb. apply tie_broken_same_sign. now apply Hapart.
  - intros x Hx.
    destruct (fold_add_names Content files [] x Hx) as [[]|Hs]. exact Hs.
Qed.

(** C5, as the code has it. With the comparison of the host, which is total
    and transitive, the tree built from a list of files has, at every level,
    the directories before the files and the nodes of one kind in the order
    of their names under that comparison; sorting it again changes nothing;
    and if the paths are unique, none of them is a proper directory prefix
    of another and the comparison tells their segments apart, every
    permutation of the list gives the same tree. *)
Theorem buildFileTree_sorted_and_order_independent (Content : Type)
    (files : list (CodebaseFile Content)) :
  sorted_tree cmp (buildFileTree cmp files)
  /\ sortNodes cmp (buildFileTree cmp files) = buildFileTree cmp files
  /\ forall files',
       consistent_paths files -> names_told_apart cmp files ->
       Permutation files files' ->
       buildFileTree cmp files' = buildFileTree cmp files.
Proof.
  split; [|split].
  - now apply sortNodes_sorted_tree.
  - now apply sortNodes_idempotent.
  - intros files' [Hnd Hprefix] Hapart Hp.
    assert (Hapart' : names_told_apart cmp files').
    { intros a b Ha Hb.
      apply Hapart; now apply (segments_permuted Content files files'). }
    rewrite (buildFileTree_tie_broken Content files Hapart),
      (buildFileTree_tie_broken Content files' Hapart').
    unfold buildFileTree. symmetry.
    apply (fold_add_permuted (tie_broken cmp) tie_broken_total
             tie_broken_trans tie_broken_antisym Content files files' Hp).
    + apply unique_names_nil.
    + intros f _. apply compatible_nil.
    + now apply parts_of_nodup.
    + intros f g Hf Hg. apply proper_prefix_or_diverge; now apply Hprefix.
Qed.

End TieBroken.

Lemma buildFileTree_sorted_and_order_independent_witness :
  consistent_paths spec_files
  /\ names_told_apart code_unit_compare spec_files
  /\ Permutation spec_files spec_files_reversed
  /\ buildFileTree code_unit_compare spec_files_reversed
     = buildFileTree code_unit_compare spec_files.
Proof.
  assert (Ha : names_told_apart code_unit_compare spec_files)
    by (intros a b _ _; apply code_unit_compare_antisym).
  assert (Hp : Permutation spec_files spec_files_reversed)
    by exact (Permutation_rev spec_files).
  split; [exact spec_files_consistent|]. split; [exact Ha|].
  split; [exact Hp|].
  exact (proj2 (proj2 (buildFileTree_sorted_and_order_independent
                         code_unit_compare
                         code_unit_compare_total code_unit_compare_trans
                         string spec_files))
           spec_files_reversed spec_files_consistent Ha Hp).
Defined.

(** ** Names that the host does not tell apart *)

Lemma kelvin_collation_total a b :
  (kelvin_collation a b <= 0 \/ kelvin_collation b a <= 0)%Z.
Proof. apply code_unit_compare_total. Qed.

Lemma kelvin_collation_trans a b c :
  (kelvin_collation a b <= 0 -> kelvin_collation b c <= 0 ->
   kelvin_collation a c <= 0)%Z.
Proof. apply code_unit_compare_trans. Qed.

Lemma kelvin_files_consistent : consistent_paths kelvin_files.
Proof.
  split.
  - repeat constructor; simpl; intuition discriminate.
  - intros f g [<-|[<-|[]]] [<-|[<-|[]]]; reflexivity.
Qed.

(** Two sibling files whose names compare as equal stay in the order in
    which they were added. *)
Lemma tied_siblings_keep_their_order (cmp : string -> string -> Z) :
  (cmp "K.ts" (KELVIN_SIGN ++ ".ts") <= 0)%Z ->
  (cmp (KELVIN_SIGN ++ ".ts") "K.ts" <= 0)%Z ->
  buildFileTree cmp kelvin_files
  = [FileNode "K.ts" "K.ts" 0 None true;
     FileNode (KELVIN_SIGN ++ ".ts") (KELVIN_SIGN ++ ".ts") 0 None true]
  /\ buildFileTree cmp kelvin_files_swapped
     = [FileNode (KELVIN_SIGN ++ ".ts") (KELVIN_SIGN ++ ".ts") 0 None true;
        FileNode "K.ts" "K.ts" 0 None true].
Proof.
  intros H1 H2. unfold buildFileTree.
  change (fold_left add_file kelvin_files [])
    with [FileNode "K.ts" "K.ts" 0 None true;
          FileNode (KELVIN_SIGN ++ ".ts") (KELVIN_SIGN ++ ".ts") 0 None true].
  change (fold_left add_file kelvin_files_swapped [])
    with [FileNode (KELVIN_SIGN ++ ".ts") (KELVIN_SIGN ++ ".ts") 0 None true;
          FileNode "K.ts" "K.ts" 0 None true].
  unfold sortNodes.
  cbn [map sortNode sort insert compare_nodes is_directory Bool.eqb negb
         node_name].
  apply Z.leb_le in H1, H2. rewrite H1, H2. split; reflexivity.
Qed.

(** C5, as stated, fails, in two ways. Unique paths are not enough: with
    ["a"] first the file ["a/b"] lands next to it at the root, with ["a/b"]
    first the file ["a"] is dropped. And consistent paths are not enough
    either: the names ["K.ts"] with the letter and with the Kelvin sign are
    distinct, every comparison that returns zero for them, as the host's
    does for canonically equivalent strings, leaves the two files in the
    order of the input, and a collation that is total and transitive does
    so. *)
Lemma order_matters_beyond_unique_paths :
  (Permutation clash_files clash_files_swapped
   /\ NoDup (map file_path clash_files)
   /\ buildFileTree code_unit_compare clash_files
      <> buildFileTree code_unit_compare clash_files_swapped)
  /\ (Permutation kelvin_files kelvin_files_swapped
      /\ consistent_paths kelvin_files
      /\ (forall cmp : string -> string -> Z,
            (cmp "K.ts" (KELVIN_SIGN ++ ".ts") <= 0)%Z ->
            (cmp (KELVIN_SIGN ++ ".ts") "K.ts" <= 0)%Z ->
            buildFileTree cmp kelvin_files
            <> buildFileTree cmp kelvin_files_swapped)
      /\ buildFileTree kelvin_collation kelvin_files
         <> buildFileTree kelvin_collation kelvin_files_swapped).
Proof.
  split.
  - destruct order_matters_when_a_file_is_a_directory
      as (Hp & Hn & _ & _ & Hne).
    auto.
  - split; [apply perm_swap|]. split; [exact kelvin_files_consistent|].
    split.
    + intros cmp H1 H2.
      destruct (tied_siblings_keep_their_order cmp H1 H2) as [-> ->].
      discriminate.
    + vm_compute. discriminate.
Qed.

(** * The extension test over code units *)

(** ** On ASCII names it is the test of the byte model *)

Lemma of_string_cons (c : ascii) (s : string) :
  CodeUnits.of_string (String c s) = N_of_ascii c :: CodeUnits.of_string s.
Proof. reflexivity. Qed.

Lemma N_of_ascii_eqb (a b : ascii) :
  (N_of_ascii a =? N_of_ascii b)%N = Ascii.eqb a b.
Proof.
  destruct (Ascii.eqb_spec a b) as [->|Hne].
  - apply N.eqb_refl.
  - apply N.eqb_neq. intros E. apply Hne.
    rewrite <- (ascii_N_embedding a), <- (ascii_N_embedding b).
    now rewrite E.
Qed.

Lemma code_units_eqb (a b : string) :
  CodeUnits.eqb (CodeUnits.of_string a) (CodeUnits.of_string b)
  = String.eqb a b.
Proof.
  revert b. induction a as [|x a IH]; intros [|y b]; try reflexivity.
  rewrite !of_string_cons. cbn [CodeUnits.eqb String.eqb].
  rewrite N_of_ascii_eqb, IH.
  destruct (Ascii.eqb x y); reflexivity.
Qed.

Lemma code_units_lastIndexOf (c : ascii) (s : string) :
  CodeUnits.lastIndexOf (N_of_ascii c) (CodeUnits.of_string s)
  = lastIndexOf c s.
Proof.
  induction s as [|a s IH]; [reflexivity|].
  rewrite of_string_cons. cbn [CodeUnits.lastIndexOf lastIndexOf].
  now rewrite IH, N_of_ascii_eqb.
Qed.

Lemma code_units_substring (n : nat) (s : string) :
  skipn n (CodeUnits.of_string s) = CodeUnits.of_string (drop n s).
Proof.
  revert s. induction n as [|n IH]; intros s; [reflexivity|].
  destruct s as [|c s]; [reflexivity|].
  rewrite of_string_cons. cbn [skipn drop]. apply IH.
Qed.

Lemma code_units_lookup (ext : string) (m : list (string * string)) :
  option_map snd
    (find (fun entry => CodeUnits.eqb (CodeUnits.of_string ext)
                          (CodeUnits.of_string (fst entry))) m)
  = lookup ext m.
Proof.
  induction m as [|[k v] m IH]; [reflexivity|].
  cbn [find lookup fst]. rewrite code_units_eqb, String.eqb_sym.
  destruct (String.eqb k ext); [reflexivity | exact IH].
Qed.

(** For a host that lower-cases ASCII texts letter by letter, as ECMAScript
    does, the functions over code units and the functions over bytes agree
    on every ASCII name. *)
Lemma ascii_names_agree
    (toLowerCase16 : CodeUnits.js_string -> CodeUnits.js_string) :
  (forall s : string,
      CodeUnits.is_ascii (CodeUnits.of_string s) = true ->
      toLowerCase16 (CodeUnits.of_string s)
      = CodeUnits.of_string (toLowerCase s)) ->
  forall filename : string,
    CodeUnits.is_ascii (CodeUnits.of_string filename) = true ->
    CodeUnits.isSupportedFile toLowerCase16 (CodeUnits.of_string filename)
    = isSupportedFile filename
    /\ CodeUnits.detectLanguage toLowerCase16 (CodeUnits.of_string filename)
       = detectLanguage filename.
Proof.
  intros Hhost filename Hascii.
  unfold CodeUnits.isSupportedFile, isSupportedFile,
    CodeUnits.detectLanguage, detectLanguage.
  cbv zeta. rewrite (Hhost filename Hascii).
  change CodeUnits.FULL_STOP with (N_of_ascii ".").
  rewrite code_units_lastIndexOf.
  unfold CodeUnits.substring_from, substring_from.
  rewrite code_units_substring. split.
  - induction SUPPORTED_EXTENSIONS as [|e l IH]; [reflexivity|].
    cbn [existsb]. now rewrite code_units_eqb, IH.
  - apply code_units_lookup.
Qed.

(** ** A name whose lower-casing is longer *)

Section DottedCapitalI.

Variable toLowerCase16 : CodeUnits.js_string -> CodeUnits.js_string.

(** What ECMAScript's [toLowerCase] returns for the two texts. *)
Hypothesis lower_dotted_I_ts :
  toLowerCase16 CodeUnits.dotted_I_ts = CodeUnits.dotted_I_ts_lower.
Hypothesis lower_ts :
  toLowerCase16 (CodeUnits.of_string "ts") = CodeUnits.of_string "ts".

(** C4. The name U+0130 [".ts"] has the text ["ts"] after its last ["."],
    which is in the supported set, yet [isSupportedFile] rejects it and
    [detectLanguage] knows no language for it: the last ["."] is at index 1
    of the name and at index 2 of the lower-cased name, so the code cuts the
    lower-cased name one code unit early and looks up U+0307 [".ts"]. *)
Theorem dotted_I_ts_is_dropped :
  CodeUnits.after_last_dot CodeUnits.dotted_I_ts
  = Some (CodeUnits.of_string "ts")
  /\ CodeUnits.extension_supported toLowerCase16 CodeUnits.dotted_I_ts = true
  /\ CodeUnits.lastIndexOf CodeUnits.FULL_STOP CodeUnits.dotted_I_ts = 1%Z
  /\ CodeUnits.substring_from 1 (toLowerCase16 CodeUnits.dotted_I_ts)
     = (775 :: CodeUnits.of_string ".ts")%N
  /\ CodeUnits.isSupportedFile toLowerCase16 CodeUnits.dotted_I_ts = false
  /\ CodeUnits.detectLanguage toLowerCase16 CodeUnits.dotted_I_ts = None.
Proof.
  unfold CodeUnits.extension_supported, CodeUnits.isSupportedFile,
    CodeUnits.detectLanguage.
  cbv zeta.
  change (CodeUnits.after_last_dot CodeUnits.dotted_I_ts)
    with (Some (CodeUnits.of_string "ts")).
  rewrite lower_dotted_I_ts, lower_ts.
  repeat split.
Qed.

End DottedCapitalI.

Lemma dotted_I_ts_is_dropped_witness :
  CodeUnits.lower_units CodeUnits.dotted_I_ts = CodeUnits.dotted_I_ts_lower
  /\ CodeUnits.lower_units (CodeUnits.of_string "ts")
     = CodeUnits.of_string "ts"
  /\ CodeUnits.extension_supported CodeUnits.lower_units
       CodeUnits.dotted_I_ts = true
  /\ CodeUnits.isSupportedFile CodeUnits.lower_units CodeUnits.dotted_I_ts
     = false.
Proof.
  assert (H1 : CodeUnits.lower_units CodeUnits.dotted_I_ts
               = CodeUnits.dotted_I_ts_lower) by reflexivity.
  assert (H2 : CodeUnits.lower_units (CodeUnits.of_string "ts")
               = CodeUnits.of_string "ts") by reflexivity.
  split; [exact H1|]. split; [exact H2|].
  pose proof (dotted_I_ts_is_dropped CodeUnits.lower_units H1 H2)
    as (_ & Hs & _ & _ & Hc & _).
  split; [exact Hs | exact Hc].
Defined.
